(** * Currency-Exchange-Analyzer: the analytics core, embedded and verified

    The development follows the C++ sources:

    - [CurrencyPair]   (CurrencyPair.h / CurrencyPair.cpp): the quote record,
      its constructors, [setPairCode], [setPrice], [getChangeByMetric],
      [toString] and [getInvertedPair];
    - [CurrencyAnalyzer] (CurrencyAnalyzer.h / CurrencyAnalyzer.cpp): the
      quote collection with its base-rate table, [loadFromJson] and
      [loadFromCsv], [calculateBaseRates], [getExchangeRate],
      [calculateCrossCurrencyRate], [getTopPerformers], [getWorstPerformers],
      [getAvailableCurrencyPairs], [getAvailableCurrencies],
      [detectSignificantMovements], [identifyTradingOpportunities],
      [findArbitrageOpportunities] and [getHistoricalData];
    - [DataReader] (DataReader.h / DataReader.cpp): the JSON and CSV readers;
    - main.cpp: the records its ranking entries print.

    A C++ [double] is an IEEE 754 binary64 number: the kernel's primitive
    [float].  [std::string] is [string], [std::vector] is [list],
    [std::unordered_map<std::string, double>] is [gmap string float], and an
    [int] is a [Z] with the conversions that can wrap written out. *)

From Stdlib Require Import ZArith Ascii String Floats Reals Lra Lia Psatz DecimalString.
From stdpp Require Import gmap strings list fin_maps fin_sets sorting.

Set Warnings "-inexact-float".

(** ** Arithmetic

    [getInvertedPair] and the profit percentage of the arbitrage scan only
    add, subtract, multiply and divide.  They are written over the
    operations they use; the program's operations are those of the
    machine's doubles. *)

Class Arith (D : Type) := {
  d_one : D;
  d_hundred : D;
  d_add : D → D → D;
  d_sub : D → D → D;
  d_mul : D → D → D;
  d_div : D → D → D;
  d_opp : D → D
}.

#[export] Instance double_arith : Arith float := {|
  d_one := 1%float;
  d_hundred := 100%float;
  d_add := PrimFloat.add;
  d_sub := PrimFloat.sub;
  d_mul := PrimFloat.mul;
  d_div := PrimFloat.div;
  d_opp := PrimFloat.opp
|}.

(** ** std::string operations used by the constructors *)

Module StdString.

(** [s.find(c)]: the position of the first [c]; [None] is [npos]. *)
Fixpoint find (s : string) (c : ascii) : option nat :=
  match s with
  | EmptyString => None
  | String a s' => if Ascii.eqb a c then Some 0 else S <$> find s' c
  end.

Fixpoint skip (pos : nat) (s : string) : string :=
  match pos, s with
  | S pos', String _ s' => skip pos' s'
  | _, _ => s
  end.

Fixpoint keep (len : nat) (s : string) : string :=
  match len, s with
  | S len', String a s' => String a (keep len' s')
  | _, _ => EmptyString
  end.

(** [s.substr(pos, len)], [None] being the default [npos]: the characters
    from [pos] on, at most [len] of them.  The program only passes
    positions within the string (0, and one past a position [find]
    returned), so the [std::out_of_range] of a [pos] beyond the size does not
    arise. *)
Definition substr (s : string) (pos : nat) (len : option nat) : string :=
  match len with
  | Some n => keep n (skip pos s)
  | None => skip pos s
  end.

End StdString.

(** ** CurrencyPair *)

Record CurrencyPairOf (D : Type) := mkCurrencyPair {
  pairCode : string;
  baseCurrency : string;
  quoteCurrency : string;
  price : D;
  dayChange : D;
  percentChange : D;
  weeklyChange : D;
  monthlyChange : D;
  ytdChange : D;
  yoyChange : D;
  group : string;
  timestamp : string
}.

Arguments mkCurrencyPair {D}.
Arguments pairCode {D}.
Arguments baseCurrency {D}.
Arguments quoteCurrency {D}.
Arguments price {D}.
Arguments dayChange {D}.
Arguments percentChange {D}.
Arguments weeklyChange {D}.
Arguments monthlyChange {D}.
Arguments ytdChange {D}.
Arguments yoyChange {D}.
Arguments group {D}.
Arguments timestamp {D}.

(** The program's records hold doubles. *)
Abbreviation CurrencyPair := (CurrencyPairOf float).

(** The parsing step shared by the constructors that take a pair code: the
    code is split at its first '/'; without one both currencies stay empty. *)
Definition parsePairCode (code : string) : string * string :=
  match StdString.find code "/" with
  | Some slashPos =>
      (StdString.substr code 0 (Some slashPos),
       StdString.substr code (slashPos + 1) None)
  | None => ("", "")
  end.

(** [CurrencyPair(pairCode, price, dayChange, percentChange, weeklyChange,
    monthlyChange, ytdChange, yoyChange, group, timestamp)]. *)
Definition CurrencyPair_full {D} (code : string) (pr dc pc wk mo ytd yoy : D)
    (grp ts : string) : CurrencyPairOf D :=
  let '(b, q) := parsePairCode code in
  mkCurrencyPair code b q pr dc pc wk mo ytd yoy grp ts.

(** [CurrencyPair(pairCode, price)]: every change metric is 0.0. *)
Definition CurrencyPair_code (code : string) (pr : float) : CurrencyPair :=
  let '(b, q) := parsePairCode code in
  mkCurrencyPair code b q pr 0%float 0%float 0%float 0%float 0%float 0%float "" "".

(** [CurrencyPair(baseCurrency, quoteCurrency, price, percentChange)]. *)
Definition CurrencyPair_base_quote (b q : string) (pr pc : float) : CurrencyPair :=
  mkCurrencyPair (b +:+ "/" +:+ q) b q pr 0%float pc 0%float 0%float 0%float 0%float "" "".

Definition getChangeByMetric (p : CurrencyPair) (metric : string) : float :=
  if String.eqb metric "Percent Change" then percentChange p
  else if String.eqb metric "Weekly" then weeklyChange p
  else if String.eqb metric "Monthly" then monthlyChange p
  else if String.eqb metric "YTD" then ytdChange p
  else if String.eqb metric "YoY" then yoyChange p
  else 0%float.

Section Inverted.
Context {D : Type} `{Arith D}.

(** The lambda of [getInvertedPair]:
    [(1.0 / (1.0 + change / 100.0) - 1.0) * 100.0]. *)
Definition invertPercentage (change : D) : D :=
  d_mul (d_sub (d_div d_one (d_add d_one (d_div change d_hundred))) d_one) d_hundred.

Definition getInvertedPair (p : CurrencyPairOf D) : CurrencyPairOf D :=
  let invertedPairCode := quoteCurrency p +:+ "/" +:+ baseCurrency p in
  let invertedPrice := d_div d_one (price p) in
  CurrencyPair_full
    invertedPairCode
    invertedPrice
    (d_div (d_opp (dayChange p)) (d_mul (price p) (price p)))
    (invertPercentage (percentChange p))
    (invertPercentage (weeklyChange p))
    (invertPercentage (monthlyChange p))
    (invertPercentage (ytdChange p))
    (invertPercentage (yoyChange p))
    (group p)
    (timestamp p).

End Inverted.

(** ** CurrencyAnalyzer

    The members the analytics read: the quote collection and the table of
    rates to USD.  ([historicalData] and [movementThreshold] play no part in
    the functions below.) *)

Record CurrencyAnalyzer := mkAnalyzer {
  currencyPairs : list CurrencyPair;
  baseRates : gmap string float
}.

(** *** calculateBaseRates *)

(** Body of the first loop: the direct USD rates. *)
Definition seedStep (rates : gmap string float) (pair : CurrencyPair) : gmap string float :=
  if String.eqb (baseCurrency pair) "USD" then
    <[quoteCurrency pair := price pair]> rates
  else if String.eqb (quoteCurrency pair) "USD" then
    <[baseCurrency pair := (1 / price pair)%float]> rates
  else rates.

(** [baseRates.clear()], the first loop, then [baseRates["USD"] = 1.0]. *)
Definition seedRates (pairs : list CurrencyPair) : gmap string float :=
  <["USD" := 1%float]> (fold_left seedStep pairs ∅).

(** Body of the loop inside [while (ratesUpdated)]; the state is the table
    and the flag [ratesUpdated]. *)
Definition propagateStep (st : gmap string float * bool) (pair : CurrencyPair)
    : gmap string float * bool :=
  let '(rates, ratesUpdated) := st in
  match rates !! baseCurrency pair, rates !! quoteCurrency pair with
  | Some b, None => (<[quoteCurrency pair := (b * price pair)%float]> rates, true)
  | None, Some q => (<[baseCurrency pair := (q / price pair)%float]> rates, true)
  | _, _ => (rates, ratesUpdated)
  end.

(** One iteration of the [while]: the flag is reset, then every pair is
    visited. *)
Definition propagatePass (pairs : list CurrencyPair) (rates : gmap string float)
    : gmap string float * bool :=
  fold_left propagateStep pairs (rates, false).

(** The [while (ratesUpdated)] loop, which starts with the flag set.  The
    source loop has no bound: [fuel] counts the passes the model may run and
    [None] means they did not suffice. *)
Fixpoint propagateLoop (fuel : nat) (pairs : list CurrencyPair)
    (rates : gmap string float) : option (gmap string float) :=
  match fuel with
  | O => None
  | S fuel' =>
      let '(rates', ratesUpdated) := propagatePass pairs rates in
      if ratesUpdated then propagateLoop fuel' pairs rates' else Some rates'
  end.

(** Passes granted to the loop: a pair names two currencies, USD is one
    more, and the last pass changes nothing. *)
Definition passBound (pairs : list CurrencyPair) : nat := 2 * length pairs + 2.

Definition calculateBaseRates (pairs : list CurrencyPair) : option (gmap string float) :=
  propagateLoop (passBound pairs) pairs (seedRates pairs).

(** [loadFromJson] / [loadFromCsv] once the reader has produced the records:
    an empty collection is refused before [calculateBaseRates] runs. *)
Definition loadPairs (pairs : list CurrencyPair) : option CurrencyAnalyzer :=
  match pairs with
  | [] => None
  | _ => mkAnalyzer pairs <$> calculateBaseRates pairs
  end.

(** *** getExchangeRate and calculateCrossCurrencyRate *)

(** A [for] loop that returns the rate of the first pair with the given
    code; [None] when the loop falls through. *)
Fixpoint lookupDirect (code : string) (pairs : list CurrencyPair) : option float :=
  match pairs with
  | [] => None
  | cp :: rest =>
      if String.eqb (pairCode cp) code then Some (price cp)
      else lookupDirect code rest
  end.

Fixpoint lookupInverse (code : string) (pairs : list CurrencyPair) : option float :=
  match pairs with
  | [] => None
  | cp :: rest =>
      if String.eqb (pairCode cp) code then Some (1 / price cp)%float
      else lookupInverse code rest
  end.

(** The single loop of [calculateCrossCurrencyRate], which tests each pair
    against both codes. *)
Fixpoint lookupEither (directPair inversePair : string) (pairs : list CurrencyPair)
    : option float :=
  match pairs with
  | [] => None
  | cp :: rest =>
      if String.eqb (pairCode cp) directPair then Some (price cp)
      else if String.eqb (pairCode cp) inversePair then Some (1 / price cp)%float
      else lookupEither directPair inversePair rest
  end.

(** The warning written to [std::cerr] before the final [return 0.0] is not
    modelled. *)
Definition calculateCrossCurrencyRate (a : CurrencyAnalyzer)
    (fromCurrency toCurrency : string) : float :=
  match baseRates a !! fromCurrency, baseRates a !! toCurrency with
  | Some rateFrom, Some rateTo => (rateTo / rateFrom)%float
  | _, _ =>
      let directPair := fromCurrency +:+ "/" +:+ toCurrency in
      let inversePair := toCurrency +:+ "/" +:+ fromCurrency in
      match lookupEither directPair inversePair (currencyPairs a) with
      | Some rate => rate
      | None => 0%float
      end
  end.

Definition getExchangeRate (a : CurrencyAnalyzer)
    (fromCurrency toCurrency : string) : float :=
  let pairCode := fromCurrency +:+ "/" +:+ toCurrency in
  match lookupDirect pairCode (currencyPairs a) with
  | Some rate => rate
  | None =>
      let inversePairCode := toCurrency +:+ "/" +:+ fromCurrency in
      match lookupInverse inversePairCode (currencyPairs a) with
      | Some rate => rate
      | None => calculateCrossCurrencyRate a fromCurrency toCurrency
      end
  end.

(** *** getAvailableCurrencies *)

(** [std::set<std::string>::insert]: the set is kept as its sorted sequence
    of distinct elements, strings ordered bytewise. *)
Fixpoint set_insert (x : string) (s : list string) : list string :=
  match s with
  | [] => [x]
  | y :: s' =>
      match String.compare x y with
      | Lt => x :: s
      | Eq => s
      | Gt => y :: set_insert x s'
      end
  end.

Definition getAvailableCurrencies (a : CurrencyAnalyzer) : list string :=
  fold_left
    (λ currencies pair,
       set_insert (quoteCurrency pair) (set_insert (baseCurrency pair) currencies))
    (currencyPairs a) [].

(** *** findArbitrageOpportunities *)

(** The text written to the string stream; the arrow is U+2192. *)
Definition arbitragePath (currA currB currC : string) : string :=
  currA +:+ "→" +:+ currB +:+ "→" +:+ currC +:+ "→" +:+ currA.

(** The profit percentage of a loop whose rates multiply to [product]:
    [(product - 1.0) * 100], written like [getInvertedPair] over the
    operations it uses. *)
Definition profitPercent {D} `{Arith D} (product : D) : D :=
  d_mul (d_sub product d_one) d_hundred.

(** The innermost loop body, after the two [continue]s on equal
    currencies: the profit of the triple when it is pushed. *)
Definition arbitrageProfit (a : CurrencyAnalyzer) (currA currB currC : string)
    : option float :=
  let rateAB := calculateCrossCurrencyRate a currA currB in
  let rateBC := calculateCrossCurrencyRate a currB currC in
  let rateCA := calculateCrossCurrencyRate a currC currA in
  if (rateAB <=? 0)%float || (rateBC <=? 0)%float || (rateCA <=? 0)%float then None
  else
    let profit := profitPercent (rateAB * rateBC * rateCA)%float in
    if (1 <? profit)%float then Some profit else None.

(** The three nested loops; every push is kept with the triple that caused
    it. *)
Definition arbitrageScan (a : CurrencyAnalyzer) : list (string * string * string * float) :=
  let currencies := getAvailableCurrencies a in
  currA ← currencies;
  currB ← currencies;
  if String.eqb currA currB then [] else
  currC ← currencies;
  if String.eqb currA currC || String.eqb currB currC then [] else
  match arbitrageProfit a currA currB currC with
  | Some profit => [(currA, currB, currC, profit)]
  | None => []
  end.

Definition findArbitrageOpportunities (a : CurrencyAnalyzer) : list (string * float) :=
  (λ '(currA, currB, currC, profit), (arbitragePath currA currB currC, profit))
    <$> arbitrageScan a.

(** *** getTopPerformers and getWorstPerformers *)

(** [static_cast<int>] of a size: reduction to 32 bits, two's complement. *)
Definition static_cast_int (z : Z) : Z :=
  ((z + 2 ^ 31) mod 2 ^ 32 - 2 ^ 31)%Z.

(** [std::vector<T>(v.begin(), v.begin() + n)].  For negative [n] the
    iterator pair is not a range: the behaviour is undefined (libstdc++
    throws [std::length_error]), which is [None]. *)
Definition vector_prefix {A} (v : list A) (n : Z) : option (list A) :=
  if (n <? 0)%Z then None else Some (take (Z.to_nat n) v).

(** The comparators handed to [std::sort]. *)
Definition metricGreater (metric : string) (a b : CurrencyPair) : bool :=
  (getChangeByMetric b metric <? getChangeByMetric a metric)%float.

Definition metricLess (metric : string) (a b : CurrencyPair) : bool :=
  (getChangeByMetric a metric <? getChangeByMetric b metric)%float.

(** What [std::sort] requires of its comparator on the values it sorts: a
    strict weak ordering. *)
Record StrictWeakOn {A} (comp : A → A → bool) (v : list A) : Prop := {
  swo_irrefl x : x ∈ v → comp x x = false;
  swo_trans x y z : x ∈ v → y ∈ v → z ∈ v →
    comp x y = true → comp y z = true → comp x z = true;
  swo_equiv x y z : x ∈ v → y ∈ v → z ∈ v →
    comp x y = false → comp y x = false →
    comp y z = false → comp z y = false →
    comp x z = false ∧ comp z x = false
}.

(** What [std::sort] promises in return: the same elements, none ordered
    before an earlier one.  Nothing is said about equivalent elements. *)
Record StdSort {A} (sort : (A → A → bool) → list A → list A) : Prop := {
  sort_permutation comp v : StrictWeakOn comp v → sort comp v ≡ₚ v;
  sort_sorted comp v : StrictWeakOn comp v →
    StronglySorted (λ x y, comp y x = false) (sort comp v)
}.

Section Ranker.
(** [std::sort] is the C++ library's; the analyzer is read for any function
    in its place. *)
Variable std_sort : (CurrencyPair → CurrencyPair → bool) → list CurrencyPair → list CurrencyPair.

Definition getTopPerformers (a : CurrencyAnalyzer) (metric : string) (count : Z)
    : option (list CurrencyPair) :=
  let sortedPairs := std_sort (metricGreater metric) (currencyPairs a) in
  let resultCount := Z.min count (static_cast_int (Z.of_nat (length sortedPairs))) in
  vector_prefix sortedPairs resultCount.

Definition getWorstPerformers (a : CurrencyAnalyzer) (metric : string) (count : Z)
    : option (list CurrencyPair) :=
  let sortedPairs := std_sort (metricLess metric) (currencyPairs a) in
  let resultCount := Z.min count (static_cast_int (Z.of_nat (length sortedPairs))) in
  vector_prefix sortedPairs resultCount.

End Ranker.

(** Two functions that meet [std::sort]'s contract.  [insertion_sort] moves
    each element left past the strictly greater ones only, as libstdc++'s
    [std::sort] does on ranges of at most 16 elements; [reversing_sort]
    starts from the reversed range, so equivalent elements swap places. *)
Fixpoint sorted_insert {A} (comp : A → A → bool) (x : A) (v : list A) : list A :=
  match v with
  | [] => [x]
  | y :: v' => if comp x y then x :: v else y :: sorted_insert comp x v'
  end.

Definition insertion_sort {A} (comp : A → A → bool) (v : list A) : list A :=
  fold_left (λ sorted x, sorted_insert comp x sorted) v [].

Definition reversing_sort {A} (comp : A → A → bool) (v : list A) : list A :=
  insertion_sort comp (reverse v).

(** GCC's [std::sort] (libstdc++, bits/stl_algo.h), the library the
    repository's build script compiles against: introsort by median-of-three
    partitioning down to ranges of 16 elements, then insertion sort. *)
Module LibStdCxx.
Section Sort.
Context {A : Type} (comp : A → A → bool).

(** Iterators are positions in the vector; [comp_iter] is the comparison of
    the elements two iterators point to. *)

Definition comp_iter (v : list A) (i j : nat) : bool :=
  match v !! i, v !! j with
  | Some x, Some y => comp x y
  | _, _ => false
  end.

Definition iter_swap (v : list A) (i j : nat) : list A :=
  match v !! i, v !! j with
  | Some x, Some y => <[i := y]> (<[j := x]> v)
  | _, _ => v
  end.

Definition move_median_to_first (v : list A) (result a b c : nat) : list A :=
  if comp_iter v a b then
    if comp_iter v b c then iter_swap v result b
    else if comp_iter v a c then iter_swap v result c
    else iter_swap v result a
  else if comp_iter v a c then iter_swap v result a
  else if comp_iter v b c then iter_swap v result c
  else iter_swap v result b.

(** [while (comp(first, pivot)) ++first;] *)
Fixpoint advance (fuel : nat) (v : list A) (first pivot : nat) : nat :=
  match fuel with
  | O => first
  | S fuel' =>
      if comp_iter v first pivot then advance fuel' v (S first) pivot else first
  end.

(** [while (comp(pivot, last)) --last;] *)
Fixpoint retreat (fuel : nat) (v : list A) (pivot last : nat) : nat :=
  match fuel with
  | O => last
  | S fuel' =>
      if comp_iter v pivot last then retreat fuel' v pivot (last - 1) else last
  end.

(** The [while (true)] of [__unguarded_partition]: each round swaps a pair
    and moves [first] on, so the size of the vector bounds the rounds. *)
Fixpoint unguarded_partition (fuel : nat) (v : list A) (first last pivot : nat)
    : list A * nat :=
  match fuel with
  | O => (v, first)
  | S fuel' =>
      let first := advance (length v) v first pivot in
      let last := retreat (length v) v pivot (last - 1) in
      if first <? last then
        unguarded_partition fuel' (iter_swap v first last) (S first) last pivot
      else (v, first)
  end.

Definition unguarded_partition_pivot (v : list A) (first last : nat) : list A * nat :=
  let mid := first + (last - first) / 2 in
  let v := move_median_to_first v first (first + 1) mid (last - 1) in
  unguarded_partition (length v) v (first + 1) last first.

(** The loop of [__unguarded_linear_insert] after [val = *last]. *)
Fixpoint linear_insert_loop (fuel : nat) (val : A) (v : list A) (last : nat) : list A :=
  match fuel, last with
  | S fuel', S next =>
      match v !! next with
      | Some y =>
          if comp val y then linear_insert_loop fuel' val (<[last := y]> v) next
          else <[last := val]> v
      | None => <[last := val]> v
      end
  | _, _ => <[last := val]> v
  end.

Definition unguarded_linear_insert (v : list A) (last : nat) : list A :=
  match v !! last with
  | Some val => linear_insert_loop (length v) val v last
  | None => v
  end.

(** [val = *i; move_backward(first, i, i + 1); *first = val;] *)
Definition move_to_front (v : list A) (first i : nat) : list A :=
  match v !! i with
  | Some val => take first v ++ val :: take (i - first) (drop first v) ++ drop (S i) v
  | None => v
  end.

Definition insertion_sort (v : list A) (first last : nat) : list A :=
  foldl
    (λ v i, if comp_iter v i first then move_to_front v first i
            else unguarded_linear_insert v i)
    v (seq (first + 1) (last - (first + 1))).

Definition unguarded_insertion_sort (v : list A) (first last : nat) : list A :=
  foldl unguarded_linear_insert v (seq first (last - first)).

Definition S_threshold : nat := 16.

Definition final_insertion_sort (v : list A) (first last : nat) : list A :=
  if S_threshold <? last - first then
    unguarded_insertion_sort
      (insertion_sort v first (first + S_threshold)) (first + S_threshold) last
  else insertion_sort v first last.

(** [__introsort_loop]; every round and every nested call lowers the depth
    limit.  At limit 0 the library switches to heap sort
    ([__partial_sort]), which is not transcribed: [None]. *)
Fixpoint introsort_loop (depth_limit : nat) (v : list A) (first last : nat)
    : option (list A) :=
  if S_threshold <? last - first then
    match depth_limit with
    | O => None
    | S depth_limit' =>
        let '(v, cut) := unguarded_partition_pivot v first last in
        v ← introsort_loop depth_limit' v cut last;
        introsort_loop depth_limit' v first cut
    end
  else Some v.

(** [std::__sort]. *)
Definition sort (v : list A) : option (list A) :=
  match v with
  | [] => Some v
  | _ =>
      v' ← introsort_loop (Nat.log2 (length v) * 2) v 0 (length v);
      Some (final_insertion_sort v' 0 (length v))
  end.

End Sort.
End LibStdCxx.

(** [std_sort] as GCC provides it, on the ranges [LibStdCxx.sort] covers. *)
Definition gcc_sort {A} (comp : A → A → bool) (v : list A) : list A :=
  default v (LibStdCxx.sort comp v).

(** ** CurrencyPair: the other members

    The default constructor, the two setters that compute ([setPairCode],
    [setPrice]) and [toString]. *)

(** [CurrencyPair()]. *)
Definition CurrencyPair_default : CurrencyPair :=
  mkCurrencyPair "" "" "" 0%float 0%float 0%float 0%float 0%float 0%float 0%float "" "".

Definition setPairCode (p : CurrencyPair) (code : string) : CurrencyPair :=
  match StdString.find code "/" with
  | Some slashPos =>
      mkCurrencyPair code
        (StdString.substr code 0 (Some slashPos))
        (StdString.substr code (slashPos + 1) None)
        (price p) (dayChange p) (percentChange p) (weeklyChange p) (monthlyChange p)
        (ytdChange p) (yoyChange p) (group p) (timestamp p)
  | None =>
      mkCurrencyPair code (baseCurrency p) (quoteCurrency p)
        (price p) (dayChange p) (percentChange p) (weeklyChange p) (monthlyChange p)
        (ytdChange p) (yoyChange p) (group p) (timestamp p)
  end.

Definition setPrice (p : CurrencyPair) (newPrice : float) : CurrencyPair :=
  mkCurrencyPair (pairCode p) (baseCurrency p) (quoteCurrency p)
    newPrice (newPrice - price p)%float
    (percentChange p) (weeklyChange p) (monthlyChange p)
    (ytdChange p) (yoyChange p) (group p) (timestamp p).

Section PairText.
(** [fixed n x] is the text [ss << std::fixed << std::setprecision(n) << x]
    appends for a double: the C++ library's. *)
Variable fixed : nat → float → string.

(** [CurrencyPair::toString]. *)
Definition toString (p : CurrencyPair) : string :=
  let ss := pairCode p +:+ ": " +:+ fixed 4 (price p) in
  if negb (percentChange p =? 0)%float then
    ss +:+ " (" +:+ (if (0 <=? percentChange p)%float then "+" else "")
       +:+ fixed 2 (percentChange p) +:+ "%)"
  else ss.

End PairText.

(** ** CurrencyAnalyzer: the other members *)

(** *** loadFromJson and loadFromCsv

    The two differ in the reader they call.  [read] is the vector the reader
    returned; it is assigned to [currencyPairs] before it is tested, and an
    empty one ends the call before [calculateBaseRates] runs.  The result is
    the analyzer after the call and the value returned. *)
Definition loadFrom (a : CurrencyAnalyzer) (read : list CurrencyPair)
    : option (CurrencyAnalyzer * bool) :=
  let a := mkAnalyzer read (baseRates a) in
  match currencyPairs a with
  | [] => Some (a, false)
  | _ =>
      rates ← calculateBaseRates (currencyPairs a);
      Some (mkAnalyzer (currencyPairs a) rates, true)
  end.

(** *** getAvailableCurrencyPairs *)

(** [getAvailableCurrencyPairs]: one [push_back] per record. *)
Definition getAvailableCurrencyPairs (a : CurrencyAnalyzer) : list string :=
  fold_left (λ pairs pair, pairs ++ [pairCode pair]) (currencyPairs a) [].

(** *** detectSignificantMovements and identifyTradingOpportunities *)

(** [movementThreshold]: a private member with the initialiser 0.5 that no
    member function assigns. *)
Definition movementThreshold : float := 0.5.

(** The three tests of the two loops. *)
Definition significantMovement (pair : CurrencyPair) : bool :=
  (movementThreshold <? abs (percentChange pair))%float.

Definition highVolatility (pair : CurrencyPair) : bool :=
  (1 <? abs (percentChange pair))%float.

Definition potentialReversal (pair : CurrencyPair) : bool :=
  (percentChange pair * weeklyChange pair <? 0)%float &&
  (0.5 <? abs (percentChange pair))%float.

Section Reports.
(** The text the C++ library produces for a double: [fixed n x] is what
    [ss << std::fixed << std::setprecision(n) << x] appends, [to_string] is
    [std::to_string]. *)
Variable fixed : nat → float → string.
Variable to_string : float → string.

Definition movementLine (pair : CurrencyPair) : string :=
  pairCode pair +:+ ": "
  +:+ (if (0 <? percentChange pair)%float then "UP " else "DOWN ")
  +:+ fixed 2 (abs (percentChange pair)) +:+ "% "
  +:+ "to " +:+ fixed 4 (price pair).

Definition detectSignificantMovements (a : CurrencyAnalyzer) : list string :=
  fold_left
    (λ significantMovements pair,
       if significantMovement pair
       then significantMovements ++ [movementLine pair]
       else significantMovements)
    (currencyPairs a) [].

Definition volatilityLine (pair : CurrencyPair) : string :=
  "High Volatility: " +:+ pairCode pair
  +:+ " moved " +:+ fixed 2 (abs (percentChange pair)) +:+ "% today".

Definition reversalLine (pair : CurrencyPair) : string :=
  "Potential Reversal: " +:+ pairCode pair
  +:+ " is " +:+ (if (0 <? percentChange pair)%float then "up" else "down") +:+ " "
  +:+ fixed 2 (abs (percentChange pair)) +:+ "% today, but "
  +:+ (if (0 <? weeklyChange pair)%float then "up" else "down") +:+ " "
  +:+ fixed 2 (abs (weeklyChange pair)) +:+ "% this week".

Definition arbitrageLine (opp : string * float) : string :=
  "Arbitrage Opportunity: " +:+ opp.1 +:+ " (" +:+ to_string opp.2 +:+ "% potential)".

Definition identifyTradingOpportunities (a : CurrencyAnalyzer) : list string :=
  let opportunities :=
    fold_left
      (λ opportunities pair,
         let opportunities :=
           if highVolatility pair then opportunities ++ [volatilityLine pair]
           else opportunities in
         if potentialReversal pair then opportunities ++ [reversalLine pair]
         else opportunities)
      (currencyPairs a) [] in
  fold_left (λ opportunities opp, opportunities ++ [arbitrageLine opp])
    (findArbitrageOpportunities a) opportunities.

End Reports.

(** *** getHistoricalData *)

(** An [int] converted to [double]. *)
Definition double_of_int (z : Z) : float :=
  if (z <? 0)%Z then (- of_uint63 (Uint63.of_Z (- z)))%float
  else of_uint63 (Uint63.of_Z z).

(** [ss << std::setw(2) << std::setfill('0') << n] for an [int]: its decimal
    digits, a minus sign first when negative, filled on the left to two
    characters. *)
Definition setw2 (n : Z) : string :=
  let digits := NilZero.string_of_int (Z.to_int n) in
  match String.length digits with
  | 0 => "00" +:+ digits
  | 1 => "0" +:+ digits
  | _ => digits
  end.

Section History.
(** [rand()] is the C library's: [rand_factor i], [rand_hour i] and
    [rand_minute i] are the values its three calls of iteration [i]
    return. *)
Variables rand_factor rand_hour rand_minute : nat → Z.

(** [1.0 + ((rand() % 100 - 50) / 5000.0)]. *)
Definition randomFactor (r : Z) : float :=
  (1 + double_of_int (Z.rem r 100 - 50) / 5000)%float.

(** One iteration of the loop: the pair pushed. *)
Definition historyEntry (currentPrice : float) (i : nat) : string * float :=
  let historicalPrice := (currentPrice * randomFactor (rand_factor i))%float in
  let ss := "2025-03-" +:+ setw2 (7 - Z.of_nat i) +:+ " "
            +:+ setw2 (Z.rem (rand_hour i) 24) +:+ ":"
            +:+ setw2 (Z.rem (rand_minute i) 60) in
  (ss, historicalPrice).

Definition getHistoricalData (a : CurrencyAnalyzer) (currencyPair : string) (limit : Z)
    : list (string * float) :=
  let currentPrice := default 0%float (lookupDirect currencyPair (currencyPairs a)) in
  if (currentPrice =? 0)%float then []
  else historyEntry currentPrice <$> seq 0 (Z.to_nat limit).

End History.

(** *** The menu of main.cpp *)

(** The array [metrics] of [displayTopPerformers] and
    [displayWorstPerformers]. *)
Definition metrics : list string := ["Percent Change"; "Weekly"; "Monthly"; "YTD"; "YoY"].

(** [metrics[metricChoice-1]] after the range check that replaces a choice
    outside 1..5 by 1; [None] is an index outside the array. *)
Definition selectedMetric (metricChoice : Z) : option string :=
  let metricChoice :=
    if (metricChoice <? 1)%Z || (5 <? metricChoice)%Z then 1%Z else metricChoice in
  if (metricChoice - 1 <? 0)%Z then None else metrics !! Z.to_nat (metricChoice - 1).

Section Menu.
Variable std_sort : (CurrencyPair → CurrencyPair → bool) → list CurrencyPair → list CurrencyPair.

(** The records [displayTopPerformers] and [displayWorstPerformers] print
    for the numbers typed at their two prompts. *)
Definition displayTopPerformers (a : CurrencyAnalyzer) (metricChoice count : Z)
    : option (list CurrencyPair) :=
  selectedMetric ← selectedMetric metricChoice;
  getTopPerformers std_sort a selectedMetric count.

Definition displayWorstPerformers (a : CurrencyAnalyzer) (metricChoice count : Z)
    : option (list CurrencyPair) :=
  selectedMetric ← selectedMetric metricChoice;
  getWorstPerformers std_sort a selectedMetric count.

(** The records [displayAllRates] prints: the top performers by percent
    change, as many as there are pair codes; the [size_t] count is converted
    to the [int] parameter. *)
Definition displayAllRates (a : CurrencyAnalyzer) : option (list CurrencyPair) :=
  let pairs := getAvailableCurrencyPairs a in
  getTopPerformers std_sort a "Percent Change" (static_cast_int (Z.of_nat (length pairs))).

End Menu.

(** ** More of std::string and the C library, as the readers use them *)

Module StdText.

(** The characters written with an escape in the sources. *)
Definition dquote : ascii := "034".
Definition tab : ascii := "009".
Definition newline : ascii := "010".

(** [s.find(c, pos)] for a character, or a string of one character. *)
Definition find_from (s : string) (c : ascii) (pos : nat) : option nat :=
  (λ i, pos + i) <$> StdString.find (StdString.skip pos s) c.

(** [s.find(t)] for a string [t]: the first position at which [t] occurs. *)
Definition find_str (s t : string) : option nat := String.index 0 t s.

(** [s.rfind(c)]: the last position of [c]. *)
Fixpoint rfind (s : string) (c : ascii) : option nat :=
  match s with
  | EmptyString => None
  | String a s' =>
      match rfind s' c with
      | Some i => Some (S i)
      | None => if Ascii.eqb a c then Some 0 else None
      end
  end.

Fixpoint mem (c : ascii) (chars : string) : bool :=
  match chars with
  | EmptyString => false
  | String a chars' => Ascii.eqb a c || mem c chars'
  end.

(** [s.find_first_of(chars, pos)]. *)
Fixpoint first_of (chars s : string) : option nat :=
  match s with
  | EmptyString => None
  | String a s' => if mem a chars then Some 0 else S <$> first_of chars s'
  end.

Definition find_first_of (s chars : string) (pos : nat) : option nat :=
  (λ i, pos + i) <$> first_of chars (StdString.skip pos s).

(** [s.find_first_not_of(chars)] and [s.find_last_not_of(chars)]. *)
Fixpoint find_first_not_of (s chars : string) : option nat :=
  match s with
  | EmptyString => None
  | String a s' => if mem a chars then S <$> find_first_not_of s' chars else Some 0
  end.

Fixpoint find_last_not_of (s chars : string) : option nat :=
  match s with
  | EmptyString => None
  | String a s' =>
      match find_last_not_of s' chars with
      | Some i => Some (S i)
      | None => if mem a chars then None else Some 0
      end
  end.

(** [std::isspace] in the "C" locale.  Its argument must be representable
    as an [unsigned char]; a byte above 127 held in a [char] that is signed
    is not, and the behaviour is undefined: [None]. *)
Definition isspace (c : ascii) : option bool :=
  let n := nat_of_ascii c in
  if 128 <=? n then None
  else Some ((n =? 32) || ((9 <=? n) && (n <=? 13))).

(** [std::getline(stream, line, delim)] called until it fails: the text
    between delimiters; what follows the last delimiter is a line only when
    it is not empty. *)
Fixpoint getlines_from (delim : ascii) (s line : string) : list string :=
  match s with
  | EmptyString => match line with EmptyString => [] | _ => [line] end
  | String a s' =>
      if Ascii.eqb a delim then line :: getlines_from delim s' ""
      else getlines_from delim s' (line +:+ String a "")
  end.

Definition getlines (delim : ascii) (s : string) : list string :=
  getlines_from delim s "".

End StdText.

(** ** DataReader *)

Module DataReader.
Import StdText.

(** The helper [getJsonStringValue].  [None] is undefined behaviour (see
    [isspace]). *)
Fixpoint skip_spaces (rest : string) (valueStart : nat) : option nat :=
  match rest with
  | EmptyString => Some valueStart
  | String a rest' =>
      match isspace a with
      | Some true => skip_spaces rest' (S valueStart)
      | Some false => Some valueStart
      | None => None
      end
  end.

Definition getJsonStringValue (json key : string) : option string :=
  let searchKey := String dquote key +:+ String dquote "" in
  match find_str json searchKey with
  | None => Some ""
  | Some keyPos =>
      (* [json.find(":", keyPos) + 1]: [npos + 1] is 0 *)
      let valueStart :=
        match find_from json ":" keyPos with Some colon => colon + 1 | None => 0 end in
      valueStart ← skip_spaces (StdString.skip valueStart json) valueStart;
      if String.length json <=? valueStart then Some ""
      else if bool_decide (String.get valueStart json = Some dquote) then
        let valueStart := valueStart + 1 in
        let valueEnd := find_from json dquote valueStart in
        Some (StdString.substr json valueStart ((λ e, e - valueStart) <$> valueEnd))
      else
        let valueEnd := find_first_of json ",}" valueStart in
        Some (StdString.substr json valueStart ((λ e, e - valueStart) <$> valueEnd))
  end.

Section Reader.
(** [std::stod] is the C++ library's; [None] is one of its exceptions
    ([std::invalid_argument], [std::out_of_range]). *)
Variable stod : string → option float.

Definition getJsonDoubleValue (json key : string) (defaultValue : float) : option float :=
  strValue ← getJsonStringValue json key;
  match strValue with
  | EmptyString => Some defaultValue
  | _ => Some (default defaultValue (stod strValue))
  end.

Definition parseCurrencyPairFromJson (jsonString : string) : option CurrencyPair :=
  pairCode ← getJsonStringValue jsonString "Currency Pair";
  price ← getJsonDoubleValue jsonString "Price" 0;
  dayChange ← getJsonDoubleValue jsonString "Day Change" 0;
  percentChange ← getJsonDoubleValue jsonString "Percent Change" 0;
  weeklyChange ← getJsonDoubleValue jsonString "Weekly" 0;
  monthlyChange ← getJsonDoubleValue jsonString "Monthly" 0;
  ytdChange ← getJsonDoubleValue jsonString "YTD" 0;
  yoyChange ← getJsonDoubleValue jsonString "YoY" 0;
  group ← getJsonStringValue jsonString "Group";
  timestamp ← getJsonStringValue jsonString "Timestamp";
  Some (CurrencyPair_full pairCode price dayChange percentChange
          weeklyChange monthlyChange ytdChange yoyChange group timestamp).

(** The [while (pos < arrayContent.length())] loop of [readFromJson].  Each
    round moves [pos] forward; [fuel] bounds the rounds, and [None] is fuel
    that did not suffice or undefined behaviour in a parse. *)
Fixpoint readObjects (fuel : nat) (arrayContent : string) (pos : nat)
    (pairs : list CurrencyPair) : option (list CurrencyPair) :=
  match fuel with
  | O => None
  | S fuel' =>
      if String.length arrayContent <=? pos then Some pairs else
      match find_from arrayContent "{" pos with
      | None => Some pairs
      | Some objectStart =>
          match find_from arrayContent "}" objectStart with
          | None => Some pairs
          | Some objectEnd =>
              let objectJson :=
                StdString.substr arrayContent objectStart
                  (Some (objectEnd - objectStart + 1)) in
              pair ← parseCurrencyPairFromJson objectJson;
              readObjects fuel' arrayContent (objectEnd + 1) (pairs ++ [pair])
          end
      end
  end.

(** [readFromJson]: [file] is the text at the path, [None] when nothing is
    there ([fileExists] fails); a file that cannot be opened reads as the
    empty text. *)
Definition readFromJson (file : option string) : option (list CurrencyPair) :=
  match file with
  | None => Some []
  | Some json =>
      match StdString.find json "[", rfind json "]" with
      | Some arrayStart, Some arrayEnd =>
          (* [arrayEnd - arrayStart - 1] wraps around when the last ']' is
             before the first '[', and the rest of the text is taken *)
          let arrayContent :=
            StdString.substr json (arrayStart + 1)
              (if arrayEnd <? arrayStart then None
               else Some (arrayEnd - arrayStart - 1)) in
          readObjects (S (String.length arrayContent)) arrayContent 0 []
      | _, _ => Some []
      end
  end.

(** What the two CSV loops do to a cell: quotes around it are removed, then
    blanks and tabs at its ends. *)
Definition blanks : string := String " " (String tab "").

Definition cleanCell (cell : string) : string :=
  let cell :=
    match cell with
    | EmptyString => cell
    | String front _ =>
        if Ascii.eqb front dquote
           && bool_decide (String.get (String.length cell - 1) cell = Some dquote)
        then
          (* [cell.length() - 2] wraps around for a cell of one character *)
          StdString.substr cell 1
            (if String.length cell <? 2 then None else Some (String.length cell - 2))
        else cell
    end in
  let cell :=
    match find_first_not_of cell blanks with
    | Some n => StdString.skip n cell
    | None => ""
    end in
  match find_last_not_of cell blanks with
  | Some n => StdString.keep (n + 1) cell
  | None => ""
  end.

(** The first half of [parseCurrencyPairFromCsv]: the cells of the line,
    padded with empty ones up to the number of headers, entered under their
    headers into [fieldMap]. *)
Definition csvFieldMap (csvLine : string) (headers : list string) : gmap string string :=
  let values := cleanCell <$> getlines "," csvLine in
  let values := values ++ replicate (length headers - length values) "" in
  fold_left (λ fieldMap '(header, value), <[header := value]> fieldMap)
    (zip headers values) ∅.

Definition parseCurrencyPairFromCsv (csvLine : string) (headers : list string)
    : CurrencyPair :=
  let fieldMap := csvFieldMap csvLine headers in
  let pairCode := default "" (fieldMap !! "Currency Pair") in
  let parseDouble (key : string) (defaultValue : float) : float :=
    match fieldMap !! key with
    | None | Some EmptyString => defaultValue
    | Some value => default defaultValue (stod value)
    end in
  let price := parseDouble "Price" 0%float in
  let dayChange := parseDouble "Day Change" 0%float in
  let percentChange := parseDouble "Percent Change" 0%float in
  let weeklyChange := parseDouble "Weekly" 0%float in
  let monthlyChange := parseDouble "Monthly" 0%float in
  let ytdChange := parseDouble "YTD" 0%float in
  let yoyChange := parseDouble "YoY" 0%float in
  let group := default "" (fieldMap !! "Group") in
  let timestamp := default "" (fieldMap !! "Timestamp") in
  CurrencyPair_full pairCode price dayChange percentChange
    weeklyChange monthlyChange ytdChange yoyChange group timestamp.

(** [readFromCsv]: [file] as for [readFromJson]. *)
Definition readFromCsv (file : option string) : list CurrencyPair :=
  match file with
  | None => []
  | Some text =>
      match getlines newline text with
      | [] => []
      | headerLine :: lines =>
          let headers := cleanCell <$> getlines "," headerLine in
          (λ line, parseCurrencyPairFromCsv line headers) <$> lines
      end
  end.

End Reader.

(** [extractCurrencies]: the loop of [getAvailableCurrencies] over a vector
    handed in. *)
Definition extractCurrencies (pairs : list CurrencyPair) : list string :=
  fold_left
    (λ currencies pair,
       set_insert (quoteCurrency pair) (set_insert (baseCurrency pair) currencies))
    pairs [].

End DataReader.

(** ** Vocabulary of the statements *)

(** The distinct currencies the quotes mention. *)
Definition currencySet (pairs : list CurrencyPair) : gset string :=
  list_to_set (pairs ≫= λ pair, [baseCurrency pair; quoteCurrency pair]).

(** The key the first loop of [calculateBaseRates] writes for a pair. *)
Definition seedTarget (pair : CurrencyPair) : option string :=
  if String.eqb (baseCurrency pair) "USD" then Some (quoteCurrency pair)
  else if String.eqb (quoteCurrency pair) "USD" then Some (baseCurrency pair)
  else None.

(** No record's metric value is a NaN: all of them can be compared. *)
Definition metricComparable (metric : string) (pairs : list CurrencyPair) : Prop :=
  Forall (λ p, is_nan (getChangeByMetric p metric) = false) pairs.

(** Two records tie: neither metric value is below the other. *)
Definition metricTie (metric : string) (x y : CurrencyPair) : bool :=
  negb (getChangeByMetric x metric <? getChangeByMetric y metric)%float &&
  negb (getChangeByMetric y metric <? getChangeByMetric x metric)%float.

(** No two records of the collection tie. *)
Fixpoint metricDistinct (metric : string) (pairs : list CurrencyPair) : bool :=
  match pairs with
  | [] => true
  | x :: rest =>
      forallb (λ y, negb (metricTie metric x y)) rest && metricDistinct metric rest
  end.

(** The pair code is base, one '/', quote: what the parsing constructors
    build from a code with exactly one separator. *)
Definition singleSeparator {D} (p : CurrencyPairOf D) : Prop :=
  pairCode p = baseCurrency p +:+ "/" +:+ quoteCurrency p ∧
  StdString.find (baseCurrency p) "/" = None ∧
  StdString.find (quoteCurrency p) "/" = None.

(** [x] is a NaN, read on the specification of doubles. *)
Definition is_NaN (x : float) : Prop := Prim2SF x = S754_nan.

(** ** Doubles as real numbers

    The value of a double, and what the specification of the primitive
    operations says about a result whose exact value is a real number. *)

(** The power of two with an integer exponent. *)
Definition bpow (e : Z) : R := powerRZ 2 e.

(** The real number a finite double stands for; 0 for the others. *)
Definition SF2R (x : spec_float) : R :=
  match x with
  | S754_finite s m e => IZR (cond_Zopp s (Z.pos m)) * bpow e
  | _ => 0
  end.

(** The value of a double of the program. *)
Definition F2R (x : float) : R := SF2R (Prim2SF x).

(** Neither an infinity nor a NaN. *)
Definition SFfinite (x : spec_float) : bool :=
  match x with
  | S754_zero _ | S754_finite _ _ _ => true
  | _ => false
  end.

(** The position of [y] between the integers [m] and [m + 1], as the
    rounding functions of the specification record it. *)
Definition inbetween (m : Z) (l : location) (y : R) : Prop :=
  match l with
  | loc_Exact => y = IZR m
  | loc_Inexact Lt => (IZR m < y < IZR m + / 2)%R
  | loc_Inexact Eq => y = (IZR m + / 2)%R
  | loc_Inexact Gt => (IZR m + / 2 < y < IZR m + 1)%R
  end.

(** The unit roundoff of binary64 and half its smallest positive number. *)
Definition u64 : R := bpow (-53).
Definition eta64 : R := bpow (-1075).

(** [r] is what the operations of the specification return for a result
    whose exact value is [z]: a finite double within the rounding error of
    [z] and on the same side of zero, or the infinity of its sign when [z]
    is out of range. *)
Definition rounds_to (z : R) (r : spec_float) : Prop :=
  (SFfinite r = true ∧
   (Rabs (SF2R r - z) <= u64 * Rabs z + eta64)%R ∧
   ((bpow (-1022) <= Rabs z)%R → (Rabs (SF2R r - z) <= u64 * Rabs z)%R) ∧
   ((0 <= z)%R → (0 <= SF2R r)%R) ∧ ((z <= 0)%R → (SF2R r <= 0)%R)) ∨
  (r = S754_infinity false ∧ (bpow 1023 <= z)%R) ∨
  (r = S754_infinity true ∧ (z <= - bpow 1023)%R).

(** [a] is [b] up to the relative error [e]. *)
Definition near (e a b : R) : Prop := (Rabs (a - b) <= e * Rabs b)%R.

(** ** Collections used as examples *)

(** USD/INR = 83.0, EUR/USD = 1.10, USD/JPY = 150.0. *)
Definition specExample : list CurrencyPair :=
  [CurrencyPair_code "USD/INR" 83; CurrencyPair_code "EUR/USD" 1.10;
   CurrencyPair_code "USD/JPY" 150].

(** The loop of the spec's example: A/B = 2.0, B/C = 3.0, C/A = 0.20. *)
Definition arbitrageExample : CurrencyAnalyzer :=
  mkAnalyzer
    [CurrencyPair_code "A/B" 2; CurrencyPair_code "B/C" 3; CurrencyPair_code "C/A" 0.2]
    {["USD" := 1%float]}.

#[local] Open Scope float_scope.

(** Three quotes with different weekly changes, and two that tie. *)
Definition rankExample : CurrencyAnalyzer :=
  mkAnalyzer
    [CurrencyPair_full "USD/INR" 83 0 0.1 1.2 0 0 0 "Asia" "";
     CurrencyPair_full "EUR/USD" 1.10 0 0.2 (-0.4) 0 0 0 "Major" "";
     CurrencyPair_full "USD/JPY" 150 0 0.3 0.7 0 0 0 "Asia" ""]
    {["USD" := 1; "INR" := 83; "EUR" := 1 / 1.10; "JPY" := 150]}.

Definition tiedFirst : CurrencyPair :=
  CurrencyPair_full "EUR/USD" 1.10 0 0.2 1.5 0 0 0 "Major" "".

Definition tiedSecond : CurrencyPair :=
  CurrencyPair_full "GBP/USD" 1.30 0 0.3 1.5 0 0 0 "Major" "".

(** Seventeen quotes against USD after a week without any change. *)
Definition flatWeek : list CurrencyPair :=
  (λ '(currency, rate), CurrencyPair_full ("USD/" +:+ currency) rate 0 0 0 0 0 0 "" "")
  <$> [("AED", 3.67); ("AUD", 1.52); ("BRL", 5.05); ("CAD", 1.36); ("CHF", 0.88);
       ("CNY", 7.24); ("DKK", 6.87); ("EUR", 0.92); ("GBP", 0.79); ("HKD", 7.82);
       ("INR", 83); ("JPY", 150); ("KRW", 1330); ("MXN", 17.1); ("NOK", 10.6);
       ("NZD", 1.64); ("SEK", 10.4)].

Definition tieExample : CurrencyAnalyzer :=
  mkAnalyzer [tiedFirst; tiedSecond]
    {["USD" := 1; "EUR" := 1 / 1.10; "GBP" := 1 / 1.30]}.

#[local] Close Scope float_scope.

(** ** More vocabulary and examples *)

(** The order of the elements of a [std::set<std::string>]: [std::less],
    which compares the bytes as unsigned. *)
Definition string_lt (x y : string) : Prop := String.compare x y = Lt.

(** Two currencies are linked when a quote of the collection has one as its
    base and the other as its quote currency. *)
Definition linked (pairs : list CurrencyPair) (x y : string) : Prop :=
  ∃ pair, pair ∈ pairs ∧
    ((baseCurrency pair = x ∧ quoteCurrency pair = y) ∨
     (baseCurrency pair = y ∧ quoteCurrency pair = x)).

(** A currency that a chain of quotes connects to USD. *)
Definition reachable (pairs : list CurrencyPair) (c : string) : Prop :=
  rtc (linked pairs) "USD" c.

(** The quote that accounts for the value [v] under the key [c] of a table:
    a USD quote read by the first loop, or a quote that carried the rate of
    its other currency over to [c]. *)
Definition justified (pairs : list CurrencyPair) (rates : gmap string float)
    (c : string) (v : float) : Prop :=
  (c = "USD" ∧ v = 1%float) ∨
  ∃ pair, pair ∈ pairs ∧
    ((baseCurrency pair = "USD" ∧ quoteCurrency pair = c ∧ v = price pair) ∨
     (quoteCurrency pair = "USD" ∧ baseCurrency pair = c ∧ v = (1 / price pair)%float) ∨
     (quoteCurrency pair = c ∧
      ∃ b, rates !! baseCurrency pair = Some b ∧ v = (b * price pair)%float) ∨
     (baseCurrency pair = c ∧
      ∃ q, rates !! quoteCurrency pair = Some q ∧ v = (q / price pair)%float)).

(** Every character of the text is white space for [isspace]. *)
Fixpoint allSpaces (ws : string) : bool :=
  match ws with
  | EmptyString => true
  | String a ws' =>
      match StdText.isspace a with
      | Some true => allSpaces ws'
      | _ => false
      end
  end.

(** The ten keys the JSON reader looks for. *)
Definition jsonKeys : list string :=
  ["Currency Pair"; "Price"; "Day Change"; "Percent Change"; "Weekly"; "Monthly";
   "YTD"; "YoY"; "Group"; "Timestamp"].

(** A key between double quotes, as it is searched for. *)
Definition quoted (key : string) : string :=
  String StdText.dquote key +:+ String StdText.dquote "".

(** The text of an array of flat objects: before each object a separator,
    then '{', the body of the object and '}'; after the last one a
    trailer. *)
Fixpoint arrayText (objects : list (string * string)) (trailer : string) : string :=
  match objects with
  | [] => trailer
  | (separator, body) :: objects' =>
      separator +:+ "{" +:+ body +:+ "}" +:+ arrayText objects' trailer
  end.

(** A [std::stod] for the examples: it knows three numerals and throws on
    every other text. *)
Definition stodExample (text : string) : option float :=
  if String.eqb text "83.0" then Some 83%float
  else if String.eqb text "1.10" then Some 1.10%float
  else if String.eqb text "0.5" then Some 0.5%float
  else None.

(** An object as the collector script writes it, and a file with two. *)
Definition jsonExample : string :=
  "{" +:+ quoted "Currency Pair" +:+ ": " +:+ quoted "USD/INR" +:+ ", "
  +:+ quoted "Price" +:+ ": 83.0, " +:+ quoted "Group" +:+ ": " +:+ quoted "Asia" +:+ "}".

Definition jsonFileExample : string :=
  "[" +:+ jsonExample +:+ ", {" +:+ quoted "Currency Pair" +:+ ": " +:+ quoted "EUR/USD"
  +:+ ", " +:+ quoted "Price" +:+ ": 1.10}" +:+ "]".

(** * Facts about doubles

    Comparison and NaN propagation, from the specification of the
    primitive operations. *)

Ltac sf_cmp :=
  repeat match goal with
  | |- context [Z.compare ?a ?b] => destruct (Z.compare_spec a b)
  | H : context [Z.compare ?a ?b] |- _ => destruct (Z.compare_spec a b)
  | |- context [Pos.compare_cont Eq ?a ?b] =>
      change (Pos.compare_cont Eq a b) with (Pos.compare a b);
      destruct (Pos.compare_spec a b)
  | H : context [Pos.compare_cont Eq ?a ?b] |- _ =>
      change (Pos.compare_cont Eq a b) with (Pos.compare a b) in H;
      destruct (Pos.compare_spec a b)
  end; cbn in *; try discriminate; try reflexivity; try lia.

Lemma SFltb_irrefl x : SFltb x x = false.
Proof.
  unfold SFltb, SFcompare. destruct x as [[]|[]| |[] m e]; try reflexivity; sf_cmp.
Qed.

Lemma SFltb_trans x y z : SFltb x y = true → SFltb y z = true → SFltb x z = true.
Proof.
  unfold SFltb, SFcompare.
  destruct x as [[]|[]| |[] mx ex], y as [[]|[]| |[] my ey], z as [[]|[]| |[] mz ez];
    intros H1 H2; try discriminate; try reflexivity; sf_cmp.
Qed.

Lemma SFltb_incomparable_trans x y z :
  x ≠ S754_nan → y ≠ S754_nan → z ≠ S754_nan →
  SFltb x y = false → SFltb y x = false →
  SFltb y z = false → SFltb z y = false →
  SFltb x z = false ∧ SFltb z x = false.
Proof.
  unfold SFltb, SFcompare.
  destruct x as [[]|[]| |[] mx ex], y as [[]|[]| |[] my ey], z as [[]|[]| |[] mz ez];
    intros Hx Hy Hz H1 H2 H3 H4; try discriminate; try done; split; sf_cmp.
Qed.

Lemma ltb_irrefl x : (x <? x)%float = false.
Proof. rewrite ltb_spec. apply SFltb_irrefl. Qed.

Lemma ltb_trans x y z :
  (x <? y)%float = true → (y <? z)%float = true → (x <? z)%float = true.
Proof. rewrite !ltb_spec. apply SFltb_trans. Qed.

Lemma ltb_incomparable_trans x y z :
  ¬ is_NaN x → ¬ is_NaN y → ¬ is_NaN z →
  (x <? y)%float = false → (y <? x)%float = false →
  (y <? z)%float = false → (z <? y)%float = false →
  (x <? z)%float = false ∧ (z <? x)%float = false.
Proof. rewrite !ltb_spec. apply SFltb_incomparable_trans. Qed.

Lemma is_nan_false x : is_nan x = false → ¬ is_NaN x.
Proof.
  unfold is_nan, is_NaN. rewrite FloatAxioms.eqb_spec. intros Heq Hnan.
  rewrite Hnan in Heq. discriminate.
Qed.







(** ** A double divided by itself *)

Lemma SFdiv_self s m e :
  SF64div (S754_finite s m e) (S754_finite s m e)
  = S754_finite false 4503599627370496 (-52).
Proof.
  unfold SF64div, SFdiv, SFdiv_core_binary.
  rewrite !Z.sub_diag, xorb_nilpotent.
  change (IntDef.Z.min (fexp prec emax 0) 0) with (-53)%Z.
  change (0 - -53)%Z with 53%Z. cbv iota.
  rewrite Z.shiftl_mul_pow2 by lia.
  destruct (IntDef.Z.div_eucl (Z.pos m * 2 ^ 53) (Z.pos m)) as [q r] eqn:Hdiv.
  assert (Z.pos m * 2 ^ 53 / Z.pos m = 2 ^ 53)%Z as Hq
    by (rewrite Z.mul_comm; apply Z.div_mul; lia).
  assert ((Z.pos m * 2 ^ 53) mod Z.pos m = 0)%Z as Hr
    by (rewrite Z.mul_comm; apply Z.mod_mul; lia).
  unfold Z.div, Z.modulo in Hq, Hr. rewrite Hdiv in Hq, Hr. subst q r.
  assert (new_location (Z.pos m) 0 = loc_Exact) as ->.
  { unfold new_location. by destruct (Z.even (Z.pos m)). }
  by vm_compute.
Qed.

(** The quotient is exactly 1.0 for a finite non-zero double ... *)
Lemma div_self x :
  is_finite x = true → is_zero x = false → (x / x)%float = 1%float.
Proof.
  unfold is_finite, is_nan, is_infinity, is_zero.
  rewrite !FloatAxioms.eqb_spec, abs_spec.
  change (Prim2SF infinity) with (S754_infinity false).
  change (Prim2SF zero) with (S754_zero false).
  intros Hfinite Hzero. apply Prim2SF_inj. rewrite div_spec.
  destruct (Prim2SF x) as [sz|[]| |s m e]; try discriminate.
  rewrite SFdiv_self. by vm_compute.
Qed.

(** ... and a NaN for every other one. *)
Lemma div_self_nan x :
  is_finite x = false ∨ is_zero x = true → is_nan (x / x) = true.
Proof.
  unfold is_finite, is_nan, is_infinity, is_zero.
  rewrite !FloatAxioms.eqb_spec, abs_spec, div_spec.
  change (Prim2SF infinity) with (S754_infinity false).
  change (Prim2SF zero) with (S754_zero false).
  destruct (Prim2SF x) as [sz|[]| |s m e]; try reflexivity.
  assert (SFeqb (S754_finite s m e) (S754_finite s m e) = true) as ->.
  { unfold SFeqb, SFcompare. destruct s; sf_cmp. }
  destruct s; intros [Hx|Hx]; vm_compute in Hx; discriminate.
Qed.

(** * Doubles and real numbers

    The operations of binary64 against exact arithmetic: what a result is
    when its exact value is known, from the specification of the primitive
    operations. *)

Lemma SFeqb_refl_finite s m e : SFeqb (S754_finite s m e) (S754_finite s m e) = true.
Proof. unfold SFeqb, SFcompare. destruct s; sf_cmp. Qed.

Lemma is_nan_SF x :
  is_nan x = match Prim2SF x with S754_nan => true | _ => false end.
Proof.
  unfold is_nan. rewrite FloatAxioms.eqb_spec.
  destruct (Prim2SF x) as [s|s| |s m e]; try reflexivity; try (by destruct s).
  by rewrite SFeqb_refl_finite.
Qed.

Lemma is_finite_SF x :
  is_finite x = match Prim2SF x with
                | S754_zero _ | S754_finite _ _ _ => true
                | _ => false
                end.
Proof.
  unfold is_finite, is_infinity. rewrite is_nan_SF, FloatAxioms.eqb_spec, abs_spec.
  change (Prim2SF infinity) with (S754_infinity false).
  destruct (Prim2SF x) as [s|s| |s m e]; try reflexivity.
Qed.

(** ** Powers of two, digits and rounding *)

Section FloatReal.
Local Open Scope R_scope.

Lemma bpow_pos e : 0 < bpow e.
Proof. apply powerRZ_lt. lra. Qed.

Lemma bpow_add a b : bpow (a + b) = bpow a * bpow b.
Proof. apply powerRZ_add. lra. Qed.

Lemma bpow_0 : bpow 0 = 1.
Proof. reflexivity. Qed.

Lemma bpow_1 : bpow 1 = 2.
Proof. unfold bpow. simpl. lra. Qed.

Lemma bpow_opp e : bpow (- e) = / bpow e.
Proof. apply powerRZ_neg'. Qed.

Lemma bpow_sub a b : bpow (a - b) = bpow a / bpow b.
Proof. unfold Z.sub. by rewrite bpow_add, bpow_opp. Qed.

Lemma bpow_succ e : bpow (e + 1) = 2 * bpow e.
Proof. rewrite bpow_add, bpow_1. lra. Qed.

Lemma bpow_IZR (n : Z) : (0 ≤ n)%Z → bpow n = IZR (2 ^ n).
Proof.
  intros Hn. unfold bpow. rewrite <-(Z2Nat.id n Hn) at 1.
  rewrite <-pow_powerRZ. rewrite pow_IZR. by rewrite Z2Nat.id.
Qed.

Lemma bpow_le a b : (a ≤ b)%Z → bpow a <= bpow b.
Proof.
  intros Hab. replace b with (a + (b - a))%Z by lia.
  rewrite bpow_add, (bpow_IZR (b - a)) by lia.
  assert (1 <= IZR (2 ^ (b - a))).
  { apply IZR_le. pose proof (Z.pow_pos_nonneg 2 (b - a)). lia. }
  pose proof (bpow_pos a). generalize dependent (IZR (2 ^ (b - a))). intros; nra.
Qed.

Lemma bpow_lt a b : (a < b)%Z → bpow a < bpow b.
Proof.
  intros Hab. replace b with (a + (b - a))%Z by lia.
  rewrite bpow_add, (bpow_IZR (b - a)) by lia.
  assert (2 <= IZR (2 ^ (b - a))).
  { apply IZR_le. change 2%Z with (2 ^ 1)%Z at 1. apply Z.pow_le_mono_r; lia. }
  pose proof (bpow_pos a). generalize dependent (IZR (2 ^ (b - a))). intros; nra.
Qed.

Lemma bpow_lt_inv a b : bpow a < bpow b → (a < b)%Z.
Proof.
  intros Hab. destruct (Z.lt_ge_cases a b) as [|Hge]; [done|].
  apply bpow_le in Hge. lra.
Qed.


Lemma Rabs_le_inv x a : Rabs x <= a → - a <= x <= a.
Proof. unfold Rabs. destruct (Rcase_abs x); lra. Qed.

Lemma bpow_m1 : bpow (-1) = / 2.
Proof. unfold bpow. simpl. lra. Qed.

Lemma IZR_xO p : IZR (Z.pos p~0) = 2 * IZR (Z.pos p).
Proof. by rewrite Pos2Z.inj_xO, mult_IZR. Qed.

Lemma IZR_xI p : IZR (Z.pos p~1) = 2 * IZR (Z.pos p) + 1.
Proof. by rewrite Pos2Z.inj_xI, plus_IZR, mult_IZR. Qed.

(** *** The number of binary digits *)

Lemma digits2_pos_size m : digits2_pos m = Pos.size m.
Proof. induction m; cbn; congruence. Qed.

Lemma Zdigits2_bounds m :
  (0 < m)%Z → (2 ^ (Zdigits2 m - 1) ≤ m < 2 ^ Zdigits2 m)%Z.
Proof.
  destruct m as [|m|m]; try lia. intros _. cbn [Zdigits2].
  rewrite digits2_pos_size.
  pose proof (Pos.size_gt m) as Hgt. pose proof (Pos.size_le m) as Hle.
  apply Pos2Z.pos_lt_pos in Hgt. apply Pos2Z.pos_le_pos in Hle.
  rewrite Pos2Z.inj_pow in Hgt, Hle. rewrite (Pos2Z.inj_xO m) in Hle.
  split; [|done].
  replace (2 ^ Z.pos (Pos.size m))%Z with (2 * 2 ^ (Z.pos (Pos.size m) - 1))%Z in Hle; [lia|].
  rewrite <-Z.pow_succ_r by lia. f_equal. lia.
Qed.

Lemma Zdigits2_nonneg m : (0 ≤ Zdigits2 m)%Z.
Proof. destruct m; cbn; lia. Qed.

Lemma Zdigits2_le m k : (0 ≤ k)%Z → (0 ≤ m < 2 ^ k)%Z → (Zdigits2 m ≤ k)%Z.
Proof.
  intros Hk [Hm Hlt]. destruct (Z.eq_dec m 0%Z) as [->|Hne]; [done|].
  pose proof (Zdigits2_bounds m ltac:(lia)) as [Hlo _].
  destruct (Z.le_gt_cases (Zdigits2 m) k) as [|Hgt]; [done|].
  assert (2 ^ k ≤ 2 ^ (Zdigits2 m - 1))%Z by (apply Z.pow_le_mono_r; lia). lia.
Qed.

Lemma Zdigits2_ge m k : (0 ≤ k)%Z → (2 ^ k ≤ m)%Z → (k + 1 ≤ Zdigits2 m)%Z.
Proof.
  intros Hk Hle. assert (0 < m)%Z as Hm by (pose proof (Z.pow_pos_nonneg 2 k); lia).
  pose proof (Zdigits2_bounds m Hm) as [_ Hhi].
  destruct (Z.le_gt_cases (k + 1) (Zdigits2 m)) as [|Hgt]; [done|].
  assert (2 ^ Zdigits2 m ≤ 2 ^ k)%Z by (apply Z.pow_le_mono_r; lia). lia.
Qed.

Lemma Zdigits2_bpow m :
  (0 < m)%Z → bpow (Zdigits2 m - 1) <= IZR m ∧ IZR m + 1 <= bpow (Zdigits2 m).
Proof.
  intros Hm. pose proof (Zdigits2_bounds m Hm) as [Hlo Hhi].
  pose proof (Zdigits2_ge m 0%Z ltac:(lia) ltac:(cbn; lia)).
  rewrite !bpow_IZR by lia. rewrite <-plus_IZR. split; apply IZR_le; lia.
Qed.

Lemma fexp_eq e : fexp prec emax e = Z.max (e - 53) (-1074).
Proof. reflexivity. Qed.

(** *** Shifting to the right *)

Lemma inbetween_bounds m l y : inbetween m l y → IZR m <= y < IZR m + 1.
Proof. destruct l as [|[]]; cbn; lra. Qed.

Lemma shr_1_inbetween mrs y :
  (0 ≤ shr_m mrs)%Z → inbetween (shr_m mrs) (loc_of_shr_record mrs) y →
  (0 ≤ shr_m (shr_1 mrs))%Z ∧
  inbetween (shr_m (shr_1 mrs)) (loc_of_shr_record (shr_1 mrs)) (y / 2).
Proof.
  destruct mrs as [m r s]. cbn [shr_m]. intros Hm Hy.
  destruct m as [|[p|p|]|p]; [| | | |lia]; destruct r, s;
    cbn [shr_1 shr_m loc_of_shr_record orb inbetween] in *;
    try rewrite (IZR_xO p) in Hy; try rewrite (IZR_xI p) in Hy; (split; [lia|lra]).
Qed.

Lemma iter_shr_1_inbetween p : ∀ mrs y,
  (0 ≤ shr_m mrs)%Z → inbetween (shr_m mrs) (loc_of_shr_record mrs) y →
  (0 ≤ shr_m (SpecFloat.iter_pos shr_1 p mrs))%Z ∧
  inbetween (shr_m (SpecFloat.iter_pos shr_1 p mrs))
    (loc_of_shr_record (SpecFloat.iter_pos shr_1 p mrs)) (y * bpow (- Z.pos p)).
Proof.
  induction p as [p IH|p IH|]; intros mrs y Hm Hy; cbn [SpecFloat.iter_pos].
  - destruct (shr_1_inbetween mrs y Hm Hy) as [H1 H2].
    destruct (IH _ _ H1 H2) as [H3 H4]. destruct (IH _ _ H3 H4) as [H5 H6].
    split; [done|].
    replace (y * bpow (- Z.pos p~1))
      with (y / 2 * bpow (- Z.pos p) * bpow (- Z.pos p)); [done|].
    replace (- Z.pos p~1)%Z with (-1 + (- Z.pos p + - Z.pos p))%Z by lia.
    rewrite !bpow_add, bpow_m1. lra.
  - destruct (IH _ _ Hm Hy) as [H3 H4]. destruct (IH _ _ H3 H4) as [H5 H6].
    split; [done|].
    replace (y * bpow (- Z.pos p~0))
      with (y * bpow (- Z.pos p) * bpow (- Z.pos p)); [done|].
    replace (- Z.pos p~0)%Z with (- Z.pos p + - Z.pos p)%Z by lia.
    rewrite !bpow_add. lra.
  - destruct (shr_1_inbetween mrs y Hm Hy) as [H1 H2]. split; [done|].
    change (- Z.pos 1)%Z with (-1)%Z. by rewrite bpow_m1.
Qed.

Lemma shr_record_of_loc_inv m l :
  shr_m (shr_record_of_loc m l) = m ∧
  loc_of_shr_record (shr_record_of_loc m l) = l.
Proof. by destruct l as [|[]]. Qed.

Lemma shr_fexp_correct m e l y :
  (0 ≤ m)%Z → inbetween m l y → (e ≤ fexp prec emax (Zdigits2 m + e))%Z →
  ∃ mrs, shr_fexp prec emax m e l = (mrs, fexp prec emax (Zdigits2 m + e)) ∧
    (0 ≤ shr_m mrs)%Z ∧
    inbetween (shr_m mrs) (loc_of_shr_record mrs)
      (y * bpow (e - fexp prec emax (Zdigits2 m + e))).
Proof.
  intros Hm Hy Hn. unfold shr_fexp, shr.
  destruct (shr_record_of_loc_inv m l) as [Hrm Hrl].
  destruct (fexp prec emax (Zdigits2 m + e) - e)%Z as [|n|n] eqn:Hshift; [| |lia].
  - exists (shr_record_of_loc m l).
    replace (fexp prec emax (Zdigits2 m + e)) with e by lia.
    rewrite Hrm, Hrl, Z.sub_diag, bpow_0, Rmult_1_r. done.
  - exists (SpecFloat.iter_pos shr_1 n (shr_record_of_loc m l)).
    split; [f_equal; lia|].
    replace (e - fexp prec emax (Zdigits2 m + e))%Z with (- Z.pos n)%Z by lia.
    apply iter_shr_1_inbetween; by rewrite ?Hrm, ?Hrl.
Qed.

Lemma round_nearest_even_correct m l y :
  inbetween m l y →
  (m ≤ round_nearest_even m l ≤ m + 1)%Z ∧
  Rabs (IZR (round_nearest_even m l) - y) <= / 2.
Proof.
  intros Hy. destruct l as [|[]]; cbn [round_nearest_even inbetween] in *.
  - split; [lia|]. subst y. rewrite Rminus_diag, Rabs_R0. lra.
  - destruct (Z.even m); (split; [lia|]); rewrite ?plus_IZR; subst y;
      apply Rabs_le; lra.
  - split; [lia|]. apply Rabs_le. lra.
  - split; [lia|]. rewrite plus_IZR. apply Rabs_le. lra.
Qed.


(** *** Rounding to nearest, ties to even *)

Lemma SF2R_finite s m e :
  SF2R (S754_finite s m e)
  = if s then - (IZR (Z.pos m) * bpow e) else IZR (Z.pos m) * bpow e.
Proof. destruct s; cbn [SF2R cond_Zopp]; [|done]. rewrite opp_IZR. lra. Qed.

(** [binary_round_aux] on a mantissa [m] that stands, with the location
    [l], for the real [y]: the result is the infinity, and then the number
    is at least 2^1023, or a finite double within half a unit in the last
    place of [y * 2^e]. *)
Lemma binary_round_aux_correct s m e l y :
  (0 ≤ m)%Z → inbetween m l y → (e ≤ fexp prec emax (Zdigits2 m + e))%Z →
  let x := y * bpow e in
  let r := binary_round_aux prec emax s m e l in
  (r = S754_infinity s ∧ bpow 1023 <= x) ∨
  (SFfinite r = true ∧
   ∃ v, 0 <= v ∧ SF2R r = (if s then - v else v) ∧
        Rabs (v - x) <= u64 * x + eta64 ∧
        (bpow (-1022) <= x → Rabs (v - x) <= u64 * x) ∧ (x = 0 → v = 0)).
Proof.
  intros Hm Hy Hn x r. subst x r.
  destruct (shr_fexp_correct m e l y Hm Hy Hn) as (mrs1 & Hshr & Hm1 & Hy1).
  unfold binary_round_aux. rewrite Hshr.
  assert (fexp prec emax (Zdigits2 m + e)
          = Z.max (Zdigits2 m + e - 53) (-1074)) as He1 by reflexivity.
  set (e1 := fexp prec emax (Zdigits2 m + e)) in *.
  set (m1 := shr_m mrs1) in *. set (l1 := loc_of_shr_record mrs1) in *.
  set (y1 := y * bpow (e - e1)) in *.
  pose proof (inbetween_bounds _ _ _ Hy) as Hyb.
  pose proof (inbetween_bounds _ _ _ Hy1) as Hy1b.
  pose proof (bpow_pos e1) as Hpos1.
  assert (0 <= y1) as Hy1pos by (apply IZR_le in Hm1; lra).
  assert (y * bpow e = y1 * bpow e1) as Hx.
  { unfold y1. rewrite Rmult_assoc, <-bpow_add. do 2 f_equal. lia. }
  assert (m1 < 2 ^ 53)%Z as Hupper.
  { apply lt_IZR. rewrite <-bpow_IZR by lia.
    apply Rle_lt_trans with y1; [lra|]. unfold y1.
    apply Rlt_le_trans with (bpow (Zdigits2 m) * bpow (e - e1)).
    - apply Rmult_lt_compat_r; [apply bpow_pos|].
      destruct (Z.eq_dec m 0%Z) as [->|Hne].
      + cbn [Zdigits2]. rewrite bpow_0. lra.
      + pose proof (Zdigits2_bpow m ltac:(lia)). lra.
    - rewrite <-bpow_add. apply bpow_le. lia. }
  assert ((-1074 ≤ Zdigits2 m + e - 53)%Z → (2 ^ 52 ≤ m1)%Z) as Hlower.
  { intros Hnormal.
    assert (0 < m)%Z as Hpos.
    { destruct (Z.eq_dec m 0%Z) as [->|]; [|lia]. cbn [Zdigits2] in *. lia. }
    assert (bpow 52 <= y1) as Hle.
    { unfold y1. pose proof (Zdigits2_bpow m Hpos) as [Hlo _].
      replace 52%Z with ((Zdigits2 m - 1) + (e - e1))%Z by lia.
      rewrite bpow_add. apply Rmult_le_compat_r; [apply Rlt_le, bpow_pos|]. lra. }
    rewrite bpow_IZR in Hle by lia.
    assert (IZR (2 ^ 52) < IZR (m1 + 1)) as Hlt by (rewrite plus_IZR; lra).
    apply lt_IZR in Hlt. lia. }
  destruct (round_nearest_even_correct m1 l1 y1 Hy1) as [Hm2 Hround].
  set (m2 := round_nearest_even m1 l1) in *.
  assert (Rabs (IZR m2 * bpow e1 - y1 * bpow e1) <= / 2 * bpow e1) as Hhalf.
  { rewrite <-Rmult_minus_distr_r, Rabs_mult, (Rabs_pos_eq (bpow e1)) by lra.
    apply Rmult_le_compat_r; [lra|done]. }
  pose proof (bpow_pos (-53)) as Hu. pose proof (bpow_pos (-1075)) as Heta.
  assert (0 <= u64 * (y1 * bpow e1)) as Hnonneg.
  { unfold u64. apply Rmult_le_pos; [lra|]. apply Rmult_le_pos; lra. }
  assert ((-1074 ≤ Zdigits2 m + e - 53)%Z →
          / 2 * bpow e1 <= u64 * (y1 * bpow e1)) as Hnormal.
  { intros Hge. pose proof (Hlower Hge) as Hlo.
    apply IZR_le in Hlo. rewrite <-bpow_IZR in Hlo by lia.
    rewrite <-bpow_m1. replace (-1)%Z with (-53 + 52)%Z by lia.
    rewrite bpow_add. unfold u64.
    rewrite Rmult_assoc. apply Rmult_le_compat_l; [lra|].
    apply Rmult_le_compat_r; lra. }
  assert (Rabs (IZR m2 * bpow e1 - y1 * bpow e1) <= u64 * (y1 * bpow e1) + eta64)
    as Herr.
  { destruct (Z.le_gt_cases (-1074) (Zdigits2 m + e - 53)) as [Hge|Hlt].
    - pose proof (Hnormal Hge). unfold eta64. lra.
    - assert (e1 = -1074)%Z as Heq by lia. rewrite Heq in *. unfold eta64.
      replace (-1075)%Z with (-1 + -1074)%Z by lia. rewrite bpow_add, bpow_m1. lra. }
  assert (bpow (-1022) <= y1 * bpow e1 →
          Rabs (IZR m2 * bpow e1 - y1 * bpow e1) <= u64 * (y1 * bpow e1)) as Hrel.
  { intros Hbig. apply Rle_trans with (/ 2 * bpow e1); [done|]. apply Hnormal.
    assert (bpow (-1022) < bpow (Zdigits2 m + e)) as Hlt; [|apply bpow_lt_inv in Hlt; lia].
    rewrite <-Hx in Hbig. apply Rle_lt_trans with (y * bpow e); [done|].
    rewrite bpow_add. apply Rmult_lt_compat_r; [apply bpow_pos|].
    destruct (Z.eq_dec m 0%Z) as [->|Hne].
    + cbn [Zdigits2]. rewrite bpow_0. lra.
    + pose proof (Zdigits2_bpow m ltac:(lia)). lra. }
  assert (y1 * bpow e1 = 0 → IZR m2 * bpow e1 = 0) as Hzero.
  { intros H0. assert (y1 = 0) as Hy0 by nra. rewrite Hy0, Rminus_0_r in Hround.
    apply Rabs_le_inv in Hround.
    assert (IZR m2 < IZR 1) as Hlt1 by lra. apply lt_IZR in Hlt1.
    assert (m2 = 0)%Z as -> by lia. lra. }
  assert ((972 ≤ e1)%Z → bpow 1023 <= y1 * bpow e1) as Hbig.
  { intros Hge. pose proof (Hlower ltac:(lia)) as Hlo.
    apply IZR_le in Hlo. rewrite <-bpow_IZR in Hlo by lia.
    apply Rle_trans with (bpow 52 * bpow e1).
    - rewrite <-bpow_add. apply bpow_le. lia.
    - apply Rmult_le_compat_r; lra. }
  destruct (Z.lt_ge_cases m2 (2 ^ 53)%Z) as [Hlt|Hge].
  - assert (shr_fexp prec emax m2 e1 loc_Exact
            = ({| shr_m := m2; shr_r := false; shr_s := false |}, e1)) as ->.
    { unfold shr_fexp, shr.
      replace (fexp prec emax (Zdigits2 m2 + e1) - e1)%Z with 0%Z; [done|].
      rewrite fexp_eq.
      pose proof (Zdigits2_le m2 53 ltac:(lia) ltac:(lia)).
      destruct (Z.eq_dec e1 (-1074)%Z) as [Heq|Hne]; [lia|].
      pose proof (Hlower ltac:(lia)).
      pose proof (Zdigits2_ge m2 52 ltac:(lia) ltac:(lia)). lia. }
    cbn [shr_m]. rewrite Hx.
    destruct m2 as [|p|p] eqn:Hp; [| |lia].
    + right. split; [done|]. exists 0. split; [lra|]. split; [destruct s; cbn; lra|].
      by rewrite Rmult_0_l in Herr, Hrel.
    + change (emax - prec)%Z with 971%Z.
      destruct (Z.leb_spec e1 971%Z) as [Hfit|Hover].
      * right. split; [done|]. exists (IZR (Z.pos p) * bpow e1).
        split; [apply Rmult_le_pos; [apply IZR_le|]; lra || lia|].
        split; [by rewrite SF2R_finite|done].
      * left. split; [done|]. apply Hbig. lia.
  - assert (m2 = 2 ^ 53)%Z as Heq by lia. rewrite Heq in *.
    unfold shr_fexp, shr. change (Zdigits2 (2 ^ 53)) with 54%Z.
    replace (fexp prec emax (54 + e1) - e1)%Z with 1%Z by (rewrite fexp_eq; lia).
    cbn [shr_record_of_loc SpecFloat.iter_pos].
    change (shr_m (shr_1 {| shr_m := 2 ^ 53; shr_r := false; shr_s := false |}))
      with (2 ^ 52)%Z.
    change (2 ^ 52)%Z with (Z.pos (2 ^ 52)). cbv iota. rewrite Hx.
    change (emax - prec)%Z with 971%Z.
    assert (IZR (Z.pos (2 ^ 52)) * bpow (e1 + 1) = IZR (2 ^ 53) * bpow e1) as Hval.
    { rewrite bpow_succ. change (Z.pos (2 ^ 52)) with (2 ^ 52)%Z.
      rewrite <-!bpow_IZR by lia. replace 53%Z with (52 + 1)%Z by lia.
      rewrite bpow_succ. lra. }
    destruct (Z.leb_spec (e1 + 1)%Z 971%Z) as [Hfit|Hover].
    * right. split; [done|]. exists (IZR (2 ^ 53) * bpow e1).
      split; [apply Rmult_le_pos; [apply IZR_le|]; lra || lia|].
      split; [by rewrite SF2R_finite, Hval|done].
    * left. split; [done|].
      destruct (Z.eq_dec e1 971%Z) as [->|Hne]; [|apply Hbig; lia].
      assert (bpow 53 - / 2 <= y1) as Hy1lo.
      { apply Rabs_le_inv in Hround. rewrite bpow_IZR by lia. lra. }
      pose proof (bpow_lt 52 53 ltac:(lia)) as H5253.
      assert (1 <= bpow 52) by (rewrite bpow_IZR by lia; apply IZR_le; lia).
      apply Rle_trans with (bpow 52 * bpow 971).
      { rewrite <-bpow_add. apply bpow_le. lia. }
      apply Rmult_le_compat_r; [lra|].
      replace 53%Z with (52 + 1)%Z in Hy1lo by lia. rewrite bpow_succ in Hy1lo. lra.
Qed.


Lemma binary_round_aux_rounds (s : bool) m e l y :
  (0 ≤ m)%Z → inbetween m l y → (e ≤ fexp prec emax (Zdigits2 m + e))%Z →
  rounds_to ((if s then -1 else 1) * (y * bpow e)) (binary_round_aux prec emax s m e l).
Proof.
  intros Hm Hy Hn.
  pose proof (inbetween_bounds _ _ _ Hy) as Hyb. pose proof (bpow_pos e) as He.
  assert (0 <= y * bpow e) as Hx.
  { apply Rmult_le_pos; [|lra]. apply IZR_le in Hm. lra. }
  unfold rounds_to.
  destruct (binary_round_aux_correct s m e l y Hm Hy Hn)
    as [[-> Hbig]|(Hfin & v & Hv & -> & Herr & Hrel & Hzero)].
  - right. destruct s; [right|left]; (split; [done|lra]).
  - left. split; [done|].
    destruct s.
    + replace (- v - -1 * (y * bpow e)) with (- (v - y * bpow e)) by lra.
      rewrite Rabs_Ropp.
      replace (Rabs (-1 * (y * bpow e))) with (y * bpow e)
        by (rewrite Rabs_left1; lra).
      split; [done|]. split; [done|]. split; intros Hz; [|lra].
      rewrite Hzero; lra.
    + rewrite !Rmult_1_l, (Rabs_pos_eq (y * bpow e)) by done.
      split; [done|]. split; [done|]. split; intros Hz; [lra|].
      rewrite Hzero; lra.
Qed.

(** *** Alignment to the left *)

Lemma Pos_iter_xO m d : Z.pos (Pos.iter xO m d) = (Z.pos m * 2 ^ Z.pos d)%Z.
Proof.
  change (Pos.iter xO m d) with (shift_pos d m).
  rewrite shift_pos_correct, Z.pow_pos_fold. lia.
Qed.

Lemma Zdigits2_unique m d :
  (0 < m)%Z → (2 ^ (d - 1) ≤ m < 2 ^ d)%Z → Zdigits2 m = d.
Proof.
  intros Hm [Hlo Hhi].
  assert (0 < d)%Z as Hd.
  { destruct (Z.lt_ge_cases 0 d) as [|Hle]; [done|].
    destruct (Z.eq_dec d 0%Z) as [->|]; [cbn in Hhi; lia|].
    rewrite Z.pow_neg_r in Hhi by lia. lia. }
  pose proof (Zdigits2_le m d ltac:(lia) ltac:(lia)).
  pose proof (Zdigits2_ge m (d - 1) ltac:(lia) Hlo). lia.
Qed.

Lemma Zdigits2_shift m d :
  (0 < m)%Z → (0 ≤ d)%Z → Zdigits2 (m * 2 ^ d) = (Zdigits2 m + d)%Z.
Proof.
  intros Hm Hd. pose proof (Zdigits2_bounds m Hm) as [Hlo Hhi].
  pose proof (Zdigits2_ge m 0%Z ltac:(lia) ltac:(cbn; lia)).
  pose proof (Z.pow_pos_nonneg 2 d ltac:(lia) Hd).
  apply Zdigits2_unique; [lia|].
  replace (Zdigits2 m + d - 1)%Z with ((Zdigits2 m - 1) + d)%Z by lia.
  rewrite !Z.pow_add_r by lia. nia.
Qed.

Lemma binary_round_rounds (s : bool) m e :
  rounds_to ((if s then -1 else 1) * (IZR (Z.pos m) * bpow e))
    (binary_round prec emax s m e).
Proof.
  unfold binary_round, shl_align.
  change (Z.pos (digits2_pos m)) with (Zdigits2 (Z.pos m)).
  destruct (fexp prec emax (Zdigits2 (Z.pos m) + e) - e)%Z as [|d|d] eqn:Hshift.
  - apply binary_round_aux_rounds; [lia|done|lia].
  - apply binary_round_aux_rounds; [lia|done|lia].
  - replace (IZR (Z.pos m) * bpow e)
      with (IZR (Z.pos (Pos.iter xO m d))
            * bpow (fexp prec emax (Zdigits2 (Z.pos m) + e))).
    + apply binary_round_aux_rounds; [lia|done|].
      rewrite Pos_iter_xO, Zdigits2_shift by lia.
      replace (Zdigits2 (Z.pos m) + Z.pos d + fexp prec emax (Zdigits2 (Z.pos m) + e))%Z
        with (Zdigits2 (Z.pos m) + e)%Z by lia.
      lia.
    + rewrite Pos_iter_xO, mult_IZR, <-bpow_IZR by lia.
      rewrite Rmult_assoc, <-bpow_add. do 2 f_equal. lia.
Qed.

Lemma rounds_to_zero s : rounds_to 0 (S754_zero s).
Proof.
  left. split; [done|]. cbn [SF2R]. rewrite Rminus_diag, Rabs_R0.
  pose proof (bpow_pos (-1075)). unfold eta64. split; [lra|]. split; [lra|]. split; lra.
Qed.

Lemma binary_normalize_rounds S e szero :
  rounds_to (IZR S * bpow e) (binary_normalize prec emax S e szero).
Proof.
  destruct S as [|m|m]; cbn [binary_normalize].
  - rewrite Rmult_0_l. apply rounds_to_zero.
  - pose proof (binary_round_rounds false m e) as H. by rewrite Rmult_1_l in H.
  - pose proof (binary_round_rounds true m e) as H.
    change (Z.neg m) with (- Z.pos m)%Z. rewrite opp_IZR.
    replace (- IZR (Z.pos m) * bpow e) with (-1 * (IZR (Z.pos m) * bpow e)) by lra.
    done.
Qed.


Lemma rounds_to_exact r : SFfinite r = true → rounds_to (SF2R r) r.
Proof.
  intros Hr. left. split; [done|]. rewrite Rminus_diag, Rabs_R0.
  pose proof (bpow_pos (-1075)). pose proof (bpow_pos (-53)).
  pose proof (Rabs_pos (SF2R r)). unfold eta64, u64.
  split; [nra|]. split; [nra|]. split; lra.
Qed.

(** *** Doubles that are valid *)

Lemma valid_finite s m e :
  valid_binary (S754_finite s m e) = true →
  (e = Z.max (Zdigits2 (Z.pos m) + e - 53) (-1074))%Z ∧ (e ≤ 971)%Z.
Proof.
  cbn [SpecFloat.valid_binary]. unfold bounded, canonical_mantissa.
  intros [H1 H2]%andb_prop. apply Z.eqb_eq in H1. apply Z.leb_le in H2.
  rewrite fexp_eq in H1. change (emax - prec)%Z with 971%Z in H2.
  change (Z.pos (digits2_pos m)) with (Zdigits2 (Z.pos m)) in H1. lia.
Qed.


(** *** Multiplication *)

Lemma SFmul_rounds x y :
  valid_binary x = true → valid_binary y = true →
  SFfinite x = true → SFfinite y = true →
  rounds_to (SF2R x * SF2R y) (SFmul prec emax x y).
Proof.
  intros Hvx Hvy Hfx Hfy.
  destruct x as [sx|sx| |sx mx ex], y as [sy|sy| |sy my ey]; try discriminate;
    cbn [SFmul]; try (cbn [SF2R]; rewrite ?Rmult_0_l, ?Rmult_0_r; apply rounds_to_zero).
  apply valid_finite in Hvx as [Hex _], Hvy as [Hey _].
  replace (SF2R (S754_finite sx mx ex) * SF2R (S754_finite sy my ey))
    with ((if xorb sx sy then -1 else 1)
          * (IZR (Z.pos (mx * my)) * bpow (ex + ey))).
  - apply binary_round_aux_rounds; [lia|done|].
    pose proof (Zdigits2_bounds (Z.pos mx) ltac:(lia)) as [Hx1 _].
    pose proof (Zdigits2_bounds (Z.pos my) ltac:(lia)) as [Hy1 _].
    pose proof (Zdigits2_ge (Z.pos mx) 0%Z ltac:(lia) ltac:(cbn; lia)).
    pose proof (Zdigits2_ge (Z.pos my) 0%Z ltac:(lia) ltac:(cbn; lia)).
    assert (2 ^ (Zdigits2 (Z.pos mx) - 1 + (Zdigits2 (Z.pos my) - 1))
            ≤ Z.pos (mx * my))%Z as Hprod.
    { rewrite Z.pow_add_r, Pos2Z.inj_mul by lia.
      apply Z.mul_le_mono_nonneg; try done; apply Z.pow_nonneg; lia. }
    apply Zdigits2_ge in Hprod; [|lia].
    rewrite fexp_eq. lia.
  - rewrite !SF2R_finite, Pos2Z.inj_mul, mult_IZR, bpow_add.
    destruct sx, sy; cbn [xorb]; ring.
Qed.

(** *** Addition and subtraction *)

Lemma shl_align_fst m e e' :
  (e' ≤ e)%Z → Z.pos (fst (shl_align m e e')) = (Z.pos m * 2 ^ (e - e'))%Z.
Proof.
  intros Hle. unfold shl_align.
  destruct (e' - e)%Z as [|d|d] eqn:Hd; cbn [fst].
  - replace (e - e')%Z with 0%Z by lia. lia.
  - lia.
  - rewrite Pos_iter_xO. do 2 f_equal. lia.
Qed.

Lemma shl_align_value (s : bool) m e e' :
  (e' ≤ e)%Z →
  IZR (cond_Zopp s (Z.pos (fst (shl_align m e e')))) * bpow e'
  = SF2R (S754_finite s m e).
Proof.
  intros Hle. rewrite SF2R_finite, shl_align_fst by done.
  replace (bpow e) with (bpow (e - e') * bpow e')
    by (rewrite <-bpow_add; f_equal; lia).
  rewrite (bpow_IZR (e - e')) by lia.
  destruct s; cbn [cond_Zopp]; rewrite ?opp_IZR, mult_IZR; ring.
Qed.

Lemma SFadd_rounds x y :
  SFfinite x = true → SFfinite y = true →
  rounds_to (SF2R x + SF2R y) (SFadd prec emax x y).
Proof.
  intros Hfx Hfy.
  destruct x as [sx|sx| |sx mx ex], y as [sy|sy| |sy my ey]; try discriminate;
    cbn [SFadd].
  - cbn [SF2R]. rewrite Rplus_0_l. destruct sx, sy; apply rounds_to_zero.
  - cbn [SF2R]. rewrite Rplus_0_l. by apply (rounds_to_exact (S754_finite sy my ey)).
  - cbn [SF2R]. rewrite Rplus_0_r. by apply (rounds_to_exact (S754_finite sx mx ex)).
  - rewrite <-(shl_align_value sx mx ex (Z.min ex ey)) by lia.
    rewrite <-(shl_align_value sy my ey (Z.min ex ey)) by lia.
    rewrite <-Rmult_plus_distr_r, <-plus_IZR.
    apply binary_normalize_rounds.
Qed.

Lemma SFsub_rounds x y :
  SFfinite x = true → SFfinite y = true →
  rounds_to (SF2R x - SF2R y) (SFsub prec emax x y).
Proof.
  intros Hfx Hfy.
  destruct x as [sx|sx| |sx mx ex], y as [sy|sy| |sy my ey]; try discriminate;
    cbn [SFsub].
  - cbn [SF2R]. rewrite Rminus_diag. destruct sx, sy; apply rounds_to_zero.
  - replace (SF2R (S754_zero sx) - SF2R (S754_finite sy my ey))
      with (SF2R (S754_finite (negb sy) my ey)).
    + by apply rounds_to_exact.
    + rewrite !SF2R_finite. cbn [SF2R]. destruct sy; cbn [negb]; lra.
  - cbn [SF2R]. rewrite Rminus_0_r. by apply (rounds_to_exact (S754_finite sx mx ex)).
  - rewrite <-(shl_align_value sx mx ex (Z.min ex ey)) by lia.
    rewrite <-(shl_align_value sy my ey (Z.min ex ey)) by lia.
    rewrite <-Rmult_minus_distr_r, <-minus_IZR.
    apply binary_normalize_rounds.
Qed.


(** *** Division *)

Lemma new_location_correct nb k q :
  (0 ≤ k < nb)%Z →
  inbetween q (new_location nb k) (IZR q + IZR k / IZR nb).
Proof.
  intros [Hk Hnb].
  assert (0 < IZR nb) as Hpos by (apply IZR_lt; lia).
  set (t := IZR k / IZR nb).
  assert (IZR k = t * IZR nb) as Ht by (unfold t; field; lra).
  assert (k = 0%Z → inbetween q loc_Exact (IZR q + t)) as Hzero.
  { intros ->. cbn [inbetween]. unfold t. lra. }
  unfold new_location.
  destruct (Z.even nb) eqn:Heven; unfold new_location_even, new_location_odd;
    (destruct (Z.eqb_spec k 0) as [Hk0|Hne]; [by apply Hzero|]);
    assert (0 < IZR k) as Hkpos by (apply IZR_lt; lia).
  - destruct (Z.compare_spec (2 * k) nb) as [Heq|Hlt|Hgt]; cbn [inbetween].
    + apply (f_equal IZR) in Heq. rewrite mult_IZR in Heq.
      assert (t = / 2) by nra. lra.
    + apply IZR_lt in Hlt. rewrite mult_IZR in Hlt. split; nra.
    + apply IZR_lt in Hgt, Hnb. rewrite mult_IZR in Hgt. split; nra.
  - assert (2 * k ≠ nb)%Z as Hodd.
    { intros <-. by rewrite Z.even_mul in Heven. }
    destruct (Z.compare_spec (2 * k + 1) nb) as [Heq|Hlt|Hgt]; cbn [inbetween].
    + apply (f_equal IZR) in Heq. rewrite plus_IZR, mult_IZR in Heq. split; nra.
    + apply IZR_lt in Hlt. rewrite plus_IZR, mult_IZR in Hlt. split; nra.
    + assert (nb < 2 * k)%Z as Hgt' by lia.
      apply IZR_lt in Hgt', Hnb. rewrite mult_IZR in Hgt'. split; nra.
Qed.

Lemma SFdiv_rounds x y :
  SFfinite x = true → SFfinite y = true → SF2R y ≠ 0 →
  rounds_to (SF2R x / SF2R y) (SFdiv prec emax x y).
Proof.
  intros Hfx Hfy Hy0.
  destruct x as [sx|sx| |sx mx ex], y as [sy|sy| |sy my ey]; try discriminate;
    try (by destruct Hy0); cbn [SFdiv].
  { cbn [SF2R]. unfold Rdiv. rewrite Rmult_0_l. apply rounds_to_zero. }
  unfold SFdiv_core_binary.
  set (d1 := Zdigits2 (Z.pos mx)). set (d2 := Zdigits2 (Z.pos my)).
  set (e' := Z.min (fexp prec emax (d1 + ex - (d2 + ey))) (ex - ey)).
  set (sh := (ex - ey - e')%Z).
  assert (0 ≤ sh)%Z as Hsh by (unfold sh, e'; lia).
  assert (match sh with
          | 0%Z => Z.pos mx
          | Z.pos _ => Z.shiftl (Z.pos mx) sh
          | Z.neg _ => 0%Z
          end = Z.pos mx * 2 ^ sh)%Z as ->.
  { destruct sh as [|p|p] eqn:Hp; [lia| |lia]. by rewrite Z.shiftl_mul_pow2. }
  pose proof (Z_div_mod (Z.pos mx * 2 ^ sh) (Z.pos my) ltac:(lia)) as Hdiv.
  destruct (Z.div_eucl (Z.pos mx * 2 ^ sh) (Z.pos my)) as [q r].
  destruct Hdiv as [Hqr Hr].
  pose proof (Z.pow_pos_nonneg 2 sh ltac:(lia) Hsh) as Hpow.
  assert (0 ≤ q)%Z as Hq by nia.
  replace (SF2R (S754_finite sx mx ex) / SF2R (S754_finite sy my ey))
    with ((if xorb sx sy then -1 else 1)
          * ((IZR q + IZR r / IZR (Z.pos my)) * bpow e')).
  - apply binary_round_aux_rounds; [done|by apply new_location_correct|].
    pose proof (Zdigits2_bounds (Z.pos mx) ltac:(lia)) as [Hx1 _].
    pose proof (Zdigits2_bounds (Z.pos my) ltac:(lia)) as [_ Hy2].
    pose proof (Zdigits2_ge (Z.pos mx) 0%Z ltac:(lia) ltac:(cbn; lia)).
    pose proof (Zdigits2_ge (Z.pos my) 0%Z ltac:(lia) ltac:(cbn; lia)).
    fold d1 d2 in Hx1, Hy2, H, H0.
    pose proof (Zdigits2_nonneg q) as Hdq.
    assert (d1 + sh - d2 ≤ Zdigits2 q)%Z as Hdigits.
    { destruct (Z.le_gt_cases 0 (d1 - 1 + sh - d2)) as [Hk|Hk]; [|lia].
      assert (2 ^ (d1 - 1 + sh - d2) ≤ q)%Z as Hlow.
      { destruct (Z.le_gt_cases (2 ^ (d1 - 1 + sh - d2)) q) as [|Hlt]; [done|].
        assert (2 ^ (d1 - 1 + sh - d2) * 2 ^ d2 = 2 ^ (d1 - 1) * 2 ^ sh)%Z as Hsplit.
        { rewrite <-!Z.pow_add_r by lia. f_equal. lia. }
        pose proof (Z.pow_pos_nonneg 2 (d1 - 1 + sh - d2) ltac:(lia) Hk).
        nia. }
      apply Zdigits2_ge in Hlow; lia. }
    unfold sh, e' in *. rewrite !fexp_eq in *. lia.
  - rewrite !SF2R_finite.
    assert (0 < IZR (Z.pos my)) as Hmy by (apply IZR_lt; lia).
    assert (IZR q + IZR r / IZR (Z.pos my)
            = IZR (Z.pos mx) * bpow sh / IZR (Z.pos my)) as ->.
    { rewrite (bpow_IZR sh), <-mult_IZR, Hqr, plus_IZR, mult_IZR by done.
      field. lra. }
    replace (bpow ex) with (bpow sh * bpow e' * bpow ey)
      by (rewrite <-!bpow_add; f_equal; unfold sh; lia).
    pose proof (bpow_pos ey).
    destruct sx, sy; cbn [xorb]; field; lra.
Qed.

(** *** Comparison *)




(** *** The operations on doubles *)

Lemma is_finite_SFfinite x : is_finite x = SFfinite (Prim2SF x).
Proof. rewrite is_finite_SF. by destruct (Prim2SF x). Qed.

Lemma mul_rounds x y :
  is_finite x = true → is_finite y = true →
  rounds_to (F2R x * F2R y) (Prim2SF (x * y)).
Proof.
  rewrite !is_finite_SFfinite, mul_spec. intros Hx Hy.
  apply SFmul_rounds; auto using Prim2SF_valid.
Qed.

Lemma add_rounds x y :
  is_finite x = true → is_finite y = true →
  rounds_to (F2R x + F2R y) (Prim2SF (x + y)).
Proof. rewrite !is_finite_SFfinite, add_spec. apply SFadd_rounds. Qed.

Lemma sub_rounds x y :
  is_finite x = true → is_finite y = true →
  rounds_to (F2R x - F2R y) (Prim2SF (x - y)).
Proof. rewrite !is_finite_SFfinite, sub_spec. apply SFsub_rounds. Qed.

Lemma div_rounds x y :
  is_finite x = true → is_finite y = true → F2R y ≠ 0 →
  rounds_to (F2R x / F2R y) (Prim2SF (x / y)).
Proof. rewrite !is_finite_SFfinite, div_spec. apply SFdiv_rounds. Qed.

Lemma opp_F2R x : F2R (- x) = - F2R x ∧ is_finite (- x) = is_finite x.
Proof.
  rewrite !is_finite_SFfinite. unfold F2R. rewrite opp_spec.
  destruct (Prim2SF x) as [s|s| |s m e]; cbn [SFopp SFfinite];
    rewrite ?SF2R_finite; cbn [SF2R]; (split; [|done]); try lra.
  destruct s; cbn [negb]; lra.
Qed.


(** What [rounds_to] gives when the exact result is in range. *)
Lemma rounds_to_finite z (r : float) :
  rounds_to z (Prim2SF r) → Rabs z < bpow 1023 →
  is_finite r = true ∧
  Rabs (F2R r - z) <= u64 * Rabs z + eta64 ∧
  (bpow (-1022) <= Rabs z → Rabs (F2R r - z) <= u64 * Rabs z) ∧
  (0 <= z → 0 <= F2R r) ∧ (z <= 0 → F2R r <= 0).
Proof.
  intros [H|[[_ H]|[_ H]]] Hz.
  - by rewrite is_finite_SFfinite.
  - apply Rabs_def2 in Hz. lra.
  - apply Rabs_def2 in Hz. lra.
Qed.

End FloatReal.

(** ** The constants of the program and the profit test *)

Section Constants.
Local Open Scope R_scope.

Lemma bpow_neg_IZR (n : Z) : (0 ≤ n)%Z → bpow (- n) = / IZR (2 ^ n).
Proof. intros Hn. by rewrite bpow_opp, bpow_IZR. Qed.

Lemma bpow_m52 : bpow (-52) = / 4503599627370496.
Proof. exact (bpow_neg_IZR 52 ltac:(lia)). Qed.

Lemma u64_val : u64 = / 9007199254740992.
Proof. exact (bpow_neg_IZR 53 ltac:(lia)). Qed.

Lemma eta64_small : 0 < eta64 <= / 1000000000000000000000000000000.
Proof.
  unfold eta64. split; [apply bpow_pos|].
  change (-1075)%Z with (- (1075))%Z. rewrite bpow_neg_IZR by lia.
  apply Rinv_le_contravar; [lra|]. apply IZR_le. by vm_compute.
Qed.

Lemma bpow_1023_big : 1000000 < bpow 1023.
Proof. rewrite bpow_IZR by lia. apply IZR_lt. by vm_compute. Qed.

Lemma F2R_one : F2R 1 = 1.
Proof.
  unfold F2R. change (Prim2SF 1) with (S754_finite false 4503599627370496 (-52)).
  rewrite SF2R_finite, bpow_m52. lra.
Qed.

Lemma F2R_hundred : F2R 100 = 100.
Proof.
  unfold F2R. change (Prim2SF 100) with (S754_finite false 7036874417766400 (-46)).
  rewrite SF2R_finite. change (-46)%Z with (- (46))%Z. rewrite bpow_neg_IZR by lia.
  change (2 ^ 46)%Z with 70368744177664%Z. lra.
Qed.






End Constants.

(** ** The arithmetic of getInvertedPair *)

Section Inversion.
Local Open Scope R_scope.

Lemma rounds_bounded z (r : float) M :
  rounds_to z (Prim2SF r) → Rabs z <= M → M <= 1000000 →
  is_finite r = true ∧ Rabs (F2R r - z) <= u64 * M + eta64.
Proof.
  intros Hr Hz HM. pose proof bpow_1023_big.
  destruct (rounds_to_finite z r Hr ltac:(lra)) as (Hfin & Herr & _).
  split; [done|]. pose proof (bpow_pos (-53)). unfold u64 in *. nra.
Qed.

Lemma recip_bounds lo hi x : 0 < lo → lo <= x <= hi → 1 / hi <= 1 / x <= 1 / lo.
Proof.
  intros Hlo [H1 H2]. unfold Rdiv. rewrite !Rmult_1_l.
  split; apply Rinv_le_contravar; lra.
Qed.

Lemma recip_close lo x y e :
  0 < lo → lo <= x → lo <= y → Rabs (x - y) <= e →
  Rabs (1 / x - 1 / y) * (lo * lo) <= e.
Proof.
  intros Hlo Hx Hy He.
  replace (1 / x - 1 / y) with ((y - x) / (x * y)) by (field; lra).
  unfold Rdiv. rewrite Rabs_mult, Rabs_inv, (Rabs_pos_eq (x * y)) by nra.
  rewrite Rabs_minus_sym in He. pose proof (Rabs_pos (y - x)) as Hpos.
  assert (lo * lo <= x * y) as Hprod by nra.
  assert (0 < x * y) as Hxy by nra.
  assert (lo * lo * / (x * y) <= 1) as Hfrac.
  { apply (Rmult_le_reg_r (x * y)); [done|]. rewrite Rmult_assoc, Rinv_l; lra. }
  pose proof (Rinv_0_lt_compat _ Hxy).
  replace (Rabs (y - x) * / (x * y) * (lo * lo))
    with (Rabs (y - x) * (lo * lo * / (x * y))) by ring.
  nra.
Qed.

(** One percent inversion in doubles against the formula over the reals. *)
Lemma invertPercentage_error (c : float) :
  is_finite c = true → -50.0001 <= F2R c <= 100.0001 →
  is_finite (invertPercentage c) = true ∧
  Rabs (F2R (invertPercentage c) - (1 / (1 + F2R c / 100) - 1) * 100)
  <= 1.8 / 10 ^ 13.
Proof.
  intros Hc HC.
  change (invertPercentage c) with ((1 / (1 + c / 100) - 1) * 100)%float.
  pose proof u64_val as Hu. pose proof eta64_small as Heta.
  set (C := F2R c) in *.
  (* c / 100 *)
  pose proof (div_rounds c 100 Hc eq_refl ltac:(rewrite F2R_hundred; lra)) as Ha.
  rewrite F2R_hundred in Ha. fold C in Ha.
  destruct (rounds_bounded _ _ 1.000001 Ha ltac:(apply Rabs_le; lra) ltac:(lra))
    as [Hfa Hea]. clear Ha.
  set (a := (c / 100)%float) in *. set (A := F2R a) in *.
  apply Rabs_le_inv in Hea. rewrite Hu in Hea.
  (* 1 + c / 100 *)
  pose proof (add_rounds 1 a eq_refl Hfa) as Hb. rewrite F2R_one in Hb. fold A in Hb.
  destruct (rounds_bounded _ _ 2.00001 Hb ltac:(apply Rabs_le; lra) ltac:(lra))
    as [Hfb Heb]. clear Hb.
  set (b := (1 + a)%float) in *. set (B := F2R b) in *.
  apply Rabs_le_inv in Heb. rewrite Hu in Heb.
  (* 1 / (1 + c / 100) *)
  pose proof (recip_bounds 0.4999 2.0001 B ltac:(lra) ltac:(lra)) as HIB.
  pose proof (recip_bounds 0.499999 2.000001 (1 + C / 100) ltac:(lra) ltac:(lra)) as HIg.
  pose proof (recip_close 0.4999 B (1 + C / 100)
                (3.000011 * / 9007199254740992 + 2 * eta64)
                ltac:(lra) ltac:(lra) ltac:(lra) ltac:(apply Rabs_le; lra)) as Hclose.
  pose proof (div_rounds 1 b eq_refl Hfb ltac:(fold B; lra)) as Ht3.
  rewrite F2R_one in Ht3. fold B in Ht3.
  destruct (rounds_bounded _ _ 2.0005 Ht3 ltac:(apply Rabs_le; lra) ltac:(lra))
    as [Hf3 He3]. clear Ht3.
  set (t3 := (1 / b)%float) in *. set (T3 := F2R t3) in *.
  apply Rabs_le_inv in He3. rewrite Hu in He3.
  assert (Rabs (1 / B - 1 / (1 + C / 100)) <= 1.3329 / 10 ^ 15) as Hg.
  { pose proof (Rabs_pos (1 / B - 1 / (1 + C / 100))). lra. }
  apply Rabs_le_inv in Hg. clear Hclose.
  (* ... - 1 *)
  pose proof (sub_rounds t3 1 Hf3 eq_refl) as Ht4. rewrite F2R_one in Ht4. fold T3 in Ht4.
  destruct (rounds_bounded _ _ 1.00001 Ht4 ltac:(apply Rabs_le; lra) ltac:(lra))
    as [Hf4 He4]. clear Ht4.
  set (t4 := (t3 - 1)%float) in *. set (T4 := F2R t4) in *.
  apply Rabs_le_inv in He4. rewrite Hu in He4.
  (* ... * 100 *)
  pose proof (mul_rounds t4 100 Hf4 eq_refl) as Ht5. rewrite F2R_hundred in Ht5.
  fold T4 in Ht5.
  destruct (rounds_bounded _ _ 100.002 Ht5 ltac:(apply Rabs_le; lra) ltac:(lra))
    as [Hf5 He5]. clear Ht5.
  split; [done|].
  apply Rabs_le_inv in He5. rewrite Hu in He5.
  apply Rabs_le. lra.
Qed.


(** Two percent inversions in doubles give back the change within 1e-12
    when it lies between -50 and 100. *)
Lemma invertPercentage_twice (c : float) :
  is_finite c = true → -50 <= F2R c <= 100 →
  is_finite (invertPercentage (invertPercentage c)) = true ∧
  Rabs (F2R (invertPercentage (invertPercentage c)) - F2R c) <= 1 / 10 ^ 12.
Proof.
  intros Hc HC.
  destruct (invertPercentage_error c Hc ltac:(lra)) as [Hf1 He1].
  set (c1 := invertPercentage c) in *. set (C := F2R c) in *. set (C1 := F2R c1) in *.
  pose proof (recip_bounds 0.5 2 (1 + C / 100) ltac:(lra) ltac:(lra)) as HIg.
  apply Rabs_le_inv in He1.
  destruct (invertPercentage_error c1 Hf1 ltac:(fold C1; lra)) as [Hf2 He2].
  fold C1 in He2. split; [done|].
  set (c2 := invertPercentage c1) in *. set (C2 := F2R c2) in *.
  apply Rabs_le_inv in He2.
  assert (1 / (1 + (1 / (1 + C / 100) - 1) * 100 / 100) = 1 + C / 100) as Hback
    by (field; lra).
  pose proof (recip_close 0.4999 (1 + C1 / 100)
                (1 + (1 / (1 + C / 100) - 1) * 100 / 100) (1.8 / 10 ^ 15)
                ltac:(lra) ltac:(lra) ltac:(lra) ltac:(apply Rabs_le; lra)) as Hclose.
  rewrite Hback in Hclose.
  assert (Rabs (1 / (1 + C1 / 100) - (1 + C / 100)) <= 7.21 / 10 ^ 15) as Hg.
  { pose proof (Rabs_pos (1 / (1 + C1 / 100) - (1 + C / 100))). lra. }
  apply Rabs_le_inv in Hg. apply Rabs_le. lra.
Qed.


(** *** Relative errors *)

Lemma near_bounds e a b :
  near e a b → (1 - e) * Rabs b <= Rabs a <= (1 + e) * Rabs b.
Proof.
  unfold near. intros H.
  pose proof (Rabs_triang (a - b) b) as H1. replace (a - b + b) with a in H1 by ring.
  pose proof (Rabs_triang (b - a) a) as H2. replace (b - a + a) with b in H2 by ring.
  rewrite (Rabs_minus_sym b a) in H2. lra.
Qed.

Lemma near_trans e1 e2 a b c :
  0 <= e1 → near e1 a b → near e2 b c → near (e1 + e2 + e1 * e2) a c.
Proof.
  intros He1 Hab Hbc. pose proof (near_bounds _ _ _ Hbc) as [_ Hb].
  unfold near in *.
  pose proof (Rabs_triang (a - b) (b - c)) as H. replace (a - b + (b - c)) with (a - c) in H by ring.
  pose proof (Rabs_pos c). pose proof (Rabs_pos b). nra.
Qed.

Lemma near_weaken e e' a b : e <= e' → near e a b → near e' a b.
Proof. unfold near. intros He H. pose proof (Rabs_pos b). nra. Qed.

Lemma near_opp e a b : near e a b → near e (- a) (- b).
Proof.
  unfold near. intros H. replace (- a - - b) with (- (a - b)) by ring.
  by rewrite !Rabs_Ropp.
Qed.

Lemma near_mul e1 e2 a1 b1 a2 b2 :
  0 <= e1 → near e1 a1 b1 → near e2 a2 b2 →
  near (e1 + e2 + e1 * e2) (a1 * a2) (b1 * b2).
Proof.
  intros He1 H1 H2. pose proof (near_bounds _ _ _ H2) as [_ Ha2].
  unfold near in *.
  replace (a1 * a2 - b1 * b2) with ((a1 - b1) * a2 + b1 * (a2 - b2)) by ring.
  pose proof (Rabs_triang ((a1 - b1) * a2) (b1 * (a2 - b2))) as H.
  rewrite !Rabs_mult in *.
  pose proof (Rabs_pos b1). pose proof (Rabs_pos b2). pose proof (Rabs_pos a2).
  pose proof (Rabs_pos (a1 - b1)). pose proof (Rabs_pos (a2 - b2)).
  assert (Rabs (a1 - b1) * Rabs a2 <= e1 * Rabs b1 * ((1 + e2) * Rabs b2)) by nra.
  assert (Rabs b1 * Rabs (a2 - b2) <= Rabs b1 * (e2 * Rabs b2)) by nra.
  nra.
Qed.

Lemma near_inv e a b :
  0 <= e <= / 100000 → b ≠ 0 → near e a b → near (1.0001 * e) (1 / a) (1 / b).
Proof.
  intros He Hb H. pose proof (near_bounds _ _ _ H) as [Ha _].
  pose proof (Rabs_pos_lt b Hb) as Hbpos.
  assert (0 < Rabs a) as Hapos by nra.
  assert (a ≠ 0) as Ha0 by (intros ->; rewrite Rabs_R0 in Hapos; lra).
  unfold near in *.
  replace (1 / a - 1 / b) with ((b - a) / (a * b)) by (field; done).
  unfold Rdiv. rewrite !Rmult_1_l, Rabs_mult, !Rabs_inv, Rabs_mult, Rabs_minus_sym.
  pose proof (Rinv_0_lt_compat _ Hbpos) as Hib.
  apply (Rmult_le_reg_r (Rabs a * Rabs b)); [nra|].
  rewrite Rmult_assoc, Rinv_l by nra.
  replace (1.0001 * e * / Rabs b * (Rabs a * Rabs b))
    with (1.0001 * e * Rabs a * (/ Rabs b * Rabs b)) by ring.
  rewrite Rinv_l by nra.
  assert (0 <= e * Rabs b) as Ht by nra.
  assert (e * Rabs b - e * (e * Rabs b) <= e * Rabs a) as H1 by nra.
  assert (e * (e * Rabs b) <= / 100000 * (e * Rabs b)) as H2 by nra.
  lra.
Qed.

Lemma near_div e1 e2 a1 b1 a2 b2 :
  0 <= e1 → 0 <= e2 <= / 100000 → b2 ≠ 0 → near e1 a1 b1 → near e2 a2 b2 →
  near (e1 + 1.0001 * e2 + e1 * (1.0001 * e2)) (a1 / a2) (b1 / b2).
Proof.
  intros He1 He2 Hb2 H1 H2. unfold Rdiv.
  replace (/ a2) with (1 / a2) by (unfold Rdiv; ring).
  replace (/ b2) with (1 / b2) by (unfold Rdiv; ring).
  apply near_mul; [done|done|]. by apply near_inv.
Qed.

Lemma near_refl a : near 0 a a.
Proof. unfold near. rewrite Rminus_diag, Rabs_R0. lra. Qed.

(** A result in the normal range is the exact one up to the unit
    roundoff. *)
Lemma rounds_normal z (r : float) :
  rounds_to z (Prim2SF r) → bpow (-1022) <= Rabs z → Rabs z < bpow 1023 →
  is_finite r = true ∧ near u64 (F2R r) z.
Proof.
  intros Hr Hlo Hhi. destruct (rounds_to_finite z r Hr Hhi) as (Hfin & _ & Hrel & _).
  split; [done|]. by apply Hrel.
Qed.


Lemma bpow_half e : bpow (e - 1) = bpow e / 2.
Proof. rewrite bpow_sub, bpow_1. done. Qed.

Lemma near_range e a b lo hi :
  0 <= e <= / 2 → near e a b → 0 <= lo → lo <= Rabs b <= hi →
  lo / 2 <= Rabs a <= 2 * hi.
Proof.
  intros He H Hlo Hb. pose proof (near_bounds _ _ _ H) as [H1 H2].
  pose proof (Rabs_pos b). split; nra.
Qed.

Lemma recip_bpow a b x :
  bpow a <= x <= bpow b → bpow (- b) <= 1 / x <= bpow (- a).
Proof.
  intros Hx. pose proof (bpow_pos a).
  pose proof (recip_bounds (bpow a) (bpow b) x ltac:(lra) Hx) as H1.
  rewrite !bpow_opp. unfold Rdiv in *. rewrite !Rmult_1_l in *. lra.
Qed.

Lemma bpow_normal_range a b x :
  (-1022 ≤ a)%Z → (b < 1023)%Z → bpow a <= x <= bpow b →
  bpow (-1022) <= Rabs x ∧ Rabs x < bpow 1023.
Proof.
  intros Ha Hb Hx. pose proof (bpow_pos a). rewrite Rabs_pos_eq by lra.
  pose proof (bpow_le (-1022) a Ha). pose proof (bpow_lt b 1023 Hb). lra.
Qed.

Lemma bpow_51 : bpow (-51) = / 2251799813685248.
Proof. exact (bpow_neg_IZR 51 ltac:(lia)). Qed.

Lemma bpow_50 : bpow (-50) = / 1125899906842624.
Proof. exact (bpow_neg_IZR 50 ltac:(lia)). Qed.

(** The reciprocal of the reciprocal, in doubles. *)
Lemma reciprocal_twice (p : float) :
  is_finite p = true → bpow (-250) <= F2R p <= bpow 250 →
  is_finite (1 / p) = true ∧ near u64 (F2R (1 / p)) (1 / F2R p) ∧
  0 < F2R (1 / p) ∧
  is_finite (1 / (1 / p)) = true ∧
  Rabs (F2R (1 / (1 / p)) - F2R p) <= bpow (-51) * F2R p.
Proof.
  intros Hp HP. set (P := F2R p) in *.
  pose proof (bpow_pos (-250)) as Hlo. pose proof u64_val as Hu.
  pose proof (recip_bpow _ _ _ HP) as HIP. change (- -250)%Z with 250%Z in HIP.
  change (- (250))%Z with (-250)%Z in HIP.
  assert (0 < 1 / P) as HIPpos by (pose proof (bpow_pos (-250)); lra).
  (* 1 / p *)
  pose proof (div_rounds 1 p eq_refl Hp ltac:(fold P; apply Rgt_not_eq; lra)) as H1.
  rewrite F2R_one in H1. fold P in H1.
  destruct (bpow_normal_range (-250) 250 (1 / P) ltac:(lia) ltac:(lia) HIP) as [Hn1 Hn2].
  destruct (rounds_normal _ _ H1 Hn1 Hn2) as [Hf1 Hnear1].
  assert (0 <= F2R (1 / p)) as Hsign.
  { destruct (rounds_to_finite _ _ H1 Hn2) as (_ & _ & _ & Hs & _). apply Hs. lra. }
  clear H1. set (p1 := (1 / p)%float) in *. set (P1 := F2R p1) in *.
  rewrite (Rabs_pos_eq (1 / P)) in Hn1, Hn2 by lra.
  pose proof (near_range u64 _ _ (bpow (-250)) (bpow 250)
                ltac:(rewrite Hu; lra) Hnear1 ltac:(lra)
                ltac:(rewrite (Rabs_pos_eq (1 / P)) by lra; exact HIP)) as HP1.
  rewrite (Rabs_pos_eq P1) in HP1 by done.
  assert (0 < P1) as HP1pos by lra.
  split; [done|]. split; [done|]. split; [done|].
  (* 1 / (1 / p) *)
  pose proof (near_inv u64 P1 (1 / P) ltac:(rewrite Hu; lra)
                ltac:(apply Rgt_not_eq; lra) Hnear1) as Hinv.
  replace (1 / (1 / P)) with P in Hinv by (field; lra).
  pose proof (near_range (1.0001 * u64) _ _ (bpow (-250)) (bpow 250)
                ltac:(rewrite Hu; lra) Hinv ltac:(lra)
                ltac:(rewrite (Rabs_pos_eq P) by lra; exact HP)) as HIP1.
  rewrite <-bpow_half, <-bpow_succ in HIP1.
  pose proof (div_rounds 1 p1 eq_refl Hf1 ltac:(fold P1; apply Rgt_not_eq; lra)) as H2.
  rewrite F2R_one in H2. fold P1 in H2.
  destruct (rounds_normal _ _ H2) as [Hf2 Hnear2].
  { eapply Rle_trans; [apply (bpow_le (-1022) (-250 - 1)); lia|apply HIP1]. }
  { eapply Rle_lt_trans; [apply HIP1|apply bpow_lt; lia]. }
  split; [done|].
  pose proof (near_trans u64 _ _ _ _ ltac:(rewrite Hu; lra) Hnear2 Hinv) as Hnear.
  unfold near in Hnear. rewrite (Rabs_pos_eq P) in Hnear by lra.
  rewrite bpow_51. rewrite Hu in Hnear.
  eapply Rle_trans; [exact Hnear|]. apply Rmult_le_compat_r; lra.
Qed.


Lemma rounds_zero (r : float) :
  rounds_to 0 (Prim2SF r) → is_finite r = true ∧ F2R r = 0.
Proof.
  intros Hr. pose proof (bpow_pos 1023).
  destruct (rounds_to_finite 0 r Hr ltac:(rewrite Rabs_R0; lra))
    as (Hfin & _ & _ & Hpos & Hneg).
  split; [done|]. specialize (Hpos ltac:(lra)). specialize (Hneg ltac:(lra)). lra.
Qed.

Lemma square_bpow a b x :
  0 < bpow a <= x → x <= bpow b → bpow (a + a) <= x * x <= bpow (b + b).
Proof. intros Ha Hb. rewrite !bpow_add. split; nra. Qed.

(** The day change put twice through [-d / (p * p)], the second time with
    the reciprocal price. *)
Lemma dayChange_twice (d p : float) :
  is_finite p = true → bpow (-250) <= F2R p <= bpow 250 →
  is_finite d = true →
  F2R d = 0 ∨ bpow (-250) <= Rabs (F2R d) <= bpow 250 →
  let d1 := (- d / (p * p))%float in
  let p1 := (1 / p)%float in
  let d2 := (- d1 / (p1 * p1))%float in
  is_finite d2 = true ∧
  Rabs (F2R d2 - F2R d) <= bpow (-50) * Rabs (F2R d).
Proof.
  intros Hp HP Hd HD d1 p1 d2.
  destruct (reciprocal_twice p Hp HP) as (Hf1 & Hnear1 & HP1pos & _).
  fold p1 in Hf1, Hnear1, HP1pos.
  set (P := F2R p) in *. set (D := F2R d) in *. set (P1 := F2R p1) in *.
  pose proof (bpow_pos (-250)) as Hlo. pose proof u64_val as Hu.
  assert (0 < P) as HPpos by lra.
  pose proof (recip_bpow _ _ _ HP) as HIP. change (- -250)%Z with 250%Z in HIP.
  change (- (250))%Z with (-250)%Z in HIP.
  (* p * p *)
  pose proof (square_bpow (-250) 250 P ltac:(lra) ltac:(lra)) as HPP.
  change (-250 + -250)%Z with (-500)%Z in HPP. change (250 + 250)%Z with 500%Z in HPP.
  destruct (bpow_normal_range (-500) 500 (P * P) ltac:(lia) ltac:(lia) HPP) as [Hq1 Hq2].
  destruct (rounds_normal _ _ (mul_rounds p p Hp Hp) Hq1 Hq2) as [Hfq Hnearq].
  assert (0 <= F2R (p * p)) as Hqsign.
  { destruct (rounds_to_finite _ _ (mul_rounds p p Hp Hp) Hq2) as (_ & _ & _ & Hs & _).
    apply Hs. fold P. nra. }
  fold P in Hnearq. set (q := (p * p)%float) in *. set (Q := F2R q) in *.
  pose proof (bpow_pos (-500)) as Hlo5.
  pose proof (near_range u64 Q (P * P) (bpow (-500)) (bpow 500)
                ltac:(rewrite Hu; lra) Hnearq ltac:(lra)
                ltac:(rewrite (Rabs_pos_eq (P * P)) by nra; exact HPP)) as HQ.
  rewrite (Rabs_pos_eq Q) in HQ by done.
  assert (0 < Q) as HQpos by lra.
  (* p1 * p1 *)
  assert (0 < 1 / P) as HIPpos by lra.
  pose proof (near_mul u64 u64 P1 (1 / P) P1 (1 / P)
                ltac:(rewrite Hu; lra) Hnear1 Hnear1) as Hsq.
  pose proof (square_bpow (-250) 250 (1 / P) ltac:(lra) ltac:(lra)) as HIPP.
  change (-250 + -250)%Z with (-500)%Z in HIPP. change (250 + 250)%Z with 500%Z in HIPP.
  pose proof (near_range (u64 + u64 + u64 * u64) (P1 * P1) (1 / P * (1 / P))
                (bpow (-500)) (bpow 500)
                ltac:(rewrite Hu; lra) Hsq ltac:(lra)
                ltac:(rewrite (Rabs_pos_eq (1 / P * (1 / P))) by nra; exact HIPP)) as HPP1.
  rewrite <-bpow_half, <-bpow_succ in HPP1.
  destruct (rounds_normal _ _ (mul_rounds p1 p1 Hf1 Hf1)) as [Hfq1 Hnearq1].
  { fold P1. eapply Rle_trans; [apply (bpow_le (-1022) (-500 - 1)); lia|apply HPP1]. }
  { fold P1. eapply Rle_lt_trans; [apply HPP1|apply bpow_lt; lia]. }
  fold P1 in Hnearq1. set (q1 := (p1 * p1)%float) in *. set (Q1 := F2R q1) in *.
  pose proof (near_trans u64 (u64 + u64 + u64 * u64) Q1 (P1 * P1) (1 / P * (1 / P))
                ltac:(rewrite Hu; lra) Hnearq1 Hsq) as HnearQ1.
  apply (near_weaken _ (3.001 * u64)) in HnearQ1; [|rewrite Hu; lra].
  assert (Q1 ≠ 0) as HQ1.
  { pose proof (near_bounds _ _ _ HnearQ1) as [Hb _].
    rewrite (Rabs_pos_eq (1 / P * (1 / P))) in Hb by nra. rewrite Hu in Hb.
    intros HQ0. rewrite HQ0, Rabs_R0 in Hb. nra. }
  (* the two divisions *)
  destruct (opp_F2R d) as [Hnd Hfnd]. rewrite Hd in Hfnd. fold D in Hnd.
  pose proof (div_rounds (- d) q Hfnd Hfq ltac:(fold Q; apply Rgt_not_eq; lra)) as Hd1.
  rewrite Hnd in Hd1. fold Q d1 in Hd1.
  destruct HD as [HD0|HD].
  { rewrite HD0 in *. replace (- 0 / Q) with 0 in Hd1 by (unfold Rdiv; ring).
    destruct (rounds_zero _ Hd1) as [Hfd1 HD1].
    destruct (opp_F2R d1) as [Hnd1 Hfnd1]. rewrite Hfd1 in Hfnd1. rewrite HD1 in Hnd1.
    pose proof (div_rounds (- d1) q1 Hfnd1 Hfq1 HQ1) as Hd2.
    rewrite Hnd1 in Hd2. fold Q1 d2 in Hd2.
    replace (- 0 / Q1) with 0 in Hd2 by (unfold Rdiv; ring).
    destruct (rounds_zero _ Hd2) as [Hfd2 HD2]. split; [done|].
    rewrite HD2, Rminus_diag, Rabs_R0. lra. }
  assert (D ≠ 0) as HDne.
  { intros HD0. rewrite HD0, Rabs_R0 in HD. lra. }
  assert (bpow (-750) <= Rabs (- D / (P * P)) <= bpow 750) as Hmag1.
  { unfold Rdiv. rewrite Rabs_mult, Rabs_Ropp, Rabs_inv, (Rabs_pos_eq (P * P)) by nra.
    pose proof (recip_bpow _ _ _ HPP) as HIQ. change (- -500)%Z with 500%Z in HIQ.
    change (- (500))%Z with (-500)%Z in HIQ. unfold Rdiv in HIQ. rewrite Rmult_1_l in HIQ.
    replace (-750)%Z with (-250 + -500)%Z by lia. replace 750%Z with (250 + 500)%Z by lia.
    rewrite !bpow_add. split; nra. }
  pose proof (near_div 0 u64 (- D) (- D) Q (P * P) ltac:(lra) ltac:(rewrite Hu; lra)
                ltac:(nra) (near_refl _) Hnearq) as Hz1.
  apply (near_weaken _ (1.0001 * u64)) in Hz1; [|rewrite Hu; lra].
  pose proof (near_range (1.0001 * u64) _ _ (bpow (-750)) (bpow 750)
                ltac:(rewrite Hu; lra) Hz1 ltac:(pose proof (bpow_pos (-750)); lra)
                Hmag1) as Hmagz1.
  rewrite <-bpow_half, <-bpow_succ in Hmagz1.
  destruct (rounds_normal _ _ Hd1) as [Hfd1 Hneard1].
  { eapply Rle_trans; [apply (bpow_le (-1022) (-750 - 1)); lia|apply Hmagz1]. }
  { eapply Rle_lt_trans; [apply Hmagz1|apply bpow_lt; lia]. }
  set (D1 := F2R d1) in *.
  pose proof (near_trans u64 (1.0001 * u64) D1 (- D / Q) (- D / (P * P))
                ltac:(rewrite Hu; lra) Hneard1 Hz1) as HnearD1.
  apply (near_weaken _ (2.001 * u64)) in HnearD1; [|rewrite Hu; lra].
  apply near_opp in HnearD1.
  destruct (opp_F2R d1) as [Hnd1 Hfnd1]. rewrite Hfd1 in Hfnd1. fold D1 in Hnd1.
  pose proof (div_rounds (- d1) q1 Hfnd1 Hfq1 HQ1) as Hd2.
  rewrite Hnd1 in Hd2. fold Q1 d2 in Hd2.
  pose proof (near_div (2.001 * u64) (3.001 * u64) (- D1) (- (- D / (P * P)))
                Q1 (1 / P * (1 / P)) ltac:(rewrite Hu; lra) ltac:(rewrite Hu; lra)
                ltac:(nra) HnearD1 HnearQ1) as Hz2.
  replace (- (- D / (P * P)) / (1 / P * (1 / P))) with D in Hz2 by (field; lra).
  apply (near_weaken _ (5.01 * u64)) in Hz2; [|rewrite Hu; lra].
  pose proof (near_range (5.01 * u64) _ _ (bpow (-250)) (bpow 250)
                ltac:(rewrite Hu; lra) Hz2 ltac:(lra) HD) as Hmagz2.
  rewrite <-bpow_half, <-bpow_succ in Hmagz2.
  destruct (rounds_normal _ _ Hd2) as [Hfd2 Hneard2].
  { eapply Rle_trans; [apply (bpow_le (-1022) (-250 - 1)); lia|apply Hmagz2]. }
  { eapply Rle_lt_trans; [apply Hmagz2|apply bpow_lt; lia]. }
  split; [done|].
  pose proof (near_trans u64 (5.01 * u64) (F2R d2) (- D1 / Q1) D
                ltac:(rewrite Hu; lra) Hneard2 Hz2) as Hfinal.
  apply (near_weaken _ (bpow (-50))) in Hfinal; [done|].
  rewrite bpow_50, Hu. lra.
Qed.

End Inversion.

(** * The base-rate table *)

Lemma elem_of_currencySet pairs c :
  c ∈ currencySet pairs ↔
  ∃ pair, pair ∈ pairs ∧ (c = baseCurrency pair ∨ c = quoteCurrency pair).
Proof.
  unfold currencySet. rewrite elem_of_list_to_set, list_elem_of_bind.
  split.
  - intros (p & Hc & Hp). exists p. split; [done|].
    rewrite !elem_of_cons, elem_of_nil in Hc. tauto.
  - intros (p & Hp & Hc). exists p. split; [|done].
    rewrite !elem_of_cons, elem_of_nil. tauto.
Qed.

Lemma currencySet_head pair pairs c :
  c = baseCurrency pair ∨ c = quoteCurrency pair → c ∈ currencySet (pair :: pairs).
Proof. intros Hc. apply elem_of_currencySet. exists pair. split; [left|done]. Qed.

Lemma currencySet_tail pair pairs c :
  c ∈ currencySet pairs → c ∈ currencySet (pair :: pairs).
Proof.
  rewrite !elem_of_currencySet. intros (q & Hq & Hc). exists q. split; [by right|done].
Qed.

Lemma size_list_to_set_le (l : list string) :
  size (list_to_set l : gset string) ≤ length l.
Proof.
  induction l as [|x l IH]; cbn [length].
  { by rewrite list_to_set_nil, size_empty. }
  rewrite list_to_set_cons, size_union_alt, size_singleton.
  assert (size (list_to_set l ∖ {[x]} : gset string) ≤ size (list_to_set l : gset string));
    [|lia].
  apply subseteq_size, subseteq_difference_l. reflexivity.
Qed.

Lemma size_currencySet pairs : size (currencySet pairs) ≤ 2 * length pairs.
Proof.
  unfold currencySet. etrans; [apply size_list_to_set_le|].
  induction pairs as [|p ps IH]; [done|].
  rewrite bind_cons. cbn [app length]. lia.
Qed.

(** *** Seeding *)

Lemma seedStep_other rates pair c :
  seedTarget pair ≠ Some c → seedStep rates pair !! c = rates !! c.
Proof.
  unfold seedTarget, seedStep. intros Hc.
  destruct (String.eqb (baseCurrency pair) "USD").
  - rewrite lookup_insert_ne; [done|congruence].
  - destruct (String.eqb (quoteCurrency pair) "USD"); [|done].
    rewrite lookup_insert_ne; [done|congruence].
Qed.

Lemma seed_fold_other pairs rates c :
  Forall (λ pair, seedTarget pair ≠ Some c) pairs →
  fold_left seedStep pairs rates !! c = rates !! c.
Proof.
  revert rates. induction pairs as [|p ps IH]; intros rates Hall; [done|].
  inversion_clear Hall. cbn [fold_left]. rewrite IH by done. by apply seedStep_other.
Qed.

Lemma seedStep_dom rates pair c :
  c ∈ dom (seedStep rates pair) →
  c ∈ dom rates ∨ c = baseCurrency pair ∨ c = quoteCurrency pair.
Proof.
  unfold seedStep.
  destruct (String.eqb (baseCurrency pair) "USD").
  { rewrite dom_insert, elem_of_union, elem_of_singleton. tauto. }
  destruct (String.eqb (quoteCurrency pair) "USD"); [|tauto].
  rewrite dom_insert, elem_of_union, elem_of_singleton. tauto.
Qed.

Lemma seed_fold_dom pairs rates c :
  c ∈ dom (fold_left seedStep pairs rates) → c ∈ dom rates ∨ c ∈ currencySet pairs.
Proof.
  revert rates. induction pairs as [|p ps IH]; intros rates; cbn [fold_left]; [tauto|].
  intros [Hc|Hc]%IH; [|right; by apply currencySet_tail].
  apply seedStep_dom in Hc as [Hc|Hc]; [by left|right; by apply currencySet_head].
Qed.

Lemma seedRates_dom pairs : dom (seedRates pairs) ⊆ {["USD"]} ∪ currencySet pairs.
Proof.
  unfold seedRates. intros c. rewrite dom_insert, !elem_of_union.
  intros [Hc|Hc]; [by left|]. apply seed_fold_dom in Hc as [Hc|Hc]; [|by right].
  rewrite dom_empty in Hc. by apply elem_of_empty in Hc.
Qed.

(** *** One pass of the propagation *)

Lemma propagateStep_subseteq rates upd pair :
  rates ⊆ (propagateStep (rates, upd) pair).1.
Proof.
  unfold propagateStep.
  destruct (rates !! baseCurrency pair) eqn:Hb, (rates !! quoteCurrency pair) eqn:Hq;
    cbn [fst]; try done; by apply insert_subseteq.
Qed.

Lemma propagateStep_flag rates upd pair :
  let st := propagateStep (rates, upd) pair in
  (st.2 = upd ∧ st.1 = rates) ∨ (st.2 = true ∧ size st.1 = S (size rates)).
Proof.
  unfold propagateStep.
  destruct (rates !! baseCurrency pair) eqn:Hb, (rates !! quoteCurrency pair) eqn:Hq;
    cbn [fst snd]; try (by left); right; split; try done; by apply map_size_insert_None.
Qed.

Lemma propagateStep_dom rates upd pair c :
  c ∈ dom (propagateStep (rates, upd) pair).1 →
  c ∈ dom rates ∨ c = baseCurrency pair ∨ c = quoteCurrency pair.
Proof.
  unfold propagateStep.
  destruct (rates !! baseCurrency pair) eqn:Hb, (rates !! quoteCurrency pair) eqn:Hq;
    cbn [fst]; try tauto; rewrite dom_insert, elem_of_union, elem_of_singleton; tauto.
Qed.

Lemma propagate_fold_spec pairs rates upd :
  let st := fold_left propagateStep pairs (rates, upd) in
  rates ⊆ st.1 ∧
  dom st.1 ⊆ dom rates ∪ currencySet pairs ∧
  ((st.2 = upd ∧ st.1 = rates) ∨ (st.2 = true ∧ size rates < size st.1)).
Proof.
  revert rates upd. induction pairs as [|p ps IH]; intros rates upd; cbn [fold_left].
  { split; [done|]. split; [apply union_subseteq_l|]. by left. }
  pose proof (propagateStep_subseteq rates upd p) as Hsub.
  pose proof (propagateStep_dom rates upd p) as Hdom.
  pose proof (propagateStep_flag rates upd p) as Hflag.
  destruct (propagateStep (rates, upd) p) as [rates1 upd1].
  cbn [fst snd] in *.
  destruct (IH rates1 upd1) as (IH1 & IH2 & IH3).
  split; [by trans rates1|]. split.
  - intros c Hc. apply IH2 in Hc. apply elem_of_union in Hc as [Hc|Hc].
    + apply Hdom in Hc as [Hc|Hc]; [by apply elem_of_union_l|].
      by apply elem_of_union_r, currencySet_head.
    + by apply elem_of_union_r, currencySet_tail.
  - destruct Hflag as [[-> ->]|[-> Hsz]]; [done|].
    right. destruct IH3 as [[-> ->]|[-> Hlt]]; split; try done; lia.
Qed.

Lemma propagatePass_spec pairs rates rates' updated :
  propagatePass pairs rates = (rates', updated) →
  rates ⊆ rates' ∧
  dom rates' ⊆ dom rates ∪ currencySet pairs ∧
  (if updated then size rates < size rates' else rates' = rates).
Proof.
  unfold propagatePass. intros Hpass.
  destruct (propagate_fold_spec pairs rates false) as (H1 & H2 & H3).
  rewrite Hpass in H1, H2, H3. cbn [fst snd] in *.
  split; [done|]. split; [done|].
  destruct H3 as [[-> ->]|[-> Hlt]]; done.
Qed.

(** *** The loop *)

(** Enough passes: one more than the currencies still missing. *)
Lemma propagateLoop_enough pairs (bound : gset string) fuel rates :
  currencySet pairs ⊆ bound →
  dom rates ⊆ bound →
  size bound - size rates < fuel →
  ∃ rates', propagateLoop fuel pairs rates = Some rates' ∧
            rates ⊆ rates' ∧ dom rates' ⊆ bound.
Proof.
  intros Hcs. revert rates.
  induction fuel as [|fuel IH]; intros rates Hdom Hfuel; [lia|].
  cbn [propagateLoop].
  destruct (propagatePass pairs rates) as [rates1 updated] eqn:Hpass.
  apply propagatePass_spec in Hpass as (Hsub & Hdom1 & Hupd).
  assert (dom rates1 ⊆ bound) as Hb1.
  { intros c Hc. apply Hdom1 in Hc. apply elem_of_union in Hc as [Hc|Hc]; auto. }
  destruct updated.
  - assert (size rates1 ≤ size bound).
    { rewrite <-(size_dom rates1). by apply subseteq_size. }
    destruct (IH rates1) as (rates' & Hloop & Hsub' & Hdom'); [done|lia|].
    exists rates'. split; [done|]. split; [by trans rates1|done].
  - subst rates1. by exists rates.
Qed.


Lemma calculateBaseRates_total pairs :
  ∃ rates, calculateBaseRates pairs = Some rates ∧
           seedRates pairs ⊆ rates ∧
           dom rates ⊆ {["USD"]} ∪ currencySet pairs.
Proof.
  unfold calculateBaseRates.
  apply propagateLoop_enough.
  - apply union_subseteq_r.
  - apply seedRates_dom.
  - assert (size ({["USD"]} ∪ currencySet pairs) ≤ 1 + size (currencySet pairs)).
    { rewrite size_union_alt, size_singleton.
      assert (size (currencySet pairs ∖ {["USD"]}) ≤ size (currencySet pairs)); [|lia].
      apply subseteq_size, subseteq_difference_l. reflexivity. }
    pose proof (size_currencySet pairs). unfold passBound. lia.
Qed.

(** *** Collections that never mention USD *)

Lemma seed_fold_no_usd pairs rates :
  "USD" ∉ currencySet pairs → fold_left seedStep pairs rates = rates.
Proof.
  revert rates. induction pairs as [|p ps IH]; intros rates Hno; [done|].
  cbn [fold_left].
  assert (seedStep rates p = rates) as ->.
  { unfold seedStep.
    destruct (String.eqb (baseCurrency p) "USD") eqn:Hb.
    { apply String.eqb_eq in Hb. destruct Hno. apply currencySet_head. auto. }
    destruct (String.eqb (quoteCurrency p) "USD") eqn:Hq; [|done].
    apply String.eqb_eq in Hq. destruct Hno. apply currencySet_head. auto. }
  apply IH. intros Hin. by apply Hno, currencySet_tail.
Qed.

Lemma propagate_fold_untouched pairs rates upd :
  (∀ c, c ∈ currencySet pairs → rates !! c = None) →
  fold_left propagateStep pairs (rates, upd) = (rates, upd).
Proof.
  induction pairs as [|p ps IH]; intros Hno; [done|].
  cbn [fold_left].
  assert (propagateStep (rates, upd) p = (rates, upd)) as ->.
  { unfold propagateStep.
    rewrite (Hno (baseCurrency p)), (Hno (quoteCurrency p)); [done|..];
      apply currencySet_head; auto. }
  apply IH. intros c Hc. by apply Hno, currencySet_tail.
Qed.

Lemma calculateBaseRates_no_usd pairs :
  "USD" ∉ currencySet pairs →
  calculateBaseRates pairs = Some {["USD" := 1%float]}.
Proof.
  intros Hno. unfold calculateBaseRates, seedRates, passBound.
  rewrite seed_fold_no_usd by done.
  replace (2 * length pairs + 2) with (S (2 * length pairs + 1)) by lia.
  cbn [propagateLoop]. unfold propagatePass.
  rewrite propagate_fold_untouched; [done|].
  intros c Hc. rewrite insert_empty. apply lookup_singleton_ne.
  intros <-. done.
Qed.

(** *** Seeded entries (C3) *)

Lemma seedStep_target rates pair :
  (baseCurrency pair = "USD" →
     seedTarget pair = Some (quoteCurrency pair) ∧
     seedStep rates pair !! quoteCurrency pair = Some (price pair)) ∧
  (quoteCurrency pair = "USD" → baseCurrency pair ≠ "USD" →
     seedTarget pair = Some (baseCurrency pair) ∧
     seedStep rates pair !! baseCurrency pair = Some (1 / price pair)%float).
Proof.
  unfold seedTarget, seedStep. split.
  - intros Hb. rewrite (proj2 (String.eqb_eq _ _) Hb). by rewrite lookup_insert_eq.
  - intros Hq Hb.
    rewrite (proj2 (String.eqb_neq _ _) Hb), (proj2 (String.eqb_eq _ _) Hq).
    by rewrite lookup_insert_eq.
Qed.

Lemma seeded_entry_survives before pair after c v :
  seedStep (fold_left seedStep before ∅) pair !! c = Some v →
  c ≠ "USD" →
  Forall (λ later, seedTarget later ≠ Some c) after →
  ∃ rates, calculateBaseRates (before ++ pair :: after) = Some rates ∧ rates !! c = Some v.
Proof.
  intros Hstep Hc Hafter.
  destruct (calculateBaseRates_total (before ++ pair :: after)) as (rates & Hrates & Hsub & _).
  exists rates. split; [done|].
  apply (lookup_weaken (seedRates (before ++ pair :: after))); [|done].
  unfold seedRates. rewrite lookup_insert_ne by done.
  rewrite fold_left_app. cbn [fold_left]. by rewrite seed_fold_other.
Qed.

(** C3 (amended).  After [calculateBaseRates], a quote whose base currency
    is "USD" has its price under its quote currency, and a quote whose quote
    currency is "USD" has the reciprocal of its price under its base
    currency -- provided the currency in question is not "USD" itself and no
    later quote of the collection seeds the same currency (the first loop
    assigns in collection order, so the last such quote stays). *)
Theorem seeded_rate_in_table (before : list CurrencyPair) (pair : CurrencyPair)
    (after : list CurrencyPair) :
  (baseCurrency pair = "USD" → quoteCurrency pair ≠ "USD" →
   Forall (λ later, seedTarget later ≠ Some (quoteCurrency pair)) after →
   ∃ rates, calculateBaseRates (before ++ pair :: after) = Some rates ∧
            rates !! quoteCurrency pair = Some (price pair)) ∧
  (quoteCurrency pair = "USD" → baseCurrency pair ≠ "USD" →
   Forall (λ later, seedTarget later ≠ Some (baseCurrency pair)) after →
   ∃ rates, calculateBaseRates (before ++ pair :: after) = Some rates ∧
            rates !! baseCurrency pair = Some (1 / price pair)%float).
Proof.
  split.
  - intros Hb Hq Hafter. apply seeded_entry_survives; [|done..].
    by apply seedStep_target.
  - intros Hq Hb Hafter. apply seeded_entry_survives; [|done..].
    by apply seedStep_target.
Qed.

(** C3, an instance: USD/INR and EUR/USD in the collection of the spec's
    example. *)
Lemma seeded_rate_in_table_witness :
  (∃ rates,
     calculateBaseRates
       ([] ++ CurrencyPair_code "USD/INR" 83
           :: [CurrencyPair_code "EUR/USD" 1.10; CurrencyPair_code "USD/JPY" 150])
     = Some rates ∧ rates !! "INR" = Some 83%float) ∧
  (∃ rates,
     calculateBaseRates
       ([CurrencyPair_code "USD/INR" 83] ++ CurrencyPair_code "EUR/USD" 1.10
           :: [CurrencyPair_code "USD/JPY" 150])
     = Some rates ∧ rates !! "EUR" = Some (1 / 1.10)%float).
Proof.
  split.
  - apply (proj1 (seeded_rate_in_table [] (CurrencyPair_code "USD/INR" 83)
      [CurrencyPair_code "EUR/USD" 1.10; CurrencyPair_code "USD/JPY" 150]));
      [reflexivity|discriminate|repeat constructor; discriminate].
  - apply (proj2 (seeded_rate_in_table [CurrencyPair_code "USD/INR" 83]
      (CurrencyPair_code "EUR/USD" 1.10) [CurrencyPair_code "USD/JPY" 150]));
      [reflexivity|discriminate|repeat constructor; discriminate].
Defined.

(** C3 as stated fails: the first quote below has base "USD" and price 0.9,
    yet the table holds 0.8 for EUR, the reciprocal of the later EUR/USD
    quote; and the last one has base "USD" and price 2, yet the table holds
    1.0 for its quote currency, USD. *)
Lemma seeded_rate_overwritten :
  let first := CurrencyPair_code "USD/EUR" 0.9 in
  let second := CurrencyPair_code "EUR/USD" 1.25 in
  let third := CurrencyPair_code "USD/USD" 2 in
  (baseCurrency first = "USD" ∧ quoteCurrency first = "EUR" ∧ price first = 0.9%float) ∧
  (baseCurrency third = "USD" ∧ quoteCurrency third = "USD" ∧ price third = 2%float) ∧
  ∃ rates, calculateBaseRates [first; second; third] = Some rates ∧
           rates !! "EUR" = Some 0.8%float ∧
           rates !! "USD" = Some 1%float.
Proof.
  cbv zeta. split; [by vm_compute|]. split; [by vm_compute|].
  eexists. split; [vm_compute; reflexivity|]. by vm_compute.
Qed.

(** *** Termination of the propagation (C6) *)



(** [calculateBaseRates] is private and neither loader calls it on an empty
    vector; on one, it would return the table that holds "USD" alone. *)
Lemma empty_collection_has_usd :
  ∃ rates, calculateBaseRates [] = Some rates ∧
           rates = {["USD" := 1%float]} ∧
           size rates = 1 ∧ size (currencySet []) = 0.
Proof.
  eexists. split; [apply calculateBaseRates_no_usd; by vm_compute|].
  split; [done|]. split; [apply map_size_singleton|]. apply size_empty.
Qed.

(** *** USD (C7) *)

(** C7.  For every quote collection the table built by
    [calculateBaseRates] maps "USD" to exactly 1.0: the assignment after the
    first loop puts it there whatever the quotes seeded, and no pass of the
    propagation changes it. *)
Theorem usd_rate_is_one (pairs : list CurrencyPair) :
  seedRates pairs !! "USD" = Some 1%float ∧
  (∀ rates, rates !! "USD" = Some 1%float →
     (propagatePass pairs rates).1 !! "USD" = Some 1%float) ∧
  ∃ rates, calculateBaseRates pairs = Some rates ∧ rates !! "USD" = Some 1%float.
Proof.
  assert (seedRates pairs !! "USD" = Some 1%float) as Hseed.
  { unfold seedRates. apply lookup_insert_eq. }
  split; [done|]. split.
  - intros rates Husd.
    destruct (propagatePass pairs rates) as [rates' updated] eqn:Hpass.
    apply propagatePass_spec in Hpass as (Hsub & _). cbn [fst].
    by apply (lookup_weaken _ _ _ _ Husd).
  - destruct (calculateBaseRates_total pairs) as (rates & Hrates & Hsub & _).
    exists rates. split; [done|]. by apply (lookup_weaken _ _ _ _ Hseed).
Qed.

(** C7, an instance with quotes that seed other values for USD. *)
Lemma usd_rate_is_one_witness :
  ∃ rates,
    calculateBaseRates [CurrencyPair_code "USD/USD" 2; CurrencyPair_code "EUR/USD" 1.10]
    = Some rates ∧ rates !! "USD" = Some 1%float.
Proof.
  exact (proj2 (proj2 (usd_rate_is_one
    [CurrencyPair_code "USD/USD" 2; CurrencyPair_code "EUR/USD" 1.10]))).
Defined.

(** * The cross-rate resolver *)

Lemma lookupDirect_first code before cp after :
  Forall (λ p, pairCode p ≠ code) before → pairCode cp = code →
  lookupDirect code (before ++ cp :: after) = Some (price cp).
Proof.
  intros Hbefore Hcp. induction Hbefore as [|p before Hp _ IH]; cbn.
  - by rewrite (proj2 (String.eqb_eq _ _) Hcp).
  - by rewrite (proj2 (String.eqb_neq _ _) Hp).
Qed.

Lemma lookupDirect_none code pairs :
  Forall (λ p, pairCode p ≠ code) pairs → lookupDirect code pairs = None.
Proof.
  induction 1 as [|p pairs Hp _ IH]; cbn; [done|].
  by rewrite (proj2 (String.eqb_neq _ _) Hp).
Qed.

Lemma lookupInverse_first code before cp after :
  Forall (λ p, pairCode p ≠ code) before → pairCode cp = code →
  lookupInverse code (before ++ cp :: after) = Some (1 / price cp)%float.
Proof.
  intros Hbefore Hcp. induction Hbefore as [|p before Hp _ IH]; cbn.
  - by rewrite (proj2 (String.eqb_eq _ _) Hcp).
  - by rewrite (proj2 (String.eqb_neq _ _) Hp).
Qed.

Lemma lookupInverse_none code pairs :
  Forall (λ p, pairCode p ≠ code) pairs → lookupInverse code pairs = None.
Proof.
  induction 1 as [|p pairs Hp _ IH]; cbn; [done|].
  by rewrite (proj2 (String.eqb_neq _ _) Hp).
Qed.

Lemma lookupEither_first direct inverse before cp after :
  Forall (λ p, pairCode p ≠ direct ∧ pairCode p ≠ inverse) before →
  lookupEither direct inverse (before ++ cp :: after) =
    if String.eqb (pairCode cp) direct then Some (price cp)
    else if String.eqb (pairCode cp) inverse then Some (1 / price cp)%float
    else lookupEither direct inverse after.
Proof.
  induction 1 as [|p before [Hd Hi] _ IH]; cbn; [done|].
  by rewrite (proj2 (String.eqb_neq _ _) Hd), (proj2 (String.eqb_neq _ _) Hi).
Qed.

Lemma lookupEither_none direct inverse pairs :
  Forall (λ p, pairCode p ≠ direct ∧ pairCode p ≠ inverse) pairs →
  lookupEither direct inverse pairs = None.
Proof.
  induction 1 as [|p before [Hd Hi] _ IH]; cbn; [done|].
  by rewrite (proj2 (String.eqb_neq _ _) Hd), (proj2 (String.eqb_neq _ _) Hi).
Qed.

(** C1 (amended).  [getExchangeRate(from, to)] returns the price of the
    first quote whose pair code is exactly "from/to" or, when there is none,
    the reciprocal of the first quote with code "to/from", whatever the
    Base Rate Table holds.  [calculateCrossCurrencyRate(from, to)] does not:
    when both currencies have table entries it returns
    [table[to] / table[from]] without looking at the quotes; only when one
    of them has no entry does it return the first quote that carries either
    code, its price for "from/to" and its reciprocal for "to/from". *)
Theorem quoted_rate_precedence (a : CurrencyAnalyzer) (fromCurrency toCurrency : string)
    (before : list CurrencyPair) (cp : CurrencyPair) (after : list CurrencyPair) :
  currencyPairs a = before ++ cp :: after →
  let direct := fromCurrency +:+ "/" +:+ toCurrency in
  let inverse := toCurrency +:+ "/" +:+ fromCurrency in
  (pairCode cp = direct → Forall (λ p, pairCode p ≠ direct) before →
     getExchangeRate a fromCurrency toCurrency = price cp) ∧
  (pairCode cp = inverse → Forall (λ p, pairCode p ≠ inverse) before →
     Forall (λ p, pairCode p ≠ direct) (currencyPairs a) →
     getExchangeRate a fromCurrency toCurrency = (1 / price cp)%float) ∧
  (∀ rateFrom rateTo,
     baseRates a !! fromCurrency = Some rateFrom →
     baseRates a !! toCurrency = Some rateTo →
     calculateCrossCurrencyRate a fromCurrency toCurrency = (rateTo / rateFrom)%float) ∧
  (baseRates a !! fromCurrency = None ∨ baseRates a !! toCurrency = None →
     Forall (λ p, pairCode p ≠ direct ∧ pairCode p ≠ inverse) before →
     (pairCode cp = direct →
        calculateCrossCurrencyRate a fromCurrency toCurrency = price cp) ∧
     (pairCode cp ≠ direct → pairCode cp = inverse →
        calculateCrossCurrencyRate a fromCurrency toCurrency = (1 / price cp)%float)).
Proof.
  intros Hpairs direct inverse. split; [|split; [|split]].
  - intros Hcp Hbefore. unfold getExchangeRate. fold direct.
    by rewrite Hpairs, (lookupDirect_first _ _ _ _ Hbefore Hcp).
  - intros Hcp Hbefore Hnone. unfold getExchangeRate. fold direct inverse.
    rewrite (lookupDirect_none _ _ Hnone).
    by rewrite Hpairs, (lookupInverse_first _ _ _ _ Hbefore Hcp).
  - intros rateFrom rateTo Hfrom Hto. unfold calculateCrossCurrencyRate.
    by rewrite Hfrom, Hto.
  - intros Htable Hbefore.
    assert (calculateCrossCurrencyRate a fromCurrency toCurrency =
      match lookupEither direct inverse (currencyPairs a) with
      | Some rate => rate
      | None => 0%float
      end) as ->.
    { unfold calculateCrossCurrencyRate. fold direct inverse.
      destruct Htable as [-> | ->]; [done|].
      by destruct (baseRates a !! fromCurrency). }
    rewrite Hpairs, (lookupEither_first _ _ _ _ _ Hbefore). split.
    + intros Hcp. by rewrite (proj2 (String.eqb_eq _ _) Hcp).
    + intros Hnd Hcp.
      by rewrite (proj2 (String.eqb_neq _ _) Hnd), (proj2 (String.eqb_eq _ _) Hcp).
Qed.

(** C1, an instance: an analyzer whose table lacks A and B. *)
Lemma quoted_rate_precedence_witness :
  let a := mkAnalyzer
    [CurrencyPair_code "C/D" 7; CurrencyPair_code "A/B" 2]
    {["USD" := 1%float]} in
  getExchangeRate a "A" "B" = 2%float ∧
  calculateCrossCurrencyRate a "A" "B" = 2%float.
Proof.
  cbv zeta.
  pose proof (quoted_rate_precedence
    (mkAnalyzer [CurrencyPair_code "C/D" 7; CurrencyPair_code "A/B" 2] {["USD" := 1%float]})
    "A" "B" [CurrencyPair_code "C/D" 7] (CurrencyPair_code "A/B" 2) [] eq_refl)
    as (Hdirect & _ & _ & Hcross).
  split.
  - apply Hdirect; [reflexivity|repeat constructor; discriminate].
  - apply Hcross; [by left| |reflexivity].
    repeat constructor; discriminate.
Defined.

(** C1 as stated fails for [calculateCrossCurrencyRate].  With EUR/INR
    quoted at 100 while the table derives 83 / 0.5, it returns 166 where
    [getExchangeRate] returns the quoted 100; and with B/A listed before
    A/B and neither currency in the table, it returns the reciprocal of the
    first instead of the price of the second. *)
Lemma cross_rate_ignores_quote :
  (∃ a, loadPairs [CurrencyPair_code "USD/INR" 83; CurrencyPair_code "USD/EUR" 0.5;
                   CurrencyPair_code "EUR/INR" 100] = Some a ∧
        lookupDirect "EUR/INR" (currencyPairs a) = Some 100%float ∧
        baseRates a !! "EUR" = Some 0.5%float ∧
        baseRates a !! "INR" = Some 83%float ∧
        getExchangeRate a "EUR" "INR" = 100%float ∧
        calculateCrossCurrencyRate a "EUR" "INR" = 166%float) ∧
  (∃ a, loadPairs [CurrencyPair_code "B/A" 4; CurrencyPair_code "A/B" 0.5] = Some a ∧
        lookupDirect "A/B" (currencyPairs a) = Some 0.5%float ∧
        baseRates a !! "A" = None ∧ baseRates a !! "B" = None ∧
        getExchangeRate a "A" "B" = 0.5%float ∧
        calculateCrossCurrencyRate a "A" "B" = 0.25%float).
Proof.
  split; (eexists; split; [vm_compute; reflexivity|by vm_compute]).
Qed.

(** C10 (amended).  When no quote has the pair code "X/X",
    [getExchangeRate(X, X)] and [calculateCrossCurrencyRate(X, X)] return
    the double quotient [table[X] / table[X]] if X has an entry in the Base
    Rate Table: exactly 1.0 when the entry is a finite non-zero double, a
    NaN when it is zero, infinite or a NaN.  They return the 0.0 sentinel if
    X has no entry. *)
Theorem self_rate (a : CurrencyAnalyzer) (X : string) :
  Forall (λ p, pairCode p ≠ X +:+ "/" +:+ X) (currencyPairs a) →
  match baseRates a !! X with
  | Some rate =>
      getExchangeRate a X X = (rate / rate)%float ∧
      calculateCrossCurrencyRate a X X = (rate / rate)%float ∧
      (is_finite rate = true → is_zero rate = false → (rate / rate)%float = 1%float) ∧
      (is_finite rate = false ∨ is_zero rate = true → is_nan (rate / rate) = true)
  | None =>
      getExchangeRate a X X = 0%float ∧
      calculateCrossCurrencyRate a X X = 0%float
  end.
Proof.
  intros Hnone.
  assert (lookupEither (X +:+ "/" +:+ X) (X +:+ "/" +:+ X) (currencyPairs a) = None)
    as Heither.
  { apply lookupEither_none. eapply Forall_impl; [exact Hnone|]. by intros p Hp. }
  unfold getExchangeRate.
  rewrite (lookupDirect_none _ _ Hnone), (lookupInverse_none _ _ Hnone).
  unfold calculateCrossCurrencyRate. rewrite Heither.
  destruct (baseRates a !! X) as [rate|]; [|done].
  split; [done|]. split; [done|]. split; [apply div_self|apply div_self_nan].
Qed.

(** C10, two instances: INR has the entry 83, GBP has none. *)
Lemma self_rate_witness :
  let a := mkAnalyzer
    [CurrencyPair_code "USD/INR" 83; CurrencyPair_code "GBP/CHF" 1.1]
    {["USD" := 1%float; "INR" := 83%float]} in
  (getExchangeRate a "INR" "INR" = 1%float ∧
   calculateCrossCurrencyRate a "INR" "INR" = 1%float) ∧
  (getExchangeRate a "GBP" "GBP" = 0%float ∧
   calculateCrossCurrencyRate a "GBP" "GBP" = 0%float).
Proof.
  cbv zeta. split.
  - destruct (self_rate
      (mkAnalyzer [CurrencyPair_code "USD/INR" 83; CurrencyPair_code "GBP/CHF" 1.1]
         {["USD" := 1%float; "INR" := 83%float]})
      "INR" ltac:(repeat constructor; discriminate)) as (Hrate & Hcross & Hone & _).
    rewrite Hrate, Hcross. split; apply Hone; reflexivity.
  - exact (self_rate
      (mkAnalyzer [CurrencyPair_code "USD/INR" 83; CurrencyPair_code "GBP/CHF" 1.1]
         {["USD" := 1%float; "INR" := 83%float]})
      "GBP" ltac:(repeat constructor; discriminate)).
Defined.

(** C10 as stated fails: a quote USD/XYZ with price 0 (what the readers
    store for a missing or unreadable price) puts 0.0 in the table for XYZ,
    and the self-rate of XYZ is 0.0 / 0.0, a NaN, not 1.0. *)
Lemma self_rate_of_zero_entry :
  ∃ a, loadPairs [CurrencyPair_code "USD/XYZ" 0] = Some a ∧
       Forall (λ p, pairCode p ≠ "XYZ/XYZ") (currencyPairs a) ∧
       baseRates a !! "XYZ" = Some 0%float ∧
       getExchangeRate a "XYZ" "XYZ" = nan ∧
       calculateCrossCurrencyRate a "XYZ" "XYZ" = nan ∧
       (nan =? 1)%float = false.
Proof.
  eexists. split; [vm_compute; reflexivity|].
  split; [repeat constructor; discriminate|]. by vm_compute.
Qed.

(** * The arbitrage scan *)

Lemma elem_of_set_insert x y s : x ∈ set_insert y s ↔ x = y ∨ x ∈ s.
Proof.
  induction s as [|z s IH]; cbn.
  { rewrite list_elem_of_singleton, elem_of_nil. tauto. }
  destruct (String.compare y z) eqn:Hcmp.
  - apply String.compare_eq_iff in Hcmp as ->. rewrite elem_of_cons. tauto.
  - rewrite !elem_of_cons. tauto.
  - rewrite !elem_of_cons, IH. tauto.
Qed.

(** The available currencies are the currencies the quotes mention. *)
Lemma elem_of_getAvailableCurrencies (a : CurrencyAnalyzer) (c : string) :
  c ∈ getAvailableCurrencies a ↔ c ∈ currencySet (currencyPairs a).
Proof.
  unfold getAvailableCurrencies.
  assert (∀ pairs acc,
    c ∈ fold_left (λ currencies pair,
           set_insert (quoteCurrency pair) (set_insert (baseCurrency pair) currencies))
         pairs acc ↔ c ∈ acc ∨ c ∈ currencySet pairs) as Hfold.
  { induction pairs as [|p ps IH]; intros acc; cbn [fold_left].
    - split; [by left|]. intros [?|Hc]; [done|].
      apply elem_of_currencySet in Hc as (q & Hq & _). by apply elem_of_nil in Hq.
    - rewrite IH, !elem_of_set_insert. split.
      + intros [[->|[->|?]]|?]; auto using currencySet_head, currencySet_tail.
      + intros [?|Hc]; [auto|].
        apply elem_of_currencySet in Hc as (q & Hq & Hc).
        apply elem_of_cons in Hq as [->|Hq]; [tauto|].
        right. apply elem_of_currencySet. eauto. }
  rewrite Hfold, elem_of_nil. tauto.
Qed.





Lemma arbitrageExample_loaded :
  loadPairs (currencyPairs arbitrageExample) = Some arbitrageExample.
Proof. by vm_compute. Qed.



(** * The performance ranker *)

(** ** Functions that meet the contract of std::sort *)

Lemma StrictWeakOn_asym {A} (comp : A → A → bool) v x y :
  StrictWeakOn comp v → x ∈ v → y ∈ v → comp x y = true → comp y x = false.
Proof.
  intros Hswo Hx Hy Hxy. destruct (comp y x) eqn:Hyx; [|done].
  rewrite <-(swo_irrefl _ _ Hswo x Hx). symmetry.
  by apply (swo_trans _ _ Hswo x y x).
Qed.

Lemma StrictWeakOn_subseteq {A} (comp : A → A → bool) v w :
  (∀ x, x ∈ w → x ∈ v) → StrictWeakOn comp v → StrictWeakOn comp w.
Proof.
  intros Hsub [Hirr Htr Heq]. split.
  - intros x ?. apply Hirr; auto.
  - intros x y z ???. apply Htr; auto.
  - intros x y z ???. apply Heq; auto.
Qed.

Lemma sorted_insert_Permutation {A} (comp : A → A → bool) x v :
  sorted_insert comp x v ≡ₚ x :: v.
Proof.
  induction v as [|y v IH]; cbn; [done|].
  destruct (comp x y); [done|]. rewrite IH. apply Permutation_swap.
Qed.

Lemma insertion_fold_Permutation {A} (comp : A → A → bool) v acc :
  fold_left (λ sorted x, sorted_insert comp x sorted) v acc ≡ₚ v ++ acc.
Proof.
  revert acc. induction v as [|x v IH]; intros acc; cbn [fold_left]; [done|].
  rewrite IH, sorted_insert_Permutation. symmetry. apply Permutation_middle.
Qed.

Lemma insertion_sort_Permutation {A} (comp : A → A → bool) v :
  insertion_sort comp v ≡ₚ v.
Proof.
  unfold insertion_sort. by rewrite insertion_fold_Permutation, app_nil_r.
Qed.

Lemma sorted_insert_sorted {A} (comp : A → A → bool) (u : list A) x v :
  StrictWeakOn comp u → x ∈ u → (∀ y, y ∈ v → y ∈ u) →
  StronglySorted (λ a b, comp b a = false) v →
  StronglySorted (λ a b, comp b a = false) (sorted_insert comp x v).
Proof.
  intros Hswo Hx. induction v as [|y v IH]; intros Hv Hsorted; cbn.
  { repeat constructor. }
  apply StronglySorted_cons in Hsorted as [Hy Hsorted].
  rewrite Forall_forall in Hy.
  destruct (comp x y) eqn:Hxy.
  - apply StronglySorted_cons. split.
    + apply Forall_forall. intros z Hz. apply elem_of_cons in Hz as [->|Hz].
      * eapply StrictWeakOn_asym; eauto. apply Hv. by left.
      * destruct (comp z x) eqn:Hzx; [|done].
        rewrite <-(Hy z Hz). symmetry.
        apply (swo_trans _ _ Hswo z x y); auto; apply Hv; [by right|by left].
    + apply StronglySorted_cons. by rewrite Forall_forall.
  - apply StronglySorted_cons. split.
    + apply Forall_forall. intros z Hz.
      rewrite sorted_insert_Permutation in Hz.
      apply elem_of_cons in Hz as [->|Hz]; auto.
    + apply IH; [|done]. intros z Hz. apply Hv. by right.
Qed.

Lemma insertion_fold_sorted {A} (comp : A → A → bool) (u : list A) v acc :
  StrictWeakOn comp u → (∀ y, y ∈ v → y ∈ u) → (∀ y, y ∈ acc → y ∈ u) →
  StronglySorted (λ a b, comp b a = false) acc →
  StronglySorted (λ a b, comp b a = false)
    (fold_left (λ sorted x, sorted_insert comp x sorted) v acc).
Proof.
  intros Hswo. revert acc. induction v as [|x v IH]; intros acc Hv Hacc Hsorted;
    cbn [fold_left]; [done|].
  apply IH.
  - intros y Hy. apply Hv. by right.
  - intros y Hy. rewrite sorted_insert_Permutation in Hy.
    apply elem_of_cons in Hy as [->|Hy]; [apply Hv; by left|by apply Hacc].
  - eapply sorted_insert_sorted; eauto. apply Hv. by left.
Qed.

Lemma insertion_sort_conforms {A} : StdSort (@insertion_sort A).
Proof.
  split.
  - intros comp v _. apply insertion_sort_Permutation.
  - intros comp v Hswo. unfold insertion_sort.
    apply (insertion_fold_sorted comp v); auto.
    + by intros y Hy%elem_of_nil.
    + constructor.
Qed.

Lemma reversing_sort_conforms {A} : StdSort (@reversing_sort A).
Proof.
  split.
  - intros comp v _. unfold reversing_sort.
    by rewrite insertion_sort_Permutation, reverse_Permutation.
  - intros comp v Hswo. unfold reversing_sort.
    apply (sort_sorted _ insertion_sort_conforms).
    eapply StrictWeakOn_subseteq; [|exact Hswo].
    intros x. by rewrite elem_of_reverse.
Qed.

Lemma StronglySorted_reverse {A} (R : relation A) l :
  StronglySorted R l → StronglySorted (flip R) (reverse l).
Proof.
  induction 1 as [|x l Hl IH Hx]; [constructor|].
  rewrite reverse_cons. apply StronglySorted_app_2; [|done|repeat constructor].
  intros y z Hy Hz. apply list_elem_of_singleton in Hz as ->.
  rewrite Forall_forall in Hx. apply Hx. by apply elem_of_reverse.
Qed.

(** ** The comparators *)

Lemma metricGreater_swo metric pairs :
  metricComparable metric pairs → StrictWeakOn (metricGreater metric) pairs.
Proof.
  unfold metricComparable, metricGreater. rewrite Forall_forall. intros Hnan. split.
  - intros x _. apply ltb_irrefl.
  - intros x y z _ _ _ Hxy Hyz. by apply (ltb_trans _ _ _ Hyz Hxy).
  - intros x y z Hx Hy Hz H1 H2 H3 H4.
    destruct (ltb_incomparable_trans (getChangeByMetric x metric)
      (getChangeByMetric y metric) (getChangeByMetric z metric)); auto using is_nan_false.
Qed.

Lemma metricLess_swo metric pairs :
  metricComparable metric pairs → StrictWeakOn (metricLess metric) pairs.
Proof.
  unfold metricComparable, metricLess. rewrite Forall_forall. intros Hnan. split.
  - intros x _. apply ltb_irrefl.
  - intros x y z _ _ _ Hxy Hyz. by apply (ltb_trans _ _ _ Hxy Hyz).
  - intros x y z Hx Hy Hz H1 H2 H3 H4.
    destruct (ltb_incomparable_trans (getChangeByMetric x metric)
      (getChangeByMetric y metric) (getChangeByMetric z metric)); auto using is_nan_false.
Qed.

Lemma metricTie_refl metric x : metricTie metric x x = true.
Proof. unfold metricTie. by rewrite ltb_irrefl. Qed.

Lemma metricDistinct_lookup metric pairs i j x y :
  metricDistinct metric pairs = true →
  pairs !! i = Some x → pairs !! j = Some y → i ≠ j →
  metricTie metric x y = false.
Proof.
  assert (∀ x y, metricTie metric x y = metricTie metric y x) as Hsym.
  { intros ??. unfold metricTie. apply andb_comm. }
  revert i j. induction pairs as [|p pairs IH]; intros i j Hd Hi Hj Hij; [done|].
  cbn in Hd. apply andb_true_iff in Hd as [Hp Hd].
  rewrite forallb_forall in Hp.
  destruct i as [|i], j as [|j]; cbn in Hi, Hj; simplify_eq.
  - apply negb_true_iff, Hp, list_elem_of_In. by eapply list_elem_of_lookup_2.
  - rewrite Hsym. apply negb_true_iff, Hp, list_elem_of_In.
    by eapply list_elem_of_lookup_2.
  - apply (IH i j); auto.
Qed.

Lemma metricDistinct_tie_eq metric pairs x y :
  metricDistinct metric pairs = true → x ∈ pairs → y ∈ pairs →
  metricTie metric x y = true → x = y.
Proof.
  intros Hd [i Hi]%list_elem_of_lookup [j Hj]%list_elem_of_lookup Htie.
  destruct (decide (i = j)) as [->|Hij]; [congruence|].
  by rewrite (metricDistinct_lookup _ _ _ _ _ _ Hd Hi Hj Hij) in Htie.
Qed.

Lemma metricDistinct_NoDup metric pairs :
  metricDistinct metric pairs = true → NoDup pairs.
Proof.
  intros Hd. apply NoDup_alt. intros i j x Hi Hj.
  destruct (decide (i = j)) as [|Hij]; [done|].
  pose proof (metricDistinct_lookup _ _ _ _ _ _ Hd Hi Hj Hij) as Htie.
  by rewrite metricTie_refl in Htie.
Qed.

Lemma metricDistinct_swo metric pairs :
  metricDistinct metric pairs = true →
  StrictWeakOn (metricGreater metric) pairs ∧ StrictWeakOn (metricLess metric) pairs.
Proof.
  intros Hd.
  assert (∀ x y, x ∈ pairs → y ∈ pairs →
    (getChangeByMetric x metric <? getChangeByMetric y metric)%float = false →
    (getChangeByMetric y metric <? getChangeByMetric x metric)%float = false → x = y)
    as Heq.
  { intros x y Hx Hy H1 H2. apply (metricDistinct_tie_eq metric pairs); auto.
    unfold metricTie. by rewrite H1, H2. }
  unfold metricGreater, metricLess. split; split.
  - intros x _. apply ltb_irrefl.
  - intros x y z _ _ _ Hxy Hyz. by apply (ltb_trans _ _ _ Hyz Hxy).
  - intros x y z Hx Hy Hz H1 H2 H3 H4.
    assert (x = y) as -> by (by apply Heq).
    assert (y = z) as -> by (by apply Heq).
    by rewrite ltb_irrefl.
  - intros x _. apply ltb_irrefl.
  - intros x y z _ _ _ Hxy Hyz. by apply (ltb_trans _ _ _ Hxy Hyz).
  - intros x y z Hx Hy Hz H1 H2 H3 H4.
    assert (x = y) as -> by (by apply Heq).
    assert (y = z) as -> by (by apply Heq).
    by rewrite ltb_irrefl.
Qed.

(** ** The result count *)

Lemma static_cast_int_small z :
  (- 2 ^ 31 ≤ z < 2 ^ 31)%Z → static_cast_int z = z.
Proof. intros Hz. unfold static_cast_int. rewrite Z.mod_small; lia. Qed.

Lemma vector_prefix_clamped {A} (v : list A) (count : Z) :
  (Z.of_nat (length v) < 2 ^ 31)%Z → (0 ≤ count)%Z →
  vector_prefix v (Z.min count (static_cast_int (Z.of_nat (length v))))
  = Some (take (Z.to_nat count) v).
Proof.
  intros Hlen Hcount. rewrite static_cast_int_small by lia.
  unfold vector_prefix.
  destruct (Z.ltb_spec (Z.min count (Z.of_nat (length v))) 0) as [|_]; [lia|].
  f_equal. destruct (Z.min_spec count (Z.of_nat (length v))) as [[_ ->]|[Hle ->]]; [done|].
  rewrite Nat2Z.id, !take_ge by lia. done.
Qed.

Lemma take_reverse_disjoint {A} (v : list A) (n : nat) x :
  NoDup v → 2 * n ≤ length v → x ∈ take n v → x ∈ take n (reverse v) → False.
Proof.
  intros Hnd Hn [i [Hi Hin]]%elem_of_take [j [Hj Hjn]]%elem_of_take.
  apply reverse_lookup_Some in Hj as [Hj Hjl].
  pose proof (NoDup_lookup _ _ _ _ Hnd Hi Hj). lia.
Qed.

(** ** getTopPerformers and getWorstPerformers *)

Lemma rankExample_loaded : loadPairs (currencyPairs rankExample) = Some rankExample.
Proof. by vm_compute. Qed.

Lemma tieExample_loaded : loadPairs (currencyPairs tieExample) = Some tieExample.
Proof. by vm_compute. Qed.

Section RankerFacts.
Variable std_sort :
  (CurrencyPair → CurrencyPair → bool) → list CurrencyPair → list CurrencyPair.
Hypothesis std_sort_conforms : StdSort std_sort.

(** C4 (amended).  [getTopPerformers(metric, n)] sorts a copy of the quote
    collection with [std::sort], which is not a stable sort, and
    [getWorstPerformers(metric, n)] likewise: when the metric values can be
    compared (none is a NaN) and [n >= 0], the result is the first
    [min(n, size)] elements of a rearrangement of the collection in which no
    record has a smaller (for the worst performers: greater) metric value
    than a later one.  The order among records with equal metric values is
    whatever [std::sort] leaves. *)
Theorem performers_sorted_prefix (a : CurrencyAnalyzer) (metric : string) (count : Z) :
  metricComparable metric (currencyPairs a) →
  (Z.of_nat (length (currencyPairs a)) < 2 ^ 31)%Z →
  (0 ≤ count)%Z →
  ∃ descending ascending : list CurrencyPair,
    descending ≡ₚ currencyPairs a ∧
    StronglySorted
      (λ x y, (getChangeByMetric x metric <? getChangeByMetric y metric)%float = false)
      descending ∧
    getTopPerformers std_sort a metric count = Some (take (Z.to_nat count) descending) ∧
    ascending ≡ₚ currencyPairs a ∧
    StronglySorted
      (λ x y, (getChangeByMetric y metric <? getChangeByMetric x metric)%float = false)
      ascending ∧
    getWorstPerformers std_sort a metric count = Some (take (Z.to_nat count) ascending).
Proof.
  intros Hnan Hlen Hcount.
  pose proof (metricGreater_swo _ _ Hnan) as Hgt.
  pose proof (metricLess_swo _ _ Hnan) as Hlt.
  exists (std_sort (metricGreater metric) (currencyPairs a)),
         (std_sort (metricLess metric) (currencyPairs a)).
  pose proof (sort_permutation _ std_sort_conforms _ _ Hgt) as Hp1.
  pose proof (sort_permutation _ std_sort_conforms _ _ Hlt) as Hp2.
  split; [done|]. split; [exact (sort_sorted _ std_sort_conforms _ _ Hgt)|].
  split; [apply vector_prefix_clamped; [by rewrite Hp1|done]|].
  split; [done|]. split; [exact (sort_sorted _ std_sort_conforms _ _ Hlt)|].
  apply vector_prefix_clamped; [by rewrite Hp2|done].
Qed.

(** The two ends of the count: nothing for 0, the whole sorted copy for a
    count above the size. *)
Lemma performers_count_edges (a : CurrencyAnalyzer) (metric : string) :
  metricComparable metric (currencyPairs a) →
  (Z.of_nat (length (currencyPairs a)) < 2 ^ 31)%Z →
  (getTopPerformers std_sort a metric 0 = Some [] ∧
   getWorstPerformers std_sort a metric 0 = Some []) ∧
  ∀ count, (Z.of_nat (length (currencyPairs a)) < count)%Z →
    getTopPerformers std_sort a metric count
      = Some (std_sort (metricGreater metric) (currencyPairs a)) ∧
    getWorstPerformers std_sort a metric count
      = Some (std_sort (metricLess metric) (currencyPairs a)).
Proof.
  intros Hnan Hlen.
  pose proof (sort_permutation _ std_sort_conforms _ _ (metricGreater_swo _ _ Hnan)) as Hp1.
  pose proof (sort_permutation _ std_sort_conforms _ _ (metricLess_swo _ _ Hnan)) as Hp2.
  unfold getTopPerformers, getWorstPerformers. split.
  - rewrite !vector_prefix_clamped by (rewrite ?Hp1, ?Hp2; lia). done.
  - intros count Hcount.
    rewrite !vector_prefix_clamped by (rewrite ?Hp1, ?Hp2; lia).
    rewrite !take_ge by (rewrite ?Hp1, ?Hp2; lia). done.
Qed.

(** C5 (amended).  When no two records of the collection have equal metric
    values, [n >= 0] and [2n <= size], the records returned by
    [getTopPerformers(metric, n)] and by [getWorstPerformers(metric, n)]
    are disjoint. *)
Theorem top_worst_disjoint (a : CurrencyAnalyzer) (metric : string) (count : Z) :
  metricDistinct metric (currencyPairs a) = true →
  (Z.of_nat (length (currencyPairs a)) < 2 ^ 31)%Z →
  (0 ≤ count)%Z →
  (2 * count ≤ Z.of_nat (length (currencyPairs a)))%Z →
  ∃ top worst : list CurrencyPair,
    getTopPerformers std_sort a metric count = Some top ∧
    getWorstPerformers std_sort a metric count = Some worst ∧
    ∀ x, x ∈ top → x ∉ worst.
Proof.
  intros Hd Hlen Hcount Hhalf.
  destruct (metricDistinct_swo _ _ Hd) as [Hgt Hlt].
  pose proof (sort_permutation _ std_sort_conforms _ _ Hgt) as Hp1.
  pose proof (sort_permutation _ std_sort_conforms _ _ Hlt) as Hp2.
  pose proof (sort_sorted _ std_sort_conforms _ _ Hgt) as Hs1.
  pose proof (sort_sorted _ std_sort_conforms _ _ Hlt) as Hs2.
  set (descending := std_sort (metricGreater metric) (currencyPairs a)) in *.
  set (ascending := std_sort (metricLess metric) (currencyPairs a)) in *.
  assert (ascending = reverse descending) as Hrev.
  { apply (StronglySorted_unique_strong (λ x y, metricLess metric y x = false)).
    - intros x y Hx Hy Hxy Hyx.
      apply (metricDistinct_tie_eq metric (currencyPairs a)); auto.
      + by rewrite <-Hp2.
      + by rewrite <-Hp1, <-elem_of_reverse.
      + unfold metricTie. unfold metricLess in Hxy, Hyx. by rewrite Hxy, Hyx.
    - exact Hs2.
    - apply StronglySorted_reverse in Hs1. exact Hs1.
    - by rewrite reverse_Permutation, Hp1, Hp2. }
  exists (take (Z.to_nat count) descending), (take (Z.to_nat count) ascending).
  split; [apply vector_prefix_clamped; [by rewrite Hp1|done]|].
  split; [apply vector_prefix_clamped; [by rewrite Hp2|done]|].
  intros x Htop Hworst. rewrite Hrev in Hworst.
  apply (take_reverse_disjoint descending (Z.to_nat count) x); auto.
  - rewrite Hp1. by eapply metricDistinct_NoDup.
  - rewrite Hp1. lia.
Qed.

(** C8 at a negative count.  Whatever the collection and the metric,
    [getTopPerformers(metric, -1)] and [getWorstPerformers(metric, -1)]
    do not return an empty list: [std::min] yields -1 and the result vector
    is built from the iterator pair [begin(), begin() - 1], which is
    undefined behaviour. *)
Theorem negative_count_undefined (a : CurrencyAnalyzer) (metric : string) :
  getTopPerformers std_sort a metric (-1) = None ∧
  getWorstPerformers std_sort a metric (-1) = None.
Proof.
  unfold getTopPerformers, getWorstPerformers, vector_prefix.
  split; match goal with |- context [(?n <? 0)%Z] =>
    destruct (Z.ltb_spec n 0) as [|Hge]; [done|lia] end.
Qed.

End RankerFacts.

(** C4, an instance: the two strongest and the two weakest of
    [rankExample] by weekly change. *)
Lemma performers_sorted_prefix_witness :
  ∃ descending ascending : list CurrencyPair,
    descending ≡ₚ currencyPairs rankExample ∧
    StronglySorted
      (λ x y, (getChangeByMetric x "Weekly" <? getChangeByMetric y "Weekly")%float = false)
      descending ∧
    getTopPerformers insertion_sort rankExample "Weekly" 2 = Some (take 2 descending) ∧
    ascending ≡ₚ currencyPairs rankExample ∧
    StronglySorted
      (λ x y, (getChangeByMetric y "Weekly" <? getChangeByMetric x "Weekly")%float = false)
      ascending ∧
    getWorstPerformers insertion_sort rankExample "Weekly" 2 = Some (take 2 ascending).
Proof.
  apply (performers_sorted_prefix insertion_sort insertion_sort_conforms
           rankExample "Weekly" 2).
  - repeat constructor.
  - by vm_compute.
  - lia.
Defined.

(** C4 as stated fails: [std::sort] promises no stability.
    [reversing_sort] meets its contract, and with it the two records of
    [tieExample], whose weekly changes are equal, come back in the opposite
    order.  GCC's [std::sort] itself reorders ties once a range has more
    than 16 elements: of the seventeen quotes of [flatWeek], all with a
    weekly change of 0, the top three are the ninth, the last and the last
    but one, not the first three. *)
Lemma tie_order_not_preserved :
  (StdSort (@reversing_sort CurrencyPair) ∧
   currencyPairs tieExample = [tiedFirst; tiedSecond] ∧
   getChangeByMetric tiedFirst "Weekly" = getChangeByMetric tiedSecond "Weekly" ∧
   getTopPerformers reversing_sort tieExample "Weekly" 2 = Some [tiedSecond; tiedFirst] ∧
   getWorstPerformers reversing_sort tieExample "Weekly" 2
   = Some [tiedSecond; tiedFirst]) ∧
  (Forall (λ p, getChangeByMetric p "Weekly" = 0%float) flatWeek ∧
   pairCode <$> take 3 flatWeek = ["USD/AED"; "USD/AUD"; "USD/BRL"] ∧
   is_Some (LibStdCxx.sort (metricGreater "Weekly") flatWeek) ∧
   ∃ a top, loadPairs flatWeek = Some a ∧
            getTopPerformers gcc_sort a "Weekly" 3 = Some top ∧
            pairCode <$> top = ["USD/GBP"; "USD/SEK"; "USD/NZD"]).
Proof.
  split.
  - split; [apply reversing_sort_conforms|]. by vm_compute.
  - split; [by repeat constructor|]. split; [by vm_compute|].
    split; [eexists; vm_compute; reflexivity|].
    eexists _, _. split; [vm_compute; reflexivity|].
    split; [vm_compute; reflexivity|]. by vm_compute.
Qed.

(** C5, an instance: the strongest and the weakest of [rankExample]. *)
Lemma top_worst_disjoint_witness :
  ∃ top worst : list CurrencyPair,
    getTopPerformers insertion_sort rankExample "Weekly" 1 = Some top ∧
    getWorstPerformers insertion_sort rankExample "Weekly" 1 = Some worst ∧
    ∀ x, x ∈ top → x ∉ worst.
Proof.
  apply (top_worst_disjoint insertion_sort insertion_sort_conforms rankExample "Weekly" 1).
  - reflexivity.
  - by vm_compute.
  - lia.
  - by vm_compute.
Defined.

(** C5 as stated fails on ties: the two records of [tieExample] have equal
    weekly changes, [2 * 1 <= 2], and the top performer and the worst
    performer are the same record -- with [insertion_sort], which meets the
    contract of [std::sort], and with GCC's [std::sort], which is that
    insertion sort on a range this short.  On [flatWeek] GCC's top eight and
    worst eight are the same eight quotes. *)
Lemma top_and_worst_share_a_record :
  (StdSort (@insertion_sort CurrencyPair) ∧
   (2 * 1 ≤ Z.of_nat (length (currencyPairs tieExample)))%Z ∧
   getTopPerformers insertion_sort tieExample "Weekly" 1 = Some [tiedFirst] ∧
   getWorstPerformers insertion_sort tieExample "Weekly" 1 = Some [tiedFirst]) ∧
  (getTopPerformers gcc_sort tieExample "Weekly" 1 = Some [tiedFirst] ∧
   getWorstPerformers gcc_sort tieExample "Weekly" 1 = Some [tiedFirst]) ∧
  (∃ a top, loadPairs flatWeek = Some a ∧
            (2 * 8 ≤ Z.of_nat (length (currencyPairs a)))%Z ∧
            getTopPerformers gcc_sort a "Weekly" 8 = Some top ∧
            getWorstPerformers gcc_sort a "Weekly" 8 = Some top ∧
            length top = 8).
Proof.
  split; [split; [apply insertion_sort_conforms|by vm_compute]|].
  split; [by vm_compute|].
  eexists _, _. split; [vm_compute; reflexivity|]. split; [by vm_compute|].
  split; [vm_compute; reflexivity|]. by vm_compute.
Qed.

(** * Inverting a pair twice *)

Lemma find_append_separator (s rest : string) :
  StdString.find s "/" = None →
  StdString.find (s +:+ "/" +:+ rest) "/" = Some (String.length s).
Proof.
  induction s as [|c s IH]; simpl; [done|].
  destruct (Ascii.eqb c "/"); [done|].
  destruct (StdString.find s "/"); [done|]. intros _. by rewrite IH.
Qed.

Lemma substr_prefix (s rest : string) :
  StdString.substr (s +:+ rest) 0 (Some (String.length s)) = s.
Proof.
  unfold StdString.substr. change (StdString.skip 0 (s +:+ rest)) with (s +:+ rest).
  induction s as [|c s IH]; simpl; [by destruct rest|by rewrite IH].
Qed.

Lemma substr_suffix (s rest : string) :
  StdString.substr (s +:+ "/" +:+ rest) (String.length s + 1) None = rest.
Proof.
  unfold StdString.substr. rewrite Nat.add_1_r.
  induction s as [|c s IH]; simpl; [done|exact IH].
Qed.

Lemma parsePairCode_joined (b q : string) :
  StdString.find b "/" = None → parsePairCode (b +:+ "/" +:+ q) = (b, q).
Proof.
  intros Hb. unfold parsePairCode.
  by rewrite (find_append_separator _ _ Hb), substr_prefix, substr_suffix.
Qed.

Lemma getInvertedPair_fields {D} `{Arith D} (p : CurrencyPairOf D) :
  StdString.find (quoteCurrency p) "/" = None →
  getInvertedPair p =
    mkCurrencyPair (quoteCurrency p +:+ "/" +:+ baseCurrency p)
      (quoteCurrency p) (baseCurrency p)
      (d_div d_one (price p))
      (d_div (d_opp (dayChange p)) (d_mul (price p) (price p)))
      (invertPercentage (percentChange p)) (invertPercentage (weeklyChange p))
      (invertPercentage (monthlyChange p)) (invertPercentage (ytdChange p))
      (invertPercentage (yoyChange p)) (group p) (timestamp p).
Proof.
  intros Hq. unfold getInvertedPair, CurrencyPair_full.
  by rewrite (parsePairCode_joined _ _ Hq).
Qed.

Lemma getInvertedPair_twice_fields {D} `{Arith D} (p : CurrencyPairOf D) :
  singleSeparator p →
  getInvertedPair (getInvertedPair p) =
    mkCurrencyPair (pairCode p) (baseCurrency p) (quoteCurrency p)
      (d_div d_one (d_div d_one (price p)))
      (d_div (d_opp (d_div (d_opp (dayChange p)) (d_mul (price p) (price p))))
             (d_mul (d_div d_one (price p)) (d_div d_one (price p))))
      (invertPercentage (invertPercentage (percentChange p)))
      (invertPercentage (invertPercentage (weeklyChange p)))
      (invertPercentage (invertPercentage (monthlyChange p)))
      (invertPercentage (invertPercentage (ytdChange p)))
      (invertPercentage (invertPercentage (yoyChange p)))
      (group p) (timestamp p).
Proof.
  intros (Hcode & Hb & Hq).
  rewrite (getInvertedPair_fields p Hq).
  rewrite getInvertedPair_fields by exact Hb. cbn. by rewrite Hcode.
Qed.

Section InvertedTwice.
Local Open Scope R_scope.

Lemma getChangeByMetric_cases (p : CurrencyPair) (metric : string) :
  metric ∈ metrics →
  (metric = "Percent Change" ∧ getChangeByMetric p metric = percentChange p) ∨
  (metric = "Weekly" ∧ getChangeByMetric p metric = weeklyChange p) ∨
  (metric = "Monthly" ∧ getChangeByMetric p metric = monthlyChange p) ∨
  (metric = "YTD" ∧ getChangeByMetric p metric = ytdChange p) ∨
  (metric = "YoY" ∧ getChangeByMetric p metric = yoyChange p).
Proof.
  unfold metrics. rewrite !elem_of_cons, elem_of_nil.
  intros [->|[->|[->|[->|[->|[]]]]]]; auto 10.
Qed.

(** The metrics of an inverted pair are the inverted metrics. *)
Lemma getChangeByMetric_inverted (p : CurrencyPair) (metric : string) :
  metric ∈ metrics →
  getChangeByMetric (getInvertedPair p) metric
  = invertPercentage (getChangeByMetric p metric).
Proof.
  intros Hm. unfold getInvertedPair, CurrencyPair_full.
  destruct (parsePairCode _) as [b q].
  destruct (getChangeByMetric_cases p metric Hm)
    as [[-> ->]|[[-> ->]|[[-> ->]|[[-> ->]|[-> ->]]]]]; reflexivity.
Qed.

(** C9 (amended).  For a quote record whose pair code is its base
    currency, one '/' and its quote currency, neither containing a '/',
    applying [getInvertedPair] twice returns the original pair code, base
    and quote currency, group and timestamp exactly.  Its numbers come back
    rounded: a price that is a finite double between 2^-250 and 2^250
    within the relative error 2^-51, with it a day change that is zero or
    of a magnitude between 2^-250 and 2^250 within the relative error
    2^-50, and every percent metric between -50 and 100 within 1e-12. *)
Theorem inverted_twice_restores (p : CurrencyPair) :
  singleSeparator p →
  let twice := getInvertedPair (getInvertedPair p) in
  (pairCode twice = pairCode p ∧ baseCurrency twice = baseCurrency p ∧
   quoteCurrency twice = quoteCurrency p ∧
   group twice = group p ∧ timestamp twice = timestamp p) ∧
  (is_finite (price p) = true → bpow (-250) <= F2R (price p) <= bpow 250 →
     (is_finite (price twice) = true ∧
      Rabs (F2R (price twice) - F2R (price p)) <= bpow (-51) * F2R (price p)) ∧
     (is_finite (dayChange p) = true →
      F2R (dayChange p) = 0 ∨ bpow (-250) <= Rabs (F2R (dayChange p)) <= bpow 250 →
      is_finite (dayChange twice) = true ∧
      Rabs (F2R (dayChange twice) - F2R (dayChange p))
      <= bpow (-50) * Rabs (F2R (dayChange p)))) ∧
  (∀ metric, metric ∈ metrics →
     let change := getChangeByMetric p metric in
     is_finite change = true → -50 <= F2R change <= 100 →
     is_finite (getChangeByMetric twice metric) = true ∧
     Rabs (F2R (getChangeByMetric twice metric) - F2R change) <= 1 / 10 ^ 12).
Proof.
  intros Hp twice. split; [|split].
  - subst twice. by rewrite (getInvertedPair_twice_fields p Hp).
  - intros Hfin Hrange. subst twice. rewrite (getInvertedPair_twice_fields p Hp).
    cbn [price dayChange]. split.
    + destruct (reciprocal_twice (price p) Hfin Hrange) as (_ & _ & _ & H1 & H2). done.
    + intros Hd HD. exact (dayChange_twice (dayChange p) (price p) Hfin Hrange Hd HD).
  - intros metric Hm change Hfin Hrange. subst twice change.
    rewrite !getChangeByMetric_inverted by done.
    by apply invertPercentage_twice.
Qed.

Lemma F2R_83 : F2R 83 = 83.
Proof.
  unfold F2R. change (Prim2SF 83) with (S754_finite false 5840605766746112 (-46)).
  rewrite SF2R_finite. change (-46)%Z with (- (46))%Z. rewrite bpow_neg_IZR by lia.
  change (2 ^ 46)%Z with 70368744177664%Z. lra.
Qed.

Lemma F2R_half : F2R 0.5 = 1 / 2.
Proof.
  unfold F2R. change (Prim2SF 0.5) with (S754_finite false 4503599627370496 (-53)).
  rewrite SF2R_finite. change (-53)%Z with (- (53))%Z. rewrite bpow_neg_IZR by lia.
  change (2 ^ 53)%Z with 9007199254740992%Z. lra.
Qed.

(** C9, an instance: USD/INR at 83 with a change of 0.5 percent. *)
Lemma inverted_twice_restores_witness :
  let p : CurrencyPair :=
    (mkCurrencyPair "USD/INR" "USD" "INR" 83 0.25 0.5 1 (-2) 3 4 "Asia" "")%float in
  let twice := getInvertedPair (getInvertedPair p) in
  pairCode twice = "USD/INR" ∧
  Rabs (F2R (price twice) - F2R 83) <= bpow (-51) * F2R 83 ∧
  Rabs (F2R (percentChange twice) - F2R 0.5) <= 1 / 10 ^ 12.
Proof.
  cbv zeta.
  pose proof (inverted_twice_restores
    (mkCurrencyPair "USD/INR" "USD" "INR" 83 0.25 0.5 1 (-2) 3 4 "Asia" "")%float
    ltac:(repeat split)) as ((Hcode & _) & Hnum & Hmetric).
  split; [exact Hcode|]. split.
  - refine (proj2 (proj1 (Hnum eq_refl _))). cbn [price]. rewrite F2R_83.
    pose proof (bpow_le (-250) 0 ltac:(lia)) as Hlow.
    pose proof (bpow_le 7 250 ltac:(lia)) as Hhigh.
    rewrite bpow_0 in Hlow. rewrite (bpow_IZR 7) in Hhigh by lia.
    change (2 ^ 7)%Z with 128%Z in Hhigh. lra.
  - refine (proj2 (Hmetric "Percent Change" _ eq_refl _)); [by left|].
    change (getChangeByMetric _ "Percent Change") with 0.5%float.
    rewrite F2R_half. lra.
Defined.

(** C9 as stated fails in three ways.  A pair code with two separators is
    rotated: the constructor splits "A/B/C" at the first '/', so the quote
    currency is "B/C" and two inversions give "C/A/B".  A percent change of
    1e30 comes back as infinity: the first inversion gives -100 and the
    second divides by zero.  A day change of 1 at the price 1e200 comes back
    as a NaN: the square of the price overflows and the square of its
    reciprocal underflows. *)
Lemma inverted_twice_not_restored :
  (let p := CurrencyPair_code "A/B/C" 2%float in
   StdString.find (pairCode p) "/" = Some 1%nat ∧
   (price p = 2%float ∧ percentChange p = 0%float ∧ weeklyChange p = 0%float ∧
    monthlyChange p = 0%float ∧ ytdChange p = 0%float ∧ yoyChange p = 0%float) ∧
   (baseCurrency p = "A" ∧ quoteCurrency p = "B/C") ∧
   pairCode (getInvertedPair p) = "B/C/A" ∧
   pairCode (getInvertedPair (getInvertedPair p)) = "C/A/B") ∧
  (let p : CurrencyPair :=
     (mkCurrencyPair "USD/INR" "USD" "INR" 83 0.25 1e30 0 0 0 0 "" "")%float in
   (0 <? price p)%float = true ∧ (percentChange p =? -100)%float = false ∧
   percentChange (getInvertedPair p) = (-100)%float ∧
   percentChange (getInvertedPair (getInvertedPair p)) = infinity) ∧
  (let p : CurrencyPair :=
     (mkCurrencyPair "USD/INR" "USD" "INR" 1e200 1 0 0 0 0 0 "" "")%float in
   (0 <? price p)%float = true ∧
   dayChange (getInvertedPair p) = (-0)%float ∧
   is_nan (dayChange (getInvertedPair (getInvertedPair p))) = true).
Proof. by vm_compute. Qed.

End InvertedTwice.

(** In doubles the numbers come back rounded, and away from the ranges of
    C9 not always close: a percent change of 0.5 returns as
    0.49999999999998934, one of 10000 as 9999.9999999999909, one of 1e17 as
    1.0007999171934426e+17, and one of 1e30 as infinity. *)
Example inverted_twice_in_doubles :
  invertPercentage (invertPercentage 0.5%float) = 0.49999999999998934%float ∧
  invertPercentage (invertPercentage 10000%float) = 9999.9999999999909%float ∧
  invertPercentage (invertPercentage 1e17%float) = 1.0007999171934426e+17%float ∧
  invertPercentage (invertPercentage 1e30%float) = infinity.
Proof. by vm_compute. Qed.

(** * The examples of the specification *)

Example specExample_table :
  calculateBaseRates specExample
  = Some {["USD" := 1%float; "INR" := 83%float;
           "EUR" := (1 / 1.10)%float; "JPY" := 150%float]}.
Proof. by vm_compute. Qed.

Example specExample_rates :
  ∃ a, loadPairs specExample = Some a ∧
       getExchangeRate a "EUR" "INR" = 91.299999999999997%float ∧
       getExchangeRate a "INR" "EUR" = 0.010952902519167579%float ∧
       getAvailableCurrencies a = ["EUR"; "INR"; "JPY"; "USD"].
Proof. eexists. split; [vm_compute; reflexivity|]. by vm_compute. Qed.

(** A/B = 2.0, B/C = 3.0, C/A = 0.15: the product of A→B→C→A is 0.9 and
    that loop is not reported; the loop run backwards, through the
    reciprocals, has the product 1/0.9 and is. *)
Example arbitrage_below_threshold :
  ∃ a, loadPairs [CurrencyPair_code "A/B" 2; CurrencyPair_code "B/C" 3;
                   CurrencyPair_code "C/A" 0.15] = Some a ∧
       findArbitrageOpportunities a
       = [("A→C→B→A", 11.111111111111116%float);
          ("B→A→C→B", 11.111111111111116%float);
          ("C→B→A→C", 11.111111111111116%float)].
Proof. eexists. split; [vm_compute; reflexivity|]. by vm_compute. Qed.

(** With C/A = 0.20 every rotation of the loop is reported. *)
Example arbitrage_above_threshold :
  findArbitrageOpportunities arbitrageExample
  = [("A→B→C→A", 20.000000000000018%float);
     ("B→C→A→B", 20.000000000000018%float);
     ("C→A→B→C", 20.000000000000018%float)].
Proof. by vm_compute. Qed.

(** * More facts about doubles *)

(** A double whose absolute value exceeds a non-negative bound is not a
    NaN and lies on one side of zero. *)
Lemma ltb_abs_sign t x :
  (0 <=? t)%float = true → (t <? abs x)%float = true →
  is_nan x = false ∧ ((0 <? x)%float = true ∨ (x <? 0)%float = true).
Proof.
  rewrite is_nan_SF, leb_spec, !ltb_spec, abs_spec.
  change (Prim2SF 0) with (S754_zero false).
  destruct (Prim2SF t) as [st|st| |st mt et], (Prim2SF x) as [s|s| |s m e];
    cbn; try discriminate; intros Ht Hx; try (destruct st; discriminate);
    destruct s; auto.
Qed.

Lemma ltb_asym x y : (x <? y)%float = true → (y <? x)%float = false.
Proof.
  intros Hxy. destruct (y <? x)%float eqn:Hyx; [|done].
  by rewrite <-(ltb_irrefl x), (ltb_trans _ _ _ Hxy Hyx).
Qed.

Lemma binary_round_aux_sign sx mx ex lx :
  binary_round_aux prec emax sx mx ex lx = S754_nan ∨
  (∃ m e, binary_round_aux prec emax sx mx ex lx = S754_finite sx m e) ∨
  binary_round_aux prec emax sx mx ex lx = S754_zero sx ∨
  binary_round_aux prec emax sx mx ex lx = S754_infinity sx.
Proof.
  unfold binary_round_aux.
  destruct (shr_fexp prec emax mx ex lx) as [mrs' e'].
  destruct (shr_fexp prec emax _ e' loc_Exact) as [mrs'' e''].
  destruct (shr_m mrs''); eauto.
  destruct (_ <=? _)%Z; eauto.
Qed.

(** A product below zero has factors on opposite sides of zero. *)
Lemma mul_ltb_zero x y :
  (x * y <? 0)%float = true →
  ((0 <? x)%float = true ∧ (y <? 0)%float = true) ∨
  ((x <? 0)%float = true ∧ (0 <? y)%float = true).
Proof.
  rewrite !ltb_spec, mul_spec.
  change (Prim2SF 0) with (S754_zero false).
  destruct (Prim2SF x) as [sx|sx| |sx mx ex], (Prim2SF y) as [sy|sy| |sy my ey];
    cbn; try discriminate; try (destruct sx, sy; cbn; auto; discriminate).
  unfold SF64mul, SFmul.
  destruct (binary_round_aux_sign (xorb sx sy) (Z.pos (mx * my)) (ex + ey) loc_Exact)
    as [->|[(m & e & ->)|[->| ->]]]; destruct sx, sy; cbn; auto; discriminate.
Qed.

Lemma leb_not_ltb x y : (x <=? y)%float = true → (y <? x)%float = false.
Proof.
  rewrite leb_spec, ltb_spec. unfold SFleb, SFltb, SFcompare.
  destruct (Prim2SF x) as [sx|sx| |sx mx ex], (Prim2SF y) as [sy|sy| |sy my ey];
    try discriminate; try reflexivity;
    try (destruct sx, sy; try discriminate; try reflexivity; fail).
  destruct sx, sy; try discriminate; try reflexivity; sf_cmp.
Qed.

Lemma ltb_abs_NaN t x : is_nan x = true → (t <? abs x)%float = false.
Proof.
  rewrite is_nan_SF, ltb_spec, abs_spec.
  destruct (Prim2SF x); try discriminate. intros _.
  unfold SFltb, SFcompare. by destruct (Prim2SF t).
Qed.

Lemma sub_self x : is_finite x = true → (x - x)%float = 0%float.
Proof.
  rewrite is_finite_SF. intros Hfinite. apply Prim2SF_inj. rewrite sub_spec.
  change (Prim2SF 0) with (S754_zero false).
  destruct (Prim2SF x) as [s|s| |s m e]; try discriminate.
  - destruct s; reflexivity.
  - unfold SF64sub, SFsub. rewrite Z.sub_diag. reflexivity.
Qed.

Lemma sub_self_nan x : is_finite x = false → is_nan (x - x) = true.
Proof.
  rewrite is_finite_SF, is_nan_SF, sub_spec.
  destruct (Prim2SF x) as [s|s| |s m e]; try discriminate; try reflexivity.
  destruct s; reflexivity.
Qed.

Lemma float_sign_cases x :
  ((x =? 0)%float = true ∧ (0 <=? x)%float = true) ∨
  ((0 <? x)%float = true ∧ (x =? 0)%float = false ∧ (0 <=? x)%float = true) ∨
  ((x <? 0)%float = true ∧ (x =? 0)%float = false ∧ (0 <=? x)%float = false) ∨
  (is_nan x = true ∧ (x =? 0)%float = false ∧ (0 <=? x)%float = false).
Proof.
  rewrite is_nan_SF, !ltb_spec, !leb_spec, !FloatAxioms.eqb_spec.
  change (Prim2SF 0) with (S754_zero false).
  destruct (Prim2SF x) as [s|s| |s m e]; cbn; try destruct s; cbn; tauto.
Qed.

(** * The base-rate table: what it holds when the loop ends *)

Lemma propagateLoop_fixpoint pairs fuel rates rates' :
  propagateLoop fuel pairs rates = Some rates' →
  propagatePass pairs rates' = (rates', false).
Proof.
  revert rates. induction fuel as [|fuel IH]; intros rates; [done|].
  cbn [propagateLoop].
  destruct (propagatePass pairs rates) as [rates1 updated] eqn:Hpass.
  destruct updated; [apply IH|].
  intros [= <-]. apply propagatePass_spec in Hpass as Hspec.
  destruct Hspec as (_ & _ & ->). done.
Qed.

Lemma propagateLoop_invariant (P : gmap string float → Prop) pairs fuel rates rates' :
  (∀ r, P r → P (propagatePass pairs r).1) →
  P rates → propagateLoop fuel pairs rates = Some rates' → P rates'.
Proof.
  intros Hstep. revert rates. induction fuel as [|fuel IH]; intros rates HP; [done|].
  cbn [propagateLoop]. pose proof (Hstep _ HP) as HP1.
  destruct (propagatePass pairs rates) as [rates1 updated].
  destruct updated; [by apply IH|]. by intros [= <-].
Qed.

Lemma propagate_fold_flag pairs rates :
  (fold_left propagateStep pairs (rates, true)).2 = true.
Proof.
  destruct (propagate_fold_spec pairs rates true) as (_ & _ & [[-> _]|[-> _]]); done.
Qed.

(** A pass that leaves the flag down met no quote with exactly one currency
    in the table. *)
Lemma propagate_fold_quiet pairs rates rates' :
  fold_left propagateStep pairs (rates, false) = (rates', false) →
  Forall (λ pair, is_Some (rates !! baseCurrency pair) ↔
                  is_Some (rates !! quoteCurrency pair)) pairs.
Proof.
  revert rates'. induction pairs as [|p ps IH]; intros rates'; [constructor|].
  cbn [fold_left]. unfold propagateStep at 2.
  destruct (rates !! baseCurrency p) as [b|] eqn:Hb,
           (rates !! quoteCurrency p) as [q|] eqn:Hq.
  - intros Hfold. constructor; [|by eapply IH].
    rewrite Hb, Hq. split; eauto.
  - intros Hfold. pose proof (propagate_fold_flag ps (<[quoteCurrency p:=(b * price p)%float]> rates)) as Hflag.
    by rewrite Hfold in Hflag.
  - intros Hfold. pose proof (propagate_fold_flag ps (<[baseCurrency p:=(q / price p)%float]> rates)) as Hflag.
    by rewrite Hfold in Hflag.
  - intros Hfold. constructor; [|by eapply IH].
    rewrite Hb, Hq. split; intros []; done.
Qed.

Lemma calculateBaseRates_closed pairs rates :
  calculateBaseRates pairs = Some rates →
  propagatePass pairs rates = (rates, false) ∧
  Forall (λ pair, is_Some (rates !! baseCurrency pair) ↔
                  is_Some (rates !! quoteCurrency pair)) pairs.
Proof.
  intros Hrates. apply propagateLoop_fixpoint in Hrates.
  split; [done|]. by eapply propagate_fold_quiet.
Qed.

(** ** Keys are reachable *)

Lemma linked_base_quote pairs pair :
  pair ∈ pairs → linked pairs (baseCurrency pair) (quoteCurrency pair).
Proof. intros Hp. exists pair. auto. Qed.

Lemma linked_quote_base pairs pair :
  pair ∈ pairs → linked pairs (quoteCurrency pair) (baseCurrency pair).
Proof. intros Hp. exists pair. auto. Qed.

Lemma seed_fold_reachable pairs ps rates :
  (∀ p, p ∈ ps → p ∈ pairs) →
  (∀ c, is_Some (rates !! c) → reachable pairs c) →
  ∀ c, is_Some (fold_left seedStep ps rates !! c) → reachable pairs c.
Proof.
  revert rates. induction ps as [|p ps IH]; intros rates Hps Hr; [done|].
  cbn [fold_left]. apply IH; [intros q Hq; apply Hps; by right|].
  assert (p ∈ pairs) as Hp by (apply Hps; by left).
  intros c. unfold seedStep.
  destruct (String.eqb (baseCurrency p) "USD") eqn:Hb.
  { apply String.eqb_eq in Hb.
    destruct (decide (c = quoteCurrency p)) as [->|Hc].
    - intros _. apply rtc_once. rewrite <-Hb. by apply linked_base_quote.
    - rewrite lookup_insert_ne by done. apply Hr. }
  destruct (String.eqb (quoteCurrency p) "USD") eqn:Hq; [|apply Hr].
  apply String.eqb_eq in Hq.
  destruct (decide (c = baseCurrency p)) as [->|Hc].
  - intros _. apply rtc_once. rewrite <-Hq. by apply linked_quote_base.
  - rewrite lookup_insert_ne by done. apply Hr.
Qed.

Lemma seedRates_reachable pairs c :
  is_Some (seedRates pairs !! c) → reachable pairs c.
Proof.
  unfold seedRates. destruct (decide (c = "USD")) as [->|Hc]; [intros _; apply rtc_refl|].
  rewrite lookup_insert_ne by done.
  apply seed_fold_reachable; [done|]. intros c'. rewrite lookup_empty. by intros [].
Qed.

Lemma propagate_fold_reachable pairs ps rates upd :
  (∀ p, p ∈ ps → p ∈ pairs) →
  (∀ c, is_Some (rates !! c) → reachable pairs c) →
  ∀ c, is_Some ((fold_left propagateStep ps (rates, upd)).1 !! c) → reachable pairs c.
Proof.
  revert rates upd. induction ps as [|p ps IH]; intros rates upd Hps Hr; [done|].
  cbn [fold_left].
  assert (p ∈ pairs) as Hp by (apply Hps; by left).
  assert (∀ c, is_Some ((propagateStep (rates, upd) p).1 !! c) → reachable pairs c) as Hr1.
  { intros c. unfold propagateStep.
    destruct (rates !! baseCurrency p) as [b|] eqn:Hb,
             (rates !! quoteCurrency p) as [q|] eqn:Hq; cbn [fst]; try apply Hr.
    - destruct (decide (c = quoteCurrency p)) as [->|Hc];
        [|rewrite lookup_insert_ne by done; apply Hr].
      intros _. eapply rtc_r; [apply Hr; by rewrite Hb|]. by apply linked_base_quote.
    - destruct (decide (c = baseCurrency p)) as [->|Hc];
        [|rewrite lookup_insert_ne by done; apply Hr].
      intros _. eapply rtc_r; [apply Hr; by rewrite Hq|]. by apply linked_quote_base. }
  destruct (propagateStep (rates, upd) p) as [rates1 upd1]. cbn [fst] in Hr1.
  apply IH; [intros q Hq; apply Hps; by right|done].
Qed.

Lemma calculateBaseRates_reachable pairs rates c :
  calculateBaseRates pairs = Some rates →
  is_Some (rates !! c) ↔ reachable pairs c.
Proof.
  intros Hrates. split.
  - revert c.
    refine (propagateLoop_invariant
      (λ r, ∀ c, is_Some (r !! c) → reachable pairs c) pairs _ _ _ _ _ Hrates).
    + intros r Hr. unfold propagatePass. by apply propagate_fold_reachable.
    + apply seedRates_reachable.
  - destruct (calculateBaseRates_closed _ _ Hrates) as [_ Hclosed].
    rewrite Forall_forall in Hclosed.
    destruct (calculateBaseRates_total pairs) as (rates0 & Hrates0 & Hsub & _).
    rewrite Hrates in Hrates0. injection Hrates0 as <-.
    unfold reachable. revert c.
    apply (rtc_ind_r (λ c, is_Some (rates !! c))); [|intros y z Hxy Hyz IH].
    + exists 1%float. apply (lookup_weaken (seedRates pairs)); [|done].
      unfold seedRates. apply lookup_insert_eq.
    + destruct Hyz as (p & Hp & [[<- <-]|[<- <-]]); by apply (Hclosed p Hp).
Qed.

(** X1.  The table [calculateBaseRates] returns is stable: one more pass of
    the propagation changes nothing and leaves the flag down, and no quote of
    the collection has one of its two currencies in the table and the other
    one missing. *)
Theorem table_closed_under_quotes (pairs : list CurrencyPair) :
  ∃ rates, calculateBaseRates pairs = Some rates ∧
    propagatePass pairs rates = (rates, false) ∧
    Forall (λ pair, is_Some (rates !! baseCurrency pair) ↔
                    is_Some (rates !! quoteCurrency pair)) pairs.
Proof.
  destruct (calculateBaseRates_total pairs) as (rates & Hrates & _).
  exists rates. split; [done|]. by apply calculateBaseRates_closed.
Qed.

(** X2.  The keys of the table [calculateBaseRates] returns are exactly the
    currencies that a chain of quotes connects to USD, USD itself
    included. *)
Theorem table_keys_reachable (pairs : list CurrencyPair) :
  ∃ rates, calculateBaseRates pairs = Some rates ∧
    ∀ c, is_Some (rates !! c) ↔ reachable pairs c.
Proof.
  destruct (calculateBaseRates_total pairs) as (rates & Hrates & _).
  exists rates. split; [done|]. intros c. by apply calculateBaseRates_reachable.
Qed.

(** ** Justification *)

Lemma justified_weaken pairs rates rates' c v :
  rates ⊆ rates' → justified pairs rates c v → justified pairs rates' c v.
Proof.
  intros Hsub [?|(p & Hp & H)]; [by left|]. right. exists p. split; [done|].
  destruct H as [?|[?|[(? & b & Hb & ?)|(? & q & Hq & ?)]]]; auto.
  - right; right; left. split; [done|]. exists b. split; [|done].
    by apply (lookup_weaken rates).
  - right; right; right. split; [done|]. exists q. split; [|done].
    by apply (lookup_weaken rates).
Qed.

Lemma seed_fold_justified pairs ps rates :
  (∀ p, p ∈ ps → p ∈ pairs) →
  (∀ c v, rates !! c = Some v → justified pairs ∅ c v) →
  ∀ c v, fold_left seedStep ps rates !! c = Some v → justified pairs ∅ c v.
Proof.
  revert rates. induction ps as [|p ps IH]; intros rates Hps Hr; [done|].
  cbn [fold_left]. apply IH; [intros q Hq; apply Hps; by right|].
  assert (p ∈ pairs) as Hp by (apply Hps; by left).
  intros c v. unfold seedStep.
  destruct (String.eqb (baseCurrency p) "USD") eqn:Hb.
  { apply String.eqb_eq in Hb.
    destruct (decide (c = quoteCurrency p)) as [->|Hc].
    - rewrite lookup_insert_eq. intros [= <-]. right. exists p. auto.
    - rewrite lookup_insert_ne by done. apply Hr. }
  destruct (String.eqb (quoteCurrency p) "USD") eqn:Hq; [|apply Hr].
  apply String.eqb_eq in Hq.
  destruct (decide (c = baseCurrency p)) as [->|Hc].
  - rewrite lookup_insert_eq. intros [= <-]. right. exists p. split; [done|].
    right; left. done.
  - rewrite lookup_insert_ne by done. apply Hr.
Qed.

Lemma seedRates_justified pairs c v :
  seedRates pairs !! c = Some v → justified pairs (seedRates pairs) c v.
Proof.
  unfold seedRates at 1. destruct (decide (c = "USD")) as [->|Hc].
  { rewrite lookup_insert_eq. intros [= <-]. by left. }
  rewrite lookup_insert_ne by done. intros Hv.
  apply (justified_weaken pairs ∅); [apply map_empty_subseteq|].
  revert Hv. apply seed_fold_justified; [done|]. intros c' v'. by rewrite lookup_empty.
Qed.

Lemma propagate_fold_justified pairs ps rates upd :
  (∀ p, p ∈ ps → p ∈ pairs) →
  (∀ c v, rates !! c = Some v → justified pairs rates c v) →
  let rates' := (fold_left propagateStep ps (rates, upd)).1 in
  ∀ c v, rates' !! c = Some v → justified pairs rates' c v.
Proof.
  revert rates upd. induction ps as [|p ps IH]; intros rates upd Hps Hr; [done|].
  cbn [fold_left].
  assert (p ∈ pairs) as Hp by (apply Hps; by left).
  pose proof (propagateStep_subseteq rates upd p) as Hsub.
  assert (∀ c v, (propagateStep (rates, upd) p).1 !! c = Some v →
                 justified pairs (propagateStep (rates, upd) p).1 c v) as Hr1.
  { intros c v Hv.
    destruct (rates !! c) as [v'|] eqn:Hc.
    { assert (v' = v) as ->.
      { pose proof (lookup_weaken _ _ _ _ Hc Hsub). congruence. }
      eapply justified_weaken; [exact Hsub|]. by apply Hr. }
    revert Hv Hsub. unfold propagateStep.
    destruct (rates !! baseCurrency p) as [b|] eqn:Hb,
             (rates !! quoteCurrency p) as [q|] eqn:Hq; cbn [fst]; try congruence.
    - destruct (decide (c = quoteCurrency p)) as [->|Hne];
        [|rewrite lookup_insert_ne by done; congruence].
      rewrite lookup_insert_eq. intros [= <-] Hsub. right. exists p. split; [done|].
      right; right; left. split; [done|]. exists b. split; [|done].
      by apply (lookup_weaken rates).
    - destruct (decide (c = baseCurrency p)) as [->|Hne];
        [|rewrite lookup_insert_ne by done; congruence].
      rewrite lookup_insert_eq. intros [= <-] Hsub. right. exists p. split; [done|].
      right; right; right. split; [done|]. exists q. split; [|done].
      by apply (lookup_weaken rates). }
  destruct (propagateStep (rates, upd) p) as [rates1 upd1]. cbn [fst] in Hr1.
  apply IH; [intros q Hq; apply Hps; by right|done].
Qed.

(** X3.  Every entry of the table is accounted for by a quote of the
    collection: it is USD at 1.0, or the price of a USD/c quote, or the
    reciprocal of the price of a c/USD quote, or the entry of the other
    currency of a quote multiplied by its price (c its quote currency) or
    divided by it (c its base currency). *)
Theorem table_entries_justified (pairs : list CurrencyPair) :
  ∃ rates, calculateBaseRates pairs = Some rates ∧
    ∀ c v, rates !! c = Some v → justified pairs rates c v.
Proof.
  destruct (calculateBaseRates_total pairs) as (rates & Hrates & _).
  exists rates. split; [done|].
  refine (propagateLoop_invariant
    (λ r, ∀ c v, r !! c = Some v → justified pairs r c v) pairs _ _ _ _ _ Hrates).
  - intros r Hr. unfold propagatePass. by apply propagate_fold_justified.
  - apply seedRates_justified.
Qed.

(** * Rates of a loaded analyzer *)

(** X4.  On the analyzer a load produces, [calculateCrossCurrencyRate(from,
    to)] is [table[to] / table[from]], both entries being there, when both
    currencies are connected to USD.  When one of them is not, it is the
    first quote coded from/to or to/from, its price or the reciprocal, and
    0.0 when there is none; [getExchangeRate] is 0.0 then as well. *)
Theorem cross_rate_by_reachability (pairs : list CurrencyPair) :
  ∃ rates, calculateBaseRates pairs = Some rates ∧
    ∀ fromCurrency toCurrency,
      let a := mkAnalyzer pairs rates in
      let direct := fromCurrency +:+ "/" +:+ toCurrency in
      let inverse := toCurrency +:+ "/" +:+ fromCurrency in
      (reachable pairs fromCurrency → reachable pairs toCurrency →
         ∃ rateFrom rateTo,
           rates !! fromCurrency = Some rateFrom ∧ rates !! toCurrency = Some rateTo ∧
           calculateCrossCurrencyRate a fromCurrency toCurrency = (rateTo / rateFrom)%float) ∧
      (¬ reachable pairs fromCurrency ∨ ¬ reachable pairs toCurrency →
         calculateCrossCurrencyRate a fromCurrency toCurrency
         = default 0%float (lookupEither direct inverse pairs) ∧
         (Forall (λ p, pairCode p ≠ direct ∧ pairCode p ≠ inverse) pairs →
            calculateCrossCurrencyRate a fromCurrency toCurrency = 0%float ∧
            getExchangeRate a fromCurrency toCurrency = 0%float)).
Proof.
  destruct (calculateBaseRates_total pairs) as (rates & Hrates & _).
  exists rates. split; [done|]. intros fromCurrency toCurrency a direct inverse.
  subst a.
  pose proof (calculateBaseRates_reachable pairs rates fromCurrency Hrates) as Hfrom.
  pose proof (calculateBaseRates_reachable pairs rates toCurrency Hrates) as Hto.
  split.
  - intros [rateFrom HrateFrom]%Hfrom [rateTo HrateTo]%Hto.
    exists rateFrom, rateTo. split; [done|]. split; [done|].
    unfold calculateCrossCurrencyRate. cbn [baseRates]. by rewrite HrateFrom, HrateTo.
  - intros Hnot.
    assert (calculateCrossCurrencyRate (mkAnalyzer pairs rates) fromCurrency toCurrency
            = default 0%float (lookupEither direct inverse pairs)) as Hcross.
    { unfold calculateCrossCurrencyRate. cbn [baseRates currencyPairs].
      fold direct inverse.
      destruct (rates !! fromCurrency) as [rateFrom|] eqn:HrateFrom,
               (rates !! toCurrency) as [rateTo|] eqn:HrateTo;
        try (by destruct (lookupEither direct inverse pairs)).
      destruct Hnot as [Hnot|Hnot]; destruct Hnot; [apply Hfrom|apply Hto]; eauto. }
    split; [done|]. intros Hnone.
    assert (Forall (λ p, pairCode p ≠ direct) pairs) as Hd
      by (eapply Forall_impl; [exact Hnone|]; by intros p [? ?]).
    assert (Forall (λ p, pairCode p ≠ inverse) pairs) as Hi
      by (eapply Forall_impl; [exact Hnone|]; by intros p [? ?]).
    unfold getExchangeRate. cbn [currencyPairs]. fold direct inverse.
    rewrite (lookupDirect_none _ _ Hd), (lookupInverse_none _ _ Hi), Hcross.
    by rewrite (lookupEither_none _ _ _ Hnone).
Qed.

(** X5.  When the collection holds a quote coded A/B and none coded B/A,
    [getExchangeRate(A, B)] is the price of the first A/B quote and
    [getExchangeRate(B, A)] is 1.0 divided by it. *)
Theorem exchange_rate_reciprocal (a : CurrencyAnalyzer) (A B : string)
    (before : list CurrencyPair) (cp : CurrencyPair) (after : list CurrencyPair) :
  currencyPairs a = before ++ cp :: after →
  pairCode cp = A +:+ "/" +:+ B →
  Forall (λ p, pairCode p ≠ A +:+ "/" +:+ B) before →
  Forall (λ p, pairCode p ≠ B +:+ "/" +:+ A) (currencyPairs a) →
  getExchangeRate a A B = price cp ∧
  getExchangeRate a B A = (1 / getExchangeRate a A B)%float.
Proof.
  intros Hpairs Hcp Hbefore Hnone.
  assert (getExchangeRate a A B = price cp) as Hdirect.
  { unfold getExchangeRate. by rewrite Hpairs, (lookupDirect_first _ _ _ _ Hbefore Hcp). }
  split; [done|]. rewrite Hdirect. unfold getExchangeRate.
  rewrite (lookupDirect_none _ _ Hnone).
  by rewrite Hpairs, (lookupInverse_first _ _ _ _ Hbefore Hcp).
Qed.

(** X5, an instance: A/B quoted at 2 after C/D. *)
Lemma exchange_rate_reciprocal_witness :
  let a := mkAnalyzer [CurrencyPair_code "C/D" 7; CurrencyPair_code "A/B" 2]
             {["USD" := 1%float]} in
  getExchangeRate a "A" "B" = 2%float ∧
  getExchangeRate a "B" "A" = (1 / getExchangeRate a "A" "B")%float.
Proof.
  cbv zeta.
  apply (exchange_rate_reciprocal
    (mkAnalyzer [CurrencyPair_code "C/D" 7; CurrencyPair_code "A/B" 2] {["USD" := 1%float]})
    "A" "B" [CurrencyPair_code "C/D" 7] (CurrencyPair_code "A/B" 2) [] eq_refl eq_refl).
  - repeat constructor; discriminate.
  - repeat constructor; discriminate.
Defined.

(** * The currencies and the number of opportunities *)

Lemma ascii_compare_lt_trans a b c :
  Ascii.compare a b = Lt → Ascii.compare b c = Lt → Ascii.compare a c = Lt.
Proof.
  unfold Ascii.compare. rewrite !N.compare_lt_iff. apply N.lt_trans.
Qed.

Lemma string_lt_trans x y z : string_lt x y → string_lt y z → string_lt x z.
Proof.
  unfold string_lt. revert y z. induction x as [|a x IH]; intros [|b y] [|c z]; simpl; try done.
  destruct (Ascii.compare a b) eqn:Hab; try done.
  - apply Ascii.compare_eq_iff in Hab as ->.
    destruct (Ascii.compare b c); try done. apply IH.
  - intros _. destruct (Ascii.compare b c) eqn:Hbc; try done.
    + apply Ascii.compare_eq_iff in Hbc as <-. by rewrite Hab.
    + by rewrite (ascii_compare_lt_trans _ _ _ Hab Hbc).
Qed.

Lemma string_lt_irrefl x : ¬ string_lt x x.
Proof.
  unfold string_lt. induction x as [|a x IH]; simpl; [done|].
  assert (Ascii.compare a a = Eq) as ->; [|done].
  unfold Ascii.compare. apply N.compare_refl.
Qed.

Lemma string_gt_lt x y : String.compare x y = Gt → string_lt y x.
Proof. unfold string_lt. rewrite (String.compare_antisym x y). by destruct (String.compare y x). Qed.

Lemma set_insert_sorted x s :
  StronglySorted string_lt s → StronglySorted string_lt (set_insert x s).
Proof.
  induction 1 as [|y s Hs IH Hy]; cbn; [repeat constructor|].
  destruct (String.compare x y) eqn:Hcmp.
  - by constructor.
  - constructor; [by constructor|]. constructor; [done|].
    eapply Forall_impl; [exact Hy|]. intros z. by apply string_lt_trans.
  - constructor; [done|]. apply Forall_forall. intros z Hz.
    apply elem_of_set_insert in Hz as [->|Hz]; [by apply string_gt_lt|].
    rewrite Forall_forall in Hy. by apply Hy.
Qed.

Lemma extractCurrencies_sorted pairs : StronglySorted string_lt (DataReader.extractCurrencies pairs).
Proof.
  unfold DataReader.extractCurrencies.
  assert (∀ acc, StronglySorted string_lt acc →
    StronglySorted string_lt
      (fold_left (λ currencies pair,
         set_insert (quoteCurrency pair) (set_insert (baseCurrency pair) currencies))
         pairs acc)) as Hfold.
  { induction pairs as [|p ps IH]; intros acc Hacc; cbn [fold_left]; [done|].
    by apply IH, set_insert_sorted, set_insert_sorted. }
  apply Hfold. constructor.
Qed.

Lemma sorted_NoDup (s : list string) : StronglySorted string_lt s → NoDup s.
Proof.
  induction 1 as [|y s Hs IH Hy]; constructor; [|done].
  intros Hin. rewrite Forall_forall in Hy. by apply (string_lt_irrefl y), Hy.
Qed.

Lemma getAvailableCurrencyPairs_fmap a :
  getAvailableCurrencyPairs a = pairCode <$> currencyPairs a.
Proof.
  unfold getAvailableCurrencyPairs.
  assert (∀ (ps : list CurrencyPair) acc,
    fold_left (λ pairs pair, pairs ++ [pairCode pair]) ps acc
                    = acc ++ (pairCode <$> ps)) as Hfold.
  { induction ps as [|p ps IH]; intros acc; cbn [fold_left fmap list_fmap].
    - by rewrite app_nil_r.
    - by rewrite IH, <-app_assoc. }
  apply Hfold.
Qed.

Lemma getAvailableCurrencies_sorted a :
  StronglySorted string_lt (getAvailableCurrencies a).
Proof. apply (extractCurrencies_sorted (currencyPairs a)). Qed.

Lemma getAvailableCurrencies_NoDup a : NoDup (getAvailableCurrencies a).
Proof. apply sorted_NoDup, getAvailableCurrencies_sorted. Qed.

(** X6.  [getAvailableCurrencies] returns the base and quote currencies of
    the quotes, each of them once, in strictly ascending order of their
    bytes; they are at most two per quote, and
    [DataReader::extractCurrencies] returns the same list for the same
    records. *)
Theorem available_currencies_sorted (a : CurrencyAnalyzer) :
  StronglySorted string_lt (getAvailableCurrencies a) ∧
  NoDup (getAvailableCurrencies a) ∧
  (∀ c, c ∈ getAvailableCurrencies a ↔
        ∃ pair, pair ∈ currencyPairs a ∧ (c = baseCurrency pair ∨ c = quoteCurrency pair)) ∧
  length (getAvailableCurrencies a) ≤ 2 * length (currencyPairs a) ∧
  DataReader.extractCurrencies (currencyPairs a) = getAvailableCurrencies a.
Proof.
  pose proof (getAvailableCurrencies_sorted a) as Hsorted.
  pose proof (getAvailableCurrencies_NoDup a) as Hnd.
  split; [done|]. split; [done|]. split; [|split; [|done]].
  - intros c. by rewrite elem_of_getAvailableCurrencies, elem_of_currencySet.
  - trans (length (currencyPairs a ≫= λ pair, [baseCurrency pair; quoteCurrency pair])).
    + apply submseteq_length, NoDup_submseteq; [done|].
      intros c Hc. apply elem_of_getAvailableCurrencies in Hc.
      unfold currencySet in Hc. by apply elem_of_list_to_set in Hc.
    + induction (currencyPairs a) as [|p ps IH]; [done|].
      rewrite bind_cons. cbn [app length]. lia.
Qed.

(** ** The number of opportunities *)

Lemma length_bind_skip {A B} `{EqDecision A} (f : A → list B) (m : nat) (l ex : list A) :
  NoDup l → NoDup ex → (∀ x, x ∈ ex → x ∈ l) →
  (∀ x, x ∈ ex → f x = []) →
  (∀ x, x ∈ l → length (f x) ≤ m) →
  length (l ≫= f) + length ex * m ≤ length l * m.
Proof.
  intros Hl. revert ex. induction Hl as [|x l Hx Hl IH]; intros ex Hex Hsub Hskip Hf.
  { destruct ex as [|y ex]; [done|].
    assert (y ∈ []) as Hy%elem_of_nil by (apply Hsub; by left). done. }
  rewrite bind_cons, length_app. cbn [length].
  destruct (decide (x ∈ ex)) as [Hin|Hout].
  - apply elem_of_Permutation in Hin as [ex' Hperm].
    rewrite Hperm in Hex. apply NoDup_cons in Hex as [Hx' Hex'].
    rewrite (Hskip x) by (rewrite Hperm; by left).
    rewrite Hperm. cbn [length].
    assert (length (l ≫= f) + length ex' * m ≤ length l * m); [|lia].
    apply IH; [done|..].
    + intros y Hy. assert (y ∈ x :: l) as Hy' by (apply Hsub; rewrite Hperm; by right).
      apply elem_of_cons in Hy' as [->|]; done.
    + intros y Hy. apply Hskip. rewrite Hperm. by right.
    + intros y Hy. apply Hf. by right.
  - assert (length (f x) ≤ m) by (apply Hf; by left).
    assert (length (l ≫= f) + length ex * m ≤ length l * m); [|lia].
    apply IH; [done|..].
    + intros y Hy. assert (y ∈ x :: l) as Hy' by (by apply Hsub).
      apply elem_of_cons in Hy' as [->|]; done.
    + done.
    + intros y Hy. apply Hf. by right.
Qed.

(** X7.  With k available currencies [findArbitrageOpportunities] reports
    at most k (k - 1) (k - 2) opportunities, so none at all when there are
    fewer than three currencies. *)
Theorem arbitrage_count_bound (a : CurrencyAnalyzer) :
  let k := length (getAvailableCurrencies a) in
  length (findArbitrageOpportunities a) ≤ k * (k - 1) * (k - 2) ∧
  (k < 3 → findArbitrageOpportunities a = []).
Proof.
  intros k.
  assert (length (findArbitrageOpportunities a) ≤ k * (k - 1) * (k - 2)) as Hbound.
  { unfold findArbitrageOpportunities. rewrite length_fmap. unfold arbitrageScan.
    pose proof (getAvailableCurrencies_NoDup a) as Hnd.
    set (l := getAvailableCurrencies a) in *.
    pose proof (length_bind_skip
      (λ currA, currB ← l;
         if String.eqb currA currB then [] else
         currC ← l;
         if String.eqb currA currC || String.eqb currB currC then [] else
         match arbitrageProfit a currA currB currC with
         | Some profit => [(currA, currB, currC, profit)]
         | None => []
         end)
      ((k - 1) * (k - 2)) l [] Hnd (NoDup_nil_2)) as Houter.
    cbn [length] in Houter. change (length l) with k in Houter.
    assert (∀ X M, X + 0 * M ≤ k * M → X ≤ k * M) as Harith0 by (intros; lia).
    rewrite <-Nat.mul_assoc.
    apply Harith0, Houter; [by intros x Hx%elem_of_nil..|].
    intros currA HA.
    pose proof (length_bind_skip
      (λ currB,
         if String.eqb currA currB then [] else
         currC ← l;
         if String.eqb currA currC || String.eqb currB currC then [] else
         match arbitrageProfit a currA currB currC with
         | Some profit => [(currA, currB, currC, profit)]
         | None => []
         end)
      (k - 2) l [currA] Hnd) as Hmid.
    cbn [length] in Hmid. change (length l) with k in Hmid.
    assert (∀ X, X + 1 * (k - 2) ≤ k * (k - 2) → X ≤ (k - 1) * (k - 2)) as Harith.
    { intros X. nia. }
    apply Harith, Hmid.
    - apply NoDup_singleton.
    - by intros x ->%list_elem_of_singleton.
    - intros x ->%list_elem_of_singleton. by rewrite String.eqb_refl.
    - intros currB HB.
      destruct (String.eqb currA currB) eqn:HAB; [cbn; lia|].
      apply String.eqb_neq in HAB.
      pose proof (length_bind_skip
        (λ currC,
           if String.eqb currA currC || String.eqb currB currC then [] else
           match arbitrageProfit a currA currB currC with
           | Some profit => [(currA, currB, currC, profit)]
           | None => []
           end)
        1 l [currA; currB] Hnd) as Hin.
      cbn [length] in Hin. change (length l) with k in Hin.
      assert (∀ X, X + 2 * 1 ≤ k * 1 → X ≤ k - 2) as Harith2 by (intros; lia).
      apply Harith2, Hin.
      + apply NoDup_cons. split; [by intros ->%list_elem_of_singleton|apply NoDup_singleton].
      + intros x Hx. apply elem_of_cons in Hx as [->|Hx]; [done|].
        by apply list_elem_of_singleton in Hx as ->.
      + intros x Hx. apply elem_of_cons in Hx as [->|Hx];
          [|apply list_elem_of_singleton in Hx as ->].
        * by rewrite String.eqb_refl.
        * by rewrite String.eqb_refl, orb_true_r.
      + intros currC _.
        destruct (String.eqb currA currC || String.eqb currB currC); [cbn; lia|].
        destruct (arbitrageProfit a currA currB currC); cbn; lia. }
  split; [done|]. intros Hk.
  apply length_zero_iff_nil.
  assert (k * (k - 1) * (k - 2) = 0) as Hzero; [|lia].
  destruct k as [|[|[|k']]]; cbn; lia.
Qed.

(** * Movements and trading opportunities *)

Section ReportFacts.
Variable fixed : nat → float → string.
Variable to_string : float → string.

Lemma detectSignificantMovements_filter (a : CurrencyAnalyzer) :
  detectSignificantMovements fixed a
  = movementLine fixed <$> filter (λ pair, significantMovement pair = true) (currencyPairs a).
Proof.
  unfold detectSignificantMovements.
  assert (∀ ps acc,
    fold_left (λ significantMovements pair,
       if significantMovement pair
       then significantMovements ++ [movementLine fixed pair]
       else significantMovements) ps acc
    = acc ++ (movementLine fixed <$> filter (λ pair, significantMovement pair = true) ps))
    as Hfold.
  { induction ps as [|p ps IH]; intros acc; cbn [fold_left].
    - by rewrite app_nil_r.
    - rewrite IH. destruct (significantMovement p) eqn:Hp.
      + rewrite filter_cons_True by done. by rewrite fmap_cons, <-app_assoc.
      + rewrite filter_cons_False; [done|]. by rewrite Hp. }
  apply Hfold.
Qed.

(** X8.  [detectSignificantMovements] reports, in the order of the
    collection, one line for each quote whose percent change exceeds 0.5 in
    absolute value.  Such a change is not a NaN, and the line says UP when
    it is positive and DOWN when it is negative.  A quote whose percent
    change is a NaN, or at most 0.5 in absolute value, is not reported. *)
Theorem significant_movements_report (a : CurrencyAnalyzer) :
  detectSignificantMovements fixed a
  = movementLine fixed <$> filter (λ pair, significantMovement pair = true) (currencyPairs a) ∧
  (∀ pair, significantMovement pair = true →
     is_nan (percentChange pair) = false ∧
     (((0 <? percentChange pair)%float = true ∧
       movementLine fixed pair
       = pairCode pair +:+ ": UP " +:+ fixed 2 (abs (percentChange pair)) +:+ "% to "
         +:+ fixed 4 (price pair)) ∨
      ((percentChange pair <? 0)%float = true ∧
       movementLine fixed pair
       = pairCode pair +:+ ": DOWN " +:+ fixed 2 (abs (percentChange pair)) +:+ "% to "
         +:+ fixed 4 (price pair)))) ∧
  (∀ pair, is_nan (percentChange pair) = true ∨
           (abs (percentChange pair) <=? 0.5)%float = true →
     significantMovement pair = false).
Proof.
  split; [apply detectSignificantMovements_filter|]. split.
  - intros pair Hmove. unfold significantMovement, movementThreshold in Hmove.
    destruct (ltb_abs_sign 0.5 (percentChange pair)) as [Hnan Hsign]; [done..|].
    split; [done|]. unfold movementLine.
    destruct Hsign as [Hup|Hdown].
    + left. by rewrite Hup.
    + right. by rewrite (ltb_asym _ _ Hdown).
  - intros pair [Hnan|Hle]; unfold significantMovement, movementThreshold.
    + by apply ltb_abs_NaN.
    + by apply leb_not_ltb.
Qed.

Lemma identifyTradingOpportunities_bind (a : CurrencyAnalyzer) :
  identifyTradingOpportunities fixed to_string a
  = (currencyPairs a ≫= λ pair,
       (if highVolatility pair then [volatilityLine fixed pair] else []) ++
       (if potentialReversal pair then [reversalLine fixed pair] else []))
    ++ (arbitrageLine to_string <$> findArbitrageOpportunities a).
Proof.
  unfold identifyTradingOpportunities.
  assert (∀ (opps : list (string * float)) acc,
    fold_left (λ opportunities opp, opportunities ++ [arbitrageLine to_string opp]) opps acc
    = acc ++ (arbitrageLine to_string <$> opps)) as Harb.
  { induction opps as [|o opps IH]; intros acc; cbn [fold_left].
    - by rewrite app_nil_r.
    - by rewrite IH, fmap_cons, <-app_assoc. }
  rewrite Harb. f_equal.
  assert (∀ ps acc,
    fold_left
      (λ opportunities pair,
         let opportunities :=
           if highVolatility pair then opportunities ++ [volatilityLine fixed pair]
           else opportunities in
         if potentialReversal pair then opportunities ++ [reversalLine fixed pair]
         else opportunities) ps acc
    = acc ++ (ps ≫= λ pair,
        (if highVolatility pair then [volatilityLine fixed pair] else []) ++
        (if potentialReversal pair then [reversalLine fixed pair] else []))) as Hfold.
  { induction ps as [|p ps IH]; intros acc; cbn [fold_left].
    - by rewrite app_nil_r.
    - rewrite IH, bind_cons. cbv zeta.
      destruct (highVolatility p), (potentialReversal p);
        by rewrite <-?app_assoc, ?app_nil_r. }
  apply Hfold.
Qed.

(** X9.  [identifyTradingOpportunities] lists, quote by quote, the
    high-volatility line and the reversal line of the quotes that pass the
    tests, then one line for each arbitrage opportunity.  A quote with
    either line is a significant movement as well, and a reversal line never
    names the same direction twice: the pair is up today exactly when it is
    not up this week. *)
Theorem trading_opportunities_report (a : CurrencyAnalyzer) :
  identifyTradingOpportunities fixed to_string a
  = (currencyPairs a ≫= λ pair,
       (if highVolatility pair then [volatilityLine fixed pair] else []) ++
       (if potentialReversal pair then [reversalLine fixed pair] else []))
    ++ (arbitrageLine to_string <$> findArbitrageOpportunities a) ∧
  (∀ pair, highVolatility pair = true ∨ potentialReversal pair = true →
     significantMovement pair = true) ∧
  (∀ pair, potentialReversal pair = true →
     (0 <? percentChange pair)%float = negb (0 <? weeklyChange pair)%float).
Proof.
  split; [apply identifyTradingOpportunities_bind|]. split.
  - intros pair [Hvol|Hrev]; unfold significantMovement, movementThreshold.
    + unfold highVolatility in Hvol. by apply (ltb_trans 0.5 1).
    + by apply andb_true_iff in Hrev as [_ Hhalf].
  - intros pair [Hprod _]%andb_true_iff.
    destruct (mul_ltb_zero _ _ Hprod) as [[Hpc Hwk]|[Hpc Hwk]].
    + by rewrite Hpc, (ltb_asym _ _ Hwk).
    + by rewrite Hwk, (ltb_asym _ _ Hpc).
Qed.

End ReportFacts.

(** * Loading *)

(** X10.  A load whose reader returns no record returns [false] with the
    quote collection emptied and the table of the earlier load kept: the
    available currencies and the arbitrage opportunities are empty
    afterwards, while rates between two currencies of the old table are
    still answered from it.  A load of a non-empty vector returns [true] and
    replaces the quotes and the table, whatever the analyzer held. *)
Theorem failed_load_keeps_table (a : CurrencyAnalyzer) :
  (∃ a', loadFrom a [] = Some (a', false) ∧
     currencyPairs a' = [] ∧ baseRates a' = baseRates a ∧
     getAvailableCurrencies a' = [] ∧
     findArbitrageOpportunities a' = [] ∧
     ∀ fromCurrency toCurrency rateFrom rateTo,
       baseRates a !! fromCurrency = Some rateFrom →
       baseRates a !! toCurrency = Some rateTo →
       calculateCrossCurrencyRate a' fromCurrency toCurrency = (rateTo / rateFrom)%float ∧
       getExchangeRate a' fromCurrency toCurrency = (rateTo / rateFrom)%float) ∧
  (∀ read, read ≠ [] →
     ∃ rates, calculateBaseRates read = Some rates ∧
       loadFrom a read = Some (mkAnalyzer read rates, true) ∧
       loadPairs read = Some (mkAnalyzer read rates)).
Proof.
  split.
  - eexists. split; [reflexivity|]. cbn [currencyPairs baseRates].
    do 4 (split; [reflexivity|]).
    intros fromCurrency toCurrency rateFrom rateTo Hfrom Hto.
    unfold getExchangeRate, calculateCrossCurrencyRate. cbn [currencyPairs baseRates].
    by rewrite Hfrom, Hto.
  - intros read Hread.
    destruct (calculateBaseRates_total read) as (rates & Hrates & _).
    exists rates. split; [done|].
    unfold loadFrom, loadPairs. cbn [currencyPairs baseRates].
    destruct read as [|p ps]; [done|]. by rewrite Hrates.
Qed.

(** * The placeholder history *)

Lemma string_of_uint_nonempty d :
  ∃ c rest, NilZero.string_of_uint d = String c rest.
Proof. destruct d; cbn; eauto. Qed.

Lemma setw2_negative n : (n < 0)%Z → ∃ rest, setw2 n = String "-" rest.
Proof.
  destruct n as [|p|p]; try lia. intros _. unfold setw2. cbn [Z.to_int NilZero.string_of_int].
  destruct (string_of_uint_nonempty (Pos.to_uint p)) as (c & rest & ->).
  cbn [String.length]. eauto.
Qed.

Lemma randomFactor_range r :
  (0 ≤ r)%Z →
  (0.99 <=? randomFactor r)%float = true ∧ (randomFactor r <=? 1.0098)%float = true.
Proof.
  intros Hr. unfold randomFactor.
  assert (∃ k, k < 100 ∧ Z.rem r 100 = Z.of_nat k) as (k & Hk & ->).
  { exists (Z.to_nat (Z.rem r 100)).
    pose proof (Z.rem_bound_pos r 100 Hr ltac:(lia)). lia. }
  assert (Forall (λ k,
    (0.99 <=? 1 + double_of_int (Z.of_nat k - 50) / 5000)%float = true ∧
    (1 + double_of_int (Z.of_nat k - 50) / 5000 <=? 1.0098)%float = true) (seq 0 100))
    as Hall.
  { apply Forall_forall. intros j Hj.
    assert (forallb (λ k,
      (0.99 <=? 1 + double_of_int (Z.of_nat k - 50) / 5000)%float &&
      (1 + double_of_int (Z.of_nat k - 50) / 5000 <=? 1.0098)%float) (seq 0 100) = true)
      as Hb by (by vm_compute).
    rewrite forallb_forall in Hb. apply andb_true_iff, Hb, list_elem_of_In, Hj. }
  rewrite Forall_forall in Hall. apply Hall, elem_of_seq. lia.
Qed.

Section HistoryFacts.
Variables rand_factor rand_hour rand_minute : nat → Z.

(** X11.  [getHistoricalData] returns nothing when no quote has the pair
    code, when the first quote with the code has a price equal to 0.0 (0.0
    or -0.0), and when [limit <= 0].  Otherwise it returns [limit] entries,
    the i-th one as the loop body builds it from the current price. *)
Theorem historical_data_entries (a : CurrencyAnalyzer) (currencyPair : string) (limit : Z) :
  let history := getHistoricalData rand_factor rand_hour rand_minute a currencyPair limit in
  (lookupDirect currencyPair (currencyPairs a) = None → history = []) ∧
  (∀ currentPrice, lookupDirect currencyPair (currencyPairs a) = Some currentPrice →
     ((currentPrice =? 0)%float = true → history = []) ∧
     ((currentPrice =? 0)%float = false →
        length history = Z.to_nat limit ∧
        ∀ i, (Z.of_nat i < limit)%Z →
          history !! i
          = Some (historyEntry rand_factor rand_hour rand_minute currentPrice i))) ∧
  ((limit ≤ 0)%Z → history = []).
Proof.
  intros history. subst history. unfold getHistoricalData. split; [|split].
  - by intros ->.
  - intros currentPrice ->. simpl. split.
    + by intros ->.
    + intros ->. rewrite length_fmap, length_seq. split; [done|].
      intros i Hi. rewrite list_lookup_fmap, lookup_seq_lt by lia. done.
  - intros Hlimit. assert (Z.to_nat limit = 0) as -> by lia.
    by destruct (_ =? _)%float.
Qed.

(** X12.  The timestamp of entry i starts with "2025-03-" and the number
    7 - i on two characters: a day from 07 down to 01 for i < 7, "00" for
    i = 7 and a negative number from there on.  The price of the entry is
    the current price times a factor which, for every value [rand()] can
    return, lies between 0.99 and 1.0098. *)
Theorem historical_entry_dates (currentPrice : float) (i : nat) :
  let entry := historyEntry rand_factor rand_hour rand_minute currentPrice i in
  let day := setw2 (7 - Z.of_nat i) in
  (∃ clock, entry.1 = "2025-03-" +:+ day +:+ " " +:+ clock) ∧
  (i < 7 → day ∈ ["07"; "06"; "05"; "04"; "03"; "02"; "01"]) ∧
  (i = 7 → day = "00") ∧
  (7 < i → ∃ rest, day = String "-" rest) ∧
  entry.2 = (currentPrice * randomFactor (rand_factor i))%float ∧
  ((0 ≤ rand_factor i)%Z →
     (0.99 <=? randomFactor (rand_factor i))%float = true ∧
     (randomFactor (rand_factor i) <=? 1.0098)%float = true).
Proof.
  intros entry day. split; [by eexists|]. split; [|split; [|split; [|split]]].
  - intros Hi. subst day.
    do 7 (destruct i as [|i]; [set_solver|]). lia.
  - by intros ->.
  - intros Hi. apply setw2_negative. lia.
  - done.
  - apply randomFactor_range.
Qed.

End HistoryFacts.

(** * CurrencyPair: codes, prices, inversion and text *)

Lemma skip_0 (s : string) : StdString.skip 0 s = s.
Proof. by destruct s. Qed.

Lemma find_split (code : string) (n : nat) :
  StdString.find code "/" = Some n →
  code = StdString.substr code 0 (Some n) +:+ "/" +:+ StdString.substr code (n + 1) None ∧
  StdString.find (StdString.substr code 0 (Some n)) "/" = None ∧
  String.length (StdString.substr code 0 (Some n)) = n.
Proof.
  unfold StdString.substr. rewrite Nat.add_1_r, skip_0.
  revert n. induction code as [|c code IH]; intros n; simpl; [done|].
  destruct (Ascii.eqb c "/") eqn:Hc.
  - intros [= <-]. apply Ascii.eqb_eq in Hc as ->. done.
  - destruct (StdString.find code "/") as [m|] eqn:Hfind; [|done].
    intros [= <-]. destruct (IH m eq_refl) as (Hcode & Hnone & Hlen).
    simpl. rewrite Hc, Hnone, Hlen. split; [|done].
    change (String c code
            = String c (StdString.keep m code +:+ "/" +:+ StdString.skip (S m) code)).
    by rewrite <-Hcode.
Qed.

(** X13.  The constructors that take a pair code, and [setPairCode], store
    the code as given and split it at its first '/': base, '/' and quote
    make up the code again, and the base holds no '/'.  For a code without
    '/' the constructors leave both currencies empty and [setPairCode]
    leaves them as they were.  The constructor from base and quote stores
    the two and joins them with '/'; the code splits back into them when the
    base holds no '/'. *)
Theorem pair_code_parsed (code : string) (pr : float) (old : CurrencyPair) :
  let p := CurrencyPair_code code pr in
  let s := setPairCode old code in
  pairCode p = code ∧ pairCode s = code ∧
  match StdString.find code "/" with
  | Some n =>
      code = baseCurrency p +:+ "/" +:+ quoteCurrency p ∧
      StdString.find (baseCurrency p) "/" = None ∧
      String.length (baseCurrency p) = n ∧
      baseCurrency s = baseCurrency p ∧ quoteCurrency s = quoteCurrency p
  | None =>
      baseCurrency p = "" ∧ quoteCurrency p = "" ∧
      baseCurrency s = baseCurrency old ∧ quoteCurrency s = quoteCurrency old
  end ∧
  (∀ dc pc wk mo ytd yoy grp ts,
     let f := CurrencyPair_full code pr dc pc wk mo ytd yoy grp ts in
     pairCode f = code ∧ baseCurrency f = baseCurrency p ∧
     quoteCurrency f = quoteCurrency p) ∧
  (∀ b q pc,
     let r := CurrencyPair_base_quote b q pr pc in
     pairCode r = b +:+ "/" +:+ q ∧ baseCurrency r = b ∧ quoteCurrency r = q ∧
     (StdString.find b "/" = None →
        baseCurrency (CurrencyPair_code (pairCode r) pr) = b ∧
        quoteCurrency (CurrencyPair_code (pairCode r) pr) = q)).
Proof.
  intros p s. subst p s. split; [|split; [|split; [|split]]].
  - unfold CurrencyPair_code. by destruct (parsePairCode code).
  - unfold setPairCode. by destruct (StdString.find code "/").
  - unfold CurrencyPair_code, setPairCode, parsePairCode.
    destruct (StdString.find code "/") as [n|] eqn:Hfind; cbn; [|done].
    destruct (find_split code n Hfind) as (Hcode & Hnone & Hlen). done.
  - intros dc pc wk mo ytd yoy grp ts f. subst f.
    unfold CurrencyPair_full, CurrencyPair_code. by destruct (parsePairCode code).
  - intros b q pc r. subst r. do 3 (split; [done|]). intros Hb.
    unfold CurrencyPair_code, CurrencyPair_base_quote. cbn [pairCode].
    by rewrite (parsePairCode_joined _ _ Hb).
Qed.

(** X14.  [setPrice] stores the new price and, as day change, the new
    price minus the old one; after two updates the day change is the second
    price minus the first.  Setting the price to its current value gives a
    day change of 0.0 when that price is finite and a NaN when it is
    not. *)
Theorem price_update_delta (p : CurrencyPair) (newPrice : float) :
  price (setPrice p newPrice) = newPrice ∧
  dayChange (setPrice p newPrice) = (newPrice - price p)%float ∧
  (∀ later, dayChange (setPrice (setPrice p newPrice) later) = (later - newPrice)%float) ∧
  (is_finite (price p) = true → dayChange (setPrice p (price p)) = 0%float) ∧
  (is_finite (price p) = false → is_nan (dayChange (setPrice p (price p))) = true).
Proof.
  split; [done|]. split; [done|]. split; [done|]. split.
  - apply sub_self.
  - apply sub_self_nan.
Qed.

Section InvertedOnce.
Local Open Scope R_scope.

(** X15.  [getInvertedPair] of a quote whose quote currency holds no '/'
    has the code quote/base, base and quote exchanged, the price 1/p, the
    day change -d/p² and the same group and timestamp.  In doubles the
    values of a price between 2^-250 and 2^250 and of the inverted price
    multiply to 1 within 2^-53, and the growth factors 1 + c/100 of a
    percent metric between -50 and 100 and of the inverted metric multiply
    to 1 within 1e-14. *)
Theorem inverted_pair_fields :
  (∀ p : CurrencyPair, StdString.find (quoteCurrency p) "/" = None →
     let inverted := getInvertedPair p in
     pairCode inverted = quoteCurrency p +:+ "/" +:+ baseCurrency p ∧
     baseCurrency inverted = quoteCurrency p ∧
     quoteCurrency inverted = baseCurrency p ∧
     price inverted = (1 / price p)%float ∧
     dayChange inverted = (- dayChange p / (price p * price p))%float ∧
     group inverted = group p ∧ timestamp inverted = timestamp p) ∧
  (∀ p : CurrencyPair,
     is_finite (price p) = true → bpow (-250) <= F2R (price p) <= bpow 250 →
     is_finite (price (getInvertedPair p)) = true ∧
     Rabs (F2R (price p) * F2R (price (getInvertedPair p)) - 1) <= bpow (-53)) ∧
  (∀ (p : CurrencyPair) metric, metric ∈ metrics →
     let change := getChangeByMetric p metric in
     let inverted := getChangeByMetric (getInvertedPair p) metric in
     is_finite change = true → -50 <= F2R change <= 100 →
     is_finite inverted = true ∧
     Rabs ((1 + F2R change / 100) * (1 + F2R inverted / 100) - 1) <= 1 / 10 ^ 14).
Proof.
  split; [|split].
  - intros p Hq inverted. subst inverted. by rewrite (getInvertedPair_fields p Hq).
  - intros p Hfin Hrange.
    assert (price (getInvertedPair p) = (1 / price p)%float) as ->.
    { unfold getInvertedPair, CurrencyPair_full. by destruct (parsePairCode _). }
    destruct (reciprocal_twice (price p) Hfin Hrange) as (H1 & Hnear & _).
    split; [done|]. pose proof (bpow_pos (-250)).
    set (P := F2R (price p)) in *. set (P1 := F2R (1 / price p)) in *.
    unfold near in Hnear.
    assert (0 < 1 / P) as HIP by (apply Rdiv_lt_0_compat; lra).
    rewrite (Rabs_pos_eq (1 / P)) in Hnear by lra.
    replace (P * P1 - 1) with (P * (P1 - 1 / P)) by (field; lra).
    rewrite Rabs_mult, (Rabs_pos_eq P) by lra.
    apply Rle_trans with (P * (u64 * (1 / P))).
    + apply Rmult_le_compat_l; lra.
    + unfold u64. right. field. lra.
  - intros p metric Hm change inverted Hfin Hrange. subst change inverted.
    rewrite getChangeByMetric_inverted by done.
    set (c := getChangeByMetric p metric) in *.
    destruct (invertPercentage_error c Hfin ltac:(lra)) as [Hf He].
    split; [done|]. set (C := F2R c) in *. set (C1 := F2R (invertPercentage c)) in *.
    apply Rabs_le_inv in He.
    replace ((1 + C / 100) * (1 + C1 / 100) - 1)
      with ((1 + C / 100) * (C1 - (1 / (1 + C / 100) - 1) * 100) / 100)
      by (field; lra).
    apply Rabs_le. split; nra.
Qed.

End InvertedOnce.

Section PairTextFacts.
Variable fixed : nat → float → string.

(** X16.  [toString] writes the pair code, ": " and the price, and after
    them nothing when the percent change is 0.0 or -0.0, " (+", the change
    and "%)" when it is positive, and " (", the change and "%)" without a
    sign of its own when it is negative or a NaN. *)
Theorem toString_change_part (p : CurrencyPair) :
  let quote := pairCode p +:+ ": " +:+ fixed 4 (price p) in
  ((percentChange p =? 0)%float = true → toString fixed p = quote) ∧
  ((0 <? percentChange p)%float = true →
     toString fixed p = quote +:+ " (+" +:+ fixed 2 (percentChange p) +:+ "%)") ∧
  ((percentChange p <? 0)%float = true ∨ is_nan (percentChange p) = true →
     toString fixed p = quote +:+ " (" +:+ fixed 2 (percentChange p) +:+ "%)").
Proof.
  intros quote. subst quote. unfold toString.
  destruct (float_sign_cases (percentChange p))
    as [[Hz Hle]|[(Hpos & Hz & Hle)|[(Hneg & Hz & Hle)|(Hnan & Hz & Hle)]]];
    rewrite Hz, Hle; cbn [negb].
  - split; [done|]. split.
    + intros Hpos. (* 0 < x and x = 0 *)
      exfalso. revert Hz Hpos. rewrite ltb_spec, FloatAxioms.eqb_spec.
      change (Prim2SF 0) with (S754_zero false).
      destruct (Prim2SF (percentChange p)) as [s|s| |s m e]; cbn; try destruct s; done.
    + intros [Hneg|Hnan]; exfalso; revert Hz.
      * revert Hneg. rewrite ltb_spec, FloatAxioms.eqb_spec.
        change (Prim2SF 0) with (S754_zero false).
        destruct (Prim2SF (percentChange p)) as [s|s| |s m e]; cbn; try destruct s; done.
      * revert Hnan. rewrite is_nan_SF, FloatAxioms.eqb_spec.
        destruct (Prim2SF (percentChange p)) as [s|s| |s m e]; cbn; try destruct s; done.
  - split; [done|]. split.
    + intros _. done.
    + intros [Hneg|Hnan]; exfalso.
      * by rewrite (ltb_asym _ _ Hpos) in Hneg.
      * destruct (ltb_abs_sign 0 (percentChange p)) as [Hn _]; [done| |congruence].
        revert Hpos. rewrite !ltb_spec, abs_spec.
        change (Prim2SF 0) with (S754_zero false).
        destruct (Prim2SF (percentChange p)) as [s|s| |s m e]; cbn; try destruct s; done.
  - split; [done|]. split.
    + intros Hpos. by rewrite (ltb_asym _ _ Hneg) in Hpos.
    + intros _. done.
  - split; [done|]. split.
    + intros Hpos. exfalso. revert Hnan Hpos. rewrite is_nan_SF, ltb_spec.
      destruct (Prim2SF (percentChange p)) as [s|s| |s m e]; cbn; try destruct s; done.
    + intros _. done.
Qed.

End PairTextFacts.

(** * Rankings: ties apart, counts and the menu *)

Lemma sorted_unique_without_ties metric pairs (l1 l2 : list CurrencyPair)
    (comp : CurrencyPair → CurrencyPair → bool) :
  (∀ x y, comp x y = false → comp y x = false → metricTie metric x y = true) →
  metricDistinct metric pairs = true →
  l1 ≡ₚ pairs → l2 ≡ₚ pairs →
  StronglySorted (λ x y, comp y x = false) l1 →
  StronglySorted (λ x y, comp y x = false) l2 →
  l1 = l2.
Proof.
  intros Htie Hd Hp1 Hp2 Hs1 Hs2.
  apply (StronglySorted_unique_strong (λ x y, comp y x = false)); [|done..|].
  - intros x y Hx Hy Hxy Hyx.
    apply (metricDistinct_tie_eq metric pairs); auto.
    + by rewrite <-Hp1.
    + by rewrite <-Hp2.
  - by rewrite Hp1, Hp2.
Qed.

Section RankingFacts.
Variable std_sort :
  (CurrencyPair → CurrencyPair → bool) → list CurrencyPair → list CurrencyPair.
Hypothesis std_sort_conforms : StdSort std_sort.

(** X17.  When no two quotes of the collection have equal values on the
    metric, [getTopPerformers] and [getWorstPerformers] return the same
    result with any two functions that meet the contract of [std::sort]:
    the ranking does not depend on the library's algorithm. *)
Theorem ranking_independent_of_sort
    (other_sort : (CurrencyPair → CurrencyPair → bool) → list CurrencyPair → list CurrencyPair)
    (a : CurrencyAnalyzer) (metric : string) (count : Z) :
  StdSort other_sort →
  metricDistinct metric (currencyPairs a) = true →
  getTopPerformers std_sort a metric count = getTopPerformers other_sort a metric count ∧
  getWorstPerformers std_sort a metric count = getWorstPerformers other_sort a metric count.
Proof.
  intros Hother Hd.
  destruct (metricDistinct_swo _ _ Hd) as [Hgt Hlt].
  unfold getTopPerformers, getWorstPerformers.
  assert (std_sort (metricGreater metric) (currencyPairs a)
          = other_sort (metricGreater metric) (currencyPairs a)) as ->.
  { apply (sorted_unique_without_ties metric (currencyPairs a) _ _ (metricGreater metric));
      [|done|by apply sort_permutation|by apply sort_permutation
       |by apply sort_sorted|by apply sort_sorted].
    intros x y Hxy Hyx. unfold metricTie. unfold metricGreater in Hxy, Hyx.
    by rewrite Hxy, Hyx. }
  assert (std_sort (metricLess metric) (currencyPairs a)
          = other_sort (metricLess metric) (currencyPairs a)) as ->.
  { apply (sorted_unique_without_ties metric (currencyPairs a) _ _ (metricLess metric));
      [|done|by apply sort_permutation|by apply sort_permutation
       |by apply sort_sorted|by apply sort_sorted].
    intros x y Hxy Hyx. unfold metricTie. unfold metricLess in Hxy, Hyx.
    by rewrite Hxy, Hyx. }
  done.
Qed.

(** X18.  When no two quotes tie on the metric and the count is at least
    the size of the collection, [getWorstPerformers] returns the list of
    [getTopPerformers] reversed, a rearrangement of the whole
    collection. *)
Theorem worst_reverses_top (a : CurrencyAnalyzer) (metric : string) (count : Z) :
  metricDistinct metric (currencyPairs a) = true →
  (Z.of_nat (length (currencyPairs a)) < 2 ^ 31)%Z →
  (Z.of_nat (length (currencyPairs a)) ≤ count)%Z →
  ∃ top, getTopPerformers std_sort a metric count = Some top ∧
         getWorstPerformers std_sort a metric count = Some (reverse top) ∧
         top ≡ₚ currencyPairs a.
Proof.
  intros Hd Hlen Hcount.
  destruct (metricDistinct_swo _ _ Hd) as [Hgt Hlt].
  pose proof (sort_permutation _ std_sort_conforms _ _ Hgt) as Hp1.
  pose proof (sort_permutation _ std_sort_conforms _ _ Hlt) as Hp2.
  pose proof (sort_sorted _ std_sort_conforms _ _ Hgt) as Hs1.
  pose proof (sort_sorted _ std_sort_conforms _ _ Hlt) as Hs2.
  exists (std_sort (metricGreater metric) (currencyPairs a)).
  unfold getTopPerformers, getWorstPerformers.
  rewrite !vector_prefix_clamped by (rewrite ?Hp1, ?Hp2; lia).
  rewrite !take_ge by (rewrite ?Hp1, ?Hp2; lia).
  split; [done|]. split; [|done]. f_equal.
  apply (sorted_unique_without_ties metric (currencyPairs a) _ _ (metricLess metric));
    [|done|done|by rewrite reverse_Permutation|done|].
  - intros x y Hxy Hyx. unfold metricTie. unfold metricLess in Hxy, Hyx.
    by rewrite Hxy, Hyx.
  - apply StronglySorted_reverse in Hs1. exact Hs1.
Qed.

(** X19.  For a count that is not negative (no metric value a NaN, fewer
    than 2^31 quotes) [getTopPerformers] and [getWorstPerformers] return
    min(count, size) records each, all of them quotes of the collection:
    none for the count 0, and a rearrangement of the whole collection for a
    count of at least its size. *)
Theorem performers_count_clamped (a : CurrencyAnalyzer) (metric : string) (count : Z) :
  metricComparable metric (currencyPairs a) →
  (Z.of_nat (length (currencyPairs a)) < 2 ^ 31)%Z →
  (0 ≤ count)%Z →
  ∃ top worst,
    getTopPerformers std_sort a metric count = Some top ∧
    getWorstPerformers std_sort a metric count = Some worst ∧
    length top = Z.to_nat (Z.min count (Z.of_nat (length (currencyPairs a)))) ∧
    length worst = length top ∧
    (∀ x, x ∈ top ∨ x ∈ worst → x ∈ currencyPairs a) ∧
    (count = 0%Z → top = [] ∧ worst = []) ∧
    ((Z.of_nat (length (currencyPairs a)) ≤ count)%Z →
       top ≡ₚ currencyPairs a ∧ worst ≡ₚ currencyPairs a).
Proof.
  intros Hnan Hlen Hcount.
  pose proof (sort_permutation _ std_sort_conforms _ _ (metricGreater_swo _ _ Hnan)) as Hp1.
  pose proof (sort_permutation _ std_sort_conforms _ _ (metricLess_swo _ _ Hnan)) as Hp2.
  set (descending := std_sort (metricGreater metric) (currencyPairs a)) in *.
  set (ascending := std_sort (metricLess metric) (currencyPairs a)) in *.
  assert (length descending = length (currencyPairs a)) as Hl1 by (by rewrite Hp1).
  assert (length ascending = length (currencyPairs a)) as Hl2 by (by rewrite Hp2).
  exists (take (Z.to_nat count) descending), (take (Z.to_nat count) ascending).
  split; [apply vector_prefix_clamped; lia|].
  split; [apply vector_prefix_clamped; lia|].
  rewrite !length_take, Hl1, Hl2.
  split; [lia|]. split; [done|]. split; [|split].
  - intros x [Hx|Hx]; apply elem_of_take in Hx as (i & Hi & _);
      apply list_elem_of_lookup_2 in Hi; [by rewrite <-Hp1|by rewrite <-Hp2].
  - by intros ->.
  - intros Hall. rewrite !take_ge by lia. done.
Qed.

End RankingFacts.

(** X17, an instance: [rankExample] sorted by the insertion sort and by the
    sort that reverses ties. *)
Lemma ranking_independent_of_sort_witness :
  getTopPerformers insertion_sort rankExample "Weekly" 2
  = getTopPerformers reversing_sort rankExample "Weekly" 2 ∧
  getWorstPerformers insertion_sort rankExample "Weekly" 2
  = getWorstPerformers reversing_sort rankExample "Weekly" 2.
Proof.
  apply (ranking_independent_of_sort insertion_sort insertion_sort_conforms
           reversing_sort rankExample "Weekly" 2 reversing_sort_conforms).
  reflexivity.
Defined.

(** X18, an instance: all three quotes of [rankExample]. *)
Lemma worst_reverses_top_witness :
  ∃ top, getTopPerformers insertion_sort rankExample "Weekly" 3 = Some top ∧
         getWorstPerformers insertion_sort rankExample "Weekly" 3 = Some (reverse top) ∧
         top ≡ₚ currencyPairs rankExample.
Proof.
  apply (worst_reverses_top insertion_sort insertion_sort_conforms rankExample "Weekly" 3).
  - reflexivity.
  - by vm_compute.
  - by vm_compute.
Defined.

(** X19, an instance: two of the three quotes of [rankExample]. *)
Lemma performers_count_clamped_witness :
  ∃ top worst,
    getTopPerformers insertion_sort rankExample "Weekly" 2 = Some top ∧
    getWorstPerformers insertion_sort rankExample "Weekly" 2 = Some worst ∧
    length top = Z.to_nat (Z.min 2 (Z.of_nat (length (currencyPairs rankExample)))) ∧
    length worst = length top ∧
    (∀ x, x ∈ top ∨ x ∈ worst → x ∈ currencyPairs rankExample) ∧
    (2 = 0 → top = [] ∧ worst = [])%Z ∧
    ((Z.of_nat (length (currencyPairs rankExample)) ≤ 2)%Z →
       top ≡ₚ currencyPairs rankExample ∧ worst ≡ₚ currencyPairs rankExample).
Proof.
  apply (performers_count_clamped insertion_sort insertion_sort_conforms
           rankExample "Weekly" 2).
  - repeat constructor.
  - by vm_compute.
  - lia.
Defined.

Lemma selectedMetric_cases (metricChoice : Z) :
  selectedMetric metricChoice
  = Some (if (metricChoice =? 2)%Z then "Weekly"
          else if (metricChoice =? 3)%Z then "Monthly"
          else if (metricChoice =? 4)%Z then "YTD"
          else if (metricChoice =? 5)%Z then "YoY"
          else "Percent Change").
Proof.
  unfold selectedMetric.
  destruct (Z.eqb_spec metricChoice 2) as [->|H2]; [done|].
  destruct (Z.eqb_spec metricChoice 3) as [->|H3]; [done|].
  destruct (Z.eqb_spec metricChoice 4) as [->|H4]; [done|].
  destruct (Z.eqb_spec metricChoice 5) as [->|H5]; [done|].
  destruct (Z.ltb_spec metricChoice 1); cbn [orb]; [done|].
  destruct (Z.ltb_spec 5 metricChoice); [done|].
  by assert (metricChoice = 1)%Z as -> by lia.
Qed.

Section MenuFacts.
Variable std_sort : (CurrencyPair → CurrencyPair → bool) → list CurrencyPair → list CurrencyPair.

(** X20.  Whatever number is typed at the metric prompt,
    [displayTopPerformers] and [displayWorstPerformers] index the array
    [metrics] within its bounds and pass on a name [getChangeByMetric] knows:
    the choices 2 to 5 select the weekly, monthly, year-to-date and
    year-over-year change, every other number the percent change.  The count
    typed reaches the analyzer unchecked: a negative one is undefined
    behaviour. *)
Theorem menu_metric_and_count (a : CurrencyAnalyzer) (metricChoice count : Z) :
  (∃ metric, selectedMetric metricChoice = Some metric ∧ metric ∈ metrics ∧
     displayTopPerformers std_sort a metricChoice count
     = getTopPerformers std_sort a metric count ∧
     displayWorstPerformers std_sort a metricChoice count
     = getWorstPerformers std_sort a metric count ∧
     ∀ p, getChangeByMetric p metric
          = if (metricChoice =? 2)%Z then weeklyChange p
            else if (metricChoice =? 3)%Z then monthlyChange p
            else if (metricChoice =? 4)%Z then ytdChange p
            else if (metricChoice =? 5)%Z then yoyChange p
            else percentChange p) ∧
  ((count < 0)%Z →
     displayTopPerformers std_sort a metricChoice count = None ∧
     displayWorstPerformers std_sort a metricChoice count = None).
Proof.
  pose proof (selectedMetric_cases metricChoice) as Hsel.
  split.
  - eexists. split; [exact Hsel|].
    unfold displayTopPerformers, displayWorstPerformers. rewrite Hsel. cbn [mbind option_bind].
    split; [|split; [done|split; [done|]]].
    + unfold metrics.
      destruct (metricChoice =? 2)%Z; [set_solver|].
      destruct (metricChoice =? 3)%Z; [set_solver|].
      destruct (metricChoice =? 4)%Z; [set_solver|].
      destruct (metricChoice =? 5)%Z; set_solver.
    + intros p.
      destruct (metricChoice =? 2)%Z; [done|].
      destruct (metricChoice =? 3)%Z; [done|].
      destruct (metricChoice =? 4)%Z; [done|].
      destruct (metricChoice =? 5)%Z; done.
  - intros Hcount. unfold displayTopPerformers, displayWorstPerformers.
    rewrite Hsel. cbn [mbind option_bind].
    unfold getTopPerformers, getWorstPerformers, vector_prefix.
    split; match goal with |- context [(?n <? 0)%Z] =>
      destruct (Z.ltb_spec n 0) as [|Hge]; [done|lia] end.
Qed.

Hypothesis std_sort_conforms : StdSort std_sort.

(** X21.  [displayAllRates] prints every quote of the collection exactly
    once, none after one with a smaller percent change (no percent change a
    NaN, fewer than 2^31 quotes): the count it passes is the number of pair
    codes, which is the number of quotes. *)
Theorem all_rates_lists_every_quote (a : CurrencyAnalyzer) :
  metricComparable "Percent Change" (currencyPairs a) →
  (Z.of_nat (length (currencyPairs a)) < 2 ^ 31)%Z →
  ∃ allPairs, displayAllRates std_sort a = Some allPairs ∧
    allPairs ≡ₚ currencyPairs a ∧
    StronglySorted (λ x y, (percentChange x <? percentChange y)%float = false) allPairs ∧
    length (getAvailableCurrencyPairs a) = length (currencyPairs a).
Proof.
  intros Hnan Hlen.
  pose proof (metricGreater_swo _ _ Hnan) as Hswo.
  pose proof (sort_permutation _ std_sort_conforms _ _ Hswo) as Hperm.
  pose proof (sort_sorted _ std_sort_conforms _ _ Hswo) as Hsorted.
  assert (length (getAvailableCurrencyPairs a) = length (currencyPairs a)) as Hsize
    by (by rewrite getAvailableCurrencyPairs_fmap, length_fmap).
  exists (std_sort (metricGreater "Percent Change") (currencyPairs a)).
  split; [|done].
  unfold displayAllRates, getTopPerformers. rewrite Hsize.
  rewrite (static_cast_int_small (Z.of_nat (length (currencyPairs a)))) by lia.
  rewrite vector_prefix_clamped by (rewrite ?Hperm; lia).
  rewrite take_ge; [done|]. rewrite Hperm. lia.
Qed.

End MenuFacts.

(** X21, an instance: the three quotes of [rankExample]. *)
Lemma all_rates_lists_every_quote_witness :
  ∃ allPairs, displayAllRates insertion_sort rankExample = Some allPairs ∧
    allPairs ≡ₚ currencyPairs rankExample ∧
    StronglySorted (λ x y, (percentChange x <? percentChange y)%float = false) allPairs ∧
    length (getAvailableCurrencyPairs rankExample) = length (currencyPairs rankExample).
Proof.
  apply (all_rates_lists_every_quote insertion_sort insertion_sort_conforms rankExample).
  - repeat constructor.
  - by vm_compute.
Defined.

(** * The readers *)

(** ** Strings *)

Lemma length_append (a b : string) :
  String.length (a +:+ b) = String.length a + String.length b.
Proof. induction a as [|c a IH]; simpl; [done|by rewrite IH]. Qed.

Lemma skip_append (a b : string) : StdString.skip (String.length a) (a +:+ b) = b.
Proof. induction a as [|c a IH]; simpl; [by destruct b|done]. Qed.

Lemma skip_add (n m : nat) (s : string) :
  StdString.skip (n + m) s = StdString.skip m (StdString.skip n s).
Proof.
  revert s. induction n as [|n IH]; intros s.
  - by rewrite skip_0.
  - destruct s as [|c s]; simpl; [by destruct m|apply IH].
Qed.

Lemma keep_append (a b : string) : StdString.keep (String.length a) (a +:+ b) = a.
Proof. induction a as [|c a IH]; simpl; [by destruct b|by rewrite IH]. Qed.

Lemma find_append (c : ascii) (a b : string) :
  StdString.find a c = None →
  StdString.find (a +:+ String c b) c = Some (String.length a).
Proof.
  induction a as [|d a IH]; simpl.
  - intros _. by rewrite Ascii.eqb_refl.
  - destruct (Ascii.eqb d c); [done|].
    destruct (StdString.find a c); [done|]. intros _. by rewrite IH.
Qed.

Lemma get_append (a : string) (c : ascii) (b : string) :
  String.get (String.length a) (a +:+ String c b) = Some c.
Proof. induction a as [|d a IH]; simpl; done. Qed.

Lemma skip_spaces_append (ws tail : string) (n : nat) :
  allSpaces ws = true →
  match tail with
  | EmptyString => True
  | String a _ => StdText.isspace a = Some false
  end →
  DataReader.skip_spaces (ws +:+ tail) n = Some (n + String.length ws).
Proof.
  revert n. induction ws as [|a ws IH]; intros n; simpl.
  - intros _ Htail. rewrite Nat.add_0_r. destruct tail as [|a tail]; simpl; [done|].
    by rewrite Htail.
  - destruct (StdText.isspace a) as [[]|]; try done.
    intros Hws Htail. rewrite IH by done. f_equal. lia.
Qed.

(** Where the value of a member starts. *)
Lemma json_value_start (head pre ws tail : string) :
  StdString.find pre ":" = None →
  allSpaces ws = true →
  match tail with
  | EmptyString => True
  | String a _ => StdText.isspace a = Some false
  end →
  let json := head +:+ pre +:+ ":" +:+ ws +:+ tail in
  let valueStart := String.length head + String.length pre + 1 + String.length ws in
  StdText.find_from json ":" (String.length head)
    = Some (String.length head + String.length pre) ∧
  DataReader.skip_spaces
    (StdString.skip (String.length head + String.length pre + 1) json)
    (String.length head + String.length pre + 1) = Some valueStart ∧
  StdString.skip valueStart json = tail ∧
  String.length json = valueStart + String.length tail.
Proof.
  intros Hpre Hws Htail json valueStart. subst json valueStart.
  change (":" +:+ ws +:+ tail) with (String ":" (ws +:+ tail)).
  assert (StdString.skip (String.length head + String.length pre + 1)
            (head +:+ pre +:+ String ":" (ws +:+ tail)) = ws +:+ tail) as Hskip.
  { rewrite !skip_add, !skip_append. done. }
  split; [|split; [|split]].
  - unfold StdText.find_from. rewrite skip_append.
    by rewrite (find_append ":" pre (ws +:+ tail) Hpre).
  - rewrite Hskip. by apply skip_spaces_append.
  - by rewrite skip_add, Hskip, skip_append.
  - rewrite !length_append. simpl. rewrite length_append. lia.
Qed.

Lemma get_skip (n : nat) (s : string) :
  String.get n s = match StdString.skip n s with
                   | String a _ => Some a
                   | EmptyString => None
                   end.
Proof.
  revert n. induction s as [|c s IH]; intros [|n]; simpl; try done; apply IH.
Qed.

Lemma first_of_append (chars a : string) (stop : ascii) (b : string) :
  StdText.first_of chars a = None → StdText.mem stop chars = true →
  StdText.first_of chars (a +:+ String stop b) = Some (String.length a).
Proof.
  intros Ha Hstop. induction a as [|d a IH]; simpl in *.
  - by rewrite Hstop.
  - destruct (StdText.mem d chars); [done|].
    destruct (StdText.first_of chars a); [done|]. by rewrite IH.
Qed.

(** ** The field map of a CSV line *)

Lemma fieldMap_untouched (hs vs : list string) (m : gmap string string) (key : string) :
  key ∉ take (length vs) hs →
  fold_left (λ fieldMap '(header, value), <[header := value]> fieldMap) (zip hs vs) m !! key
  = m !! key.
Proof.
  revert vs m. induction hs as [|h hs IH]; intros [|v vs] m; cbn; try done.
  intros Hkey. apply not_elem_of_cons in Hkey as [Hne Hkey].
  rewrite IH by done. by rewrite lookup_insert_ne.
Qed.

Lemma fieldMap_lookup (hs vs : list string) (m : gmap string string) (key : string)
    (i : nat) (v : string) :
  hs !! i = Some key → vs !! i = Some v →
  (∀ j, i < j → hs !! j ≠ Some key) →
  fold_left (λ fieldMap '(header, value), <[header := value]> fieldMap) (zip hs vs) m !! key
  = Some v.
Proof.
  revert vs m i. induction hs as [|h hs IH]; intros [|v0 vs] m [|i]; cbn; try done.
  - intros [= ->] [= ->] Hlast. rewrite fieldMap_untouched.
    + apply lookup_insert_eq.
    + intros [j [Hj _]]%elem_of_take. apply (Hlast (S j)); [lia|done].
  - intros Hi Hv Hlast. apply (IH vs _ i); [done..|].
    intros j Hj. apply (Hlast (S j)). lia.
Qed.

Lemma csvFieldMap_lookup (csvLine : string) (headers : list string) (key : string)
    (i : nat) :
  headers !! i = Some key →
  (∀ j, i < j → headers !! j ≠ Some key) →
  DataReader.csvFieldMap csvLine headers !! key
  = Some (default "" ((DataReader.cleanCell <$> StdText.getlines "," csvLine) !! i)).
Proof.
  intros Hi Hlast. unfold DataReader.csvFieldMap.
  apply (fieldMap_lookup _ _ _ _ i); [done| |done].
  set (cells := DataReader.cleanCell <$> StdText.getlines "," csvLine).
  apply lookup_lt_Some in Hi.
  destruct (cells !! i) as [v|] eqn:Hv.
  - by rewrite lookup_app_l by (by eapply lookup_lt_Some).
  - apply lookup_ge_None in Hv. rewrite lookup_app_r by done.
    cbn [default from_option id]. apply lookup_replicate_2. lia.
Qed.

Lemma csvFieldMap_blank (headers : list string) (key : string) :
  DataReader.csvFieldMap "" headers !! key = None ∨
  DataReader.csvFieldMap "" headers !! key = Some "".
Proof.
  unfold DataReader.csvFieldMap. cbn [StdText.getlines StdText.getlines_from fmap list_fmap].
  rewrite app_nil_l, Nat.sub_0_r.
  assert (∀ (hs : list string) n (m : gmap string string),
    (m !! key = None ∨ m !! key = Some "") →
    let m' := fold_left (λ fieldMap '(header, value), <[header := value]> fieldMap)
                (zip hs (replicate n "")) m in
    m' !! key = None ∨ m' !! key = Some "") as Hfold.
  { induction hs as [|h hs IH]; intros [|n] m Hm; cbn; try done.
    apply IH. destruct (decide (h = key)) as [->|Hne].
    - right. apply lookup_insert_eq.
    - by rewrite lookup_insert_ne. }
  apply Hfold. by left.
Qed.

Section ReaderFacts.
Variable stod : string → option float.

(** X22.  For a member whose quoted key occurs first at [head], followed
    by a colon with no other colon before it and by white space,
    [getJsonStringValue] returns the text between the quotes of a quoted
    value that holds no quote, and for a value that starts otherwise the
    text up to the next ',' or '}'; [getJsonDoubleValue] hands that text to
    [std::stod] and returns the default when it throws. *)
Theorem json_member_value (json key head pre ws rest : string) :
  StdText.find_str json (quoted key) = Some (String.length head) →
  StdString.find pre ":" = None →
  allSpaces ws = true →
  (∀ value,
     json = head +:+ pre +:+ ":" +:+ ws
            +:+ String StdText.dquote (value +:+ String StdText.dquote rest) →
     StdString.find value StdText.dquote = None →
     DataReader.getJsonStringValue json key = Some value) ∧
  (∀ a text stop,
     json = head +:+ pre +:+ ":" +:+ ws +:+ String a text +:+ String stop rest →
     StdText.isspace a = Some false → a ≠ StdText.dquote →
     StdText.first_of ",}" (String a text) = None →
     StdText.mem stop ",}" = true →
     DataReader.getJsonStringValue json key = Some (String a text) ∧
     ∀ defaultValue,
       DataReader.getJsonDoubleValue stod json key defaultValue
       = Some (default defaultValue (stod (String a text)))).
Proof.
  intros Hfind Hpre Hws. split.
  - intros value Hjson Hvalue.
    destruct (json_value_start head pre ws
      (String StdText.dquote (value +:+ String StdText.dquote rest)) Hpre Hws eq_refl)
      as (Hcolon & Hspaces & Hskip & Hlen).
    rewrite <-Hjson in Hcolon, Hspaces, Hskip, Hlen.
    unfold DataReader.getJsonStringValue. fold (quoted key).
    rewrite Hfind, Hcolon, Hspaces. cbn [mbind option_bind].
    set (valueStart := String.length head + String.length pre + 1 + String.length ws) in *.
    destruct (Nat.leb_spec (String.length json) valueStart) as [Hle|_];
      [simpl in Hlen; lia|].
    rewrite get_skip, Hskip, bool_decide_eq_true_2 by done.
    unfold StdText.find_from, StdString.substr.
    rewrite skip_add, Hskip. cbn [StdString.skip].
    rewrite (find_append _ _ _ Hvalue). cbn [fmap option_fmap option_map].
    rewrite Nat.add_comm, Nat.add_sub. by rewrite keep_append.
  - intros a text stop Hjson Hspace Hquote Hnone Hstop.
    destruct (json_value_start head pre ws (String a text +:+ String stop rest)
      Hpre Hws Hspace) as (Hcolon & Hspaces & Hskip & Hlen).
    rewrite <-Hjson in Hcolon, Hspaces, Hskip, Hlen.
    assert (DataReader.getJsonStringValue json key = Some (String a text)) as Hvalue.
    { unfold DataReader.getJsonStringValue. fold (quoted key).
      rewrite Hfind, Hcolon, Hspaces. cbn [mbind option_bind].
      set (valueStart := String.length head + String.length pre + 1 + String.length ws)
        in *.
      destruct (Nat.leb_spec (String.length json) valueStart) as [Hle|_];
        [simpl in Hlen; lia|].
      rewrite get_skip, Hskip. cbn [String.append].
      rewrite bool_decide_eq_false_2 by (by intros [= Heq]).
      unfold StdText.find_first_of, StdString.substr. rewrite Hskip.
      rewrite (first_of_append _ _ _ _ Hnone Hstop). cbn [fmap option_fmap option_map].
      rewrite Nat.add_comm, Nat.add_sub. by rewrite keep_append. }
    split; [done|]. intros defaultValue.
    unfold DataReader.getJsonDoubleValue. rewrite Hvalue. done.
Qed.

(** X23.  A key that does not occur between quotes yields the empty text
    and the default number; an object with none of the ten keys parses to
    the record of the default constructor.  [readFromJson] returns no record
    for a path without a file and for a text without '[' or without
    ']'. *)
Theorem json_missing_fields :
  (∀ json key, StdText.find_str json (quoted key) = None →
     DataReader.getJsonStringValue json key = Some "" ∧
     ∀ defaultValue,
       DataReader.getJsonDoubleValue stod json key defaultValue = Some defaultValue) ∧
  (∀ json, Forall (λ key, StdText.find_str json (quoted key) = None) jsonKeys →
     DataReader.parseCurrencyPairFromJson stod json = Some CurrencyPair_default) ∧
  DataReader.readFromJson stod None = Some [] ∧
  (∀ json, StdString.find json "[" = None ∨ StdText.rfind json "]" = None →
     DataReader.readFromJson stod (Some json) = Some []).
Proof.
  assert (∀ json key, StdText.find_str json (quoted key) = None →
     DataReader.getJsonStringValue json key = Some "" ∧
     ∀ defaultValue,
       DataReader.getJsonDoubleValue stod json key defaultValue = Some defaultValue)
    as Hmissing.
  { intros json key Hkey.
    assert (DataReader.getJsonStringValue json key = Some "") as Hvalue.
    { unfold DataReader.getJsonStringValue. fold (quoted key). by rewrite Hkey. }
    split; [done|]. intros defaultValue.
    unfold DataReader.getJsonDoubleValue. by rewrite Hvalue. }
  split; [done|]. split; [|split; [done|]].
  - intros json Hkeys. unfold jsonKeys in Hkeys.
    repeat match goal with
    | H : Forall _ (_ :: _) |- _ => apply Forall_cons in H as [?%Hmissing H]
    end.
    unfold DataReader.parseCurrencyPairFromJson.
    repeat match goal with
    | H : _ ∧ _ |- _ =>
        let Hs := fresh in let Hd := fresh in
        destruct H as [Hs Hd]; rewrite ?Hs, ?Hd; clear Hs Hd
    end.
    done.
  - intros json Hnone. unfold DataReader.readFromJson.
    destruct Hnone as [-> | ->]; [done|]. by destruct (StdString.find json "[").
Qed.

(** X25.  [parseCurrencyPairFromCsv] finds a field by the name of its
    column: the value under a header is the cleaned cell of the line in the
    last column carrying that header, the empty text when the line is too
    short, and a key that is no header has no value.  The pair code, group
    and timestamp are the values of their keys, empty when missing; the
    price is 0.0 for a missing or empty value and otherwise [std::stod] of
    it, 0.0 when that throws. *)
Theorem csv_field_by_header (csvLine : string) (headers : list string) :
  let cells := DataReader.cleanCell <$> StdText.getlines "," csvLine in
  let record := DataReader.parseCurrencyPairFromCsv stod csvLine headers in
  (∀ key i, headers !! i = Some key → (∀ j, i < j → headers !! j ≠ Some key) →
     DataReader.csvFieldMap csvLine headers !! key = Some (default "" (cells !! i))) ∧
  (∀ key, key ∉ headers → DataReader.csvFieldMap csvLine headers !! key = None) ∧
  pairCode record = default "" (DataReader.csvFieldMap csvLine headers !! "Currency Pair") ∧
  group record = default "" (DataReader.csvFieldMap csvLine headers !! "Group") ∧
  timestamp record = default "" (DataReader.csvFieldMap csvLine headers !! "Timestamp") ∧
  price record
  = match DataReader.csvFieldMap csvLine headers !! "Price" with
    | None | Some EmptyString => 0%float
    | Some value => default 0%float (stod value)
    end.
Proof.
  intros cells record. split; [|split].
  - intros key i. apply csvFieldMap_lookup.
  - intros key Hkey. unfold DataReader.csvFieldMap.
    rewrite fieldMap_untouched; [done|].
    intros [j [Hj _]]%elem_of_take. apply Hkey. by eapply list_elem_of_lookup_2.
  - subst record. unfold DataReader.parseCurrencyPairFromCsv, CurrencyPair_full.
    destruct (parsePairCode _) as [b q]. done.
Qed.

(** X26.  An empty line parses to the record of the default constructor
    whatever the headers are.  [readFromCsv] returns no record for a path
    without a file and otherwise one record per line after the header line,
    so an empty line among them puts a record with an empty pair code in
    the collection and the empty text among its currencies. *)
Theorem csv_blank_line :
  (∀ headers, DataReader.parseCurrencyPairFromCsv stod "" headers = CurrencyPair_default) ∧
  DataReader.readFromCsv stod None = [] ∧
  (∀ text, length (DataReader.readFromCsv stod (Some text))
           = length (StdText.getlines StdText.newline text) - 1) ∧
  (∀ text headerLine rows,
     StdText.getlines StdText.newline text = headerLine :: rows → "" ∈ rows →
     CurrencyPair_default ∈ DataReader.readFromCsv stod (Some text) ∧
     "" ∈ DataReader.extractCurrencies (DataReader.readFromCsv stod (Some text))).
Proof.
  assert (∀ headers,
    DataReader.parseCurrencyPairFromCsv stod "" headers = CurrencyPair_default) as Hblank.
  { intros headers. unfold DataReader.parseCurrencyPairFromCsv.
    destruct (csvFieldMap_blank headers "Currency Pair") as [-> | ->];
    destruct (csvFieldMap_blank headers "Price") as [-> | ->];
    destruct (csvFieldMap_blank headers "Day Change") as [-> | ->];
    destruct (csvFieldMap_blank headers "Percent Change") as [-> | ->];
    destruct (csvFieldMap_blank headers "Weekly") as [-> | ->];
    destruct (csvFieldMap_blank headers "Monthly") as [-> | ->];
    destruct (csvFieldMap_blank headers "YTD") as [-> | ->];
    destruct (csvFieldMap_blank headers "YoY") as [-> | ->];
    destruct (csvFieldMap_blank headers "Group") as [-> | ->];
    destruct (csvFieldMap_blank headers "Timestamp") as [-> | ->]; reflexivity. }
  split; [done|]. split; [done|]. split.
  - intros text. unfold DataReader.readFromCsv.
    destruct (StdText.getlines StdText.newline text) as [|headerLine rows]; [done|].
    rewrite length_fmap. cbn [length]. lia.
  - intros text headerLine rows Hlines Hrow.
    assert (CurrencyPair_default ∈ DataReader.readFromCsv stod (Some text)) as Hin.
    { unfold DataReader.readFromCsv. rewrite Hlines.
      apply list_elem_of_fmap. exists "". by rewrite Hblank. }
    split; [done|].
    apply (elem_of_getAvailableCurrencies
             (mkAnalyzer (DataReader.readFromCsv stod (Some text)) ∅)),
          elem_of_currencySet.
    exists CurrencyPair_default. split; [done|]. by left.
Qed.

End ReaderFacts.

(** X22, an instance: the group and the price of [jsonExample]. *)
Lemma json_member_value_witness :
  DataReader.getJsonStringValue jsonExample "Group" = Some "Asia" ∧
  DataReader.getJsonStringValue jsonExample "Price" = Some "83.0" ∧
  DataReader.getJsonDoubleValue stodExample jsonExample "Price" 0 = Some 83%float.
Proof.
  split.
  - apply (proj1 (json_member_value stodExample jsonExample "Group"
      ("{" +:+ quoted "Currency Pair" +:+ ": " +:+ quoted "USD/INR" +:+ ", "
       +:+ quoted "Price" +:+ ": 83.0, ")
      (quoted "Group") " " "}" eq_refl eq_refl eq_refl)); reflexivity.
  - destruct (proj2 (json_member_value stodExample jsonExample "Price"
      ("{" +:+ quoted "Currency Pair" +:+ ": " +:+ quoted "USD/INR" +:+ ", ")
      (quoted "Price") " "
      (" " +:+ quoted "Group" +:+ ": " +:+ quoted "Asia" +:+ "}")
      eq_refl eq_refl eq_refl) "8"%char "3.0" ","%char eq_refl eq_refl ltac:(discriminate)
      eq_refl eq_refl) as [Hvalue Hdouble].
    split; [exact Hvalue|]. exact (Hdouble 0%float).
Defined.

Lemma find_none_rfind (s : string) (c : ascii) :
  StdString.find s c = None → StdText.rfind s c = None.
Proof.
  induction s as [|a s IH]; simpl; [done|].
  destruct (Ascii.eqb a c); [done|].
  destruct (StdString.find s c); [done|]. intros _. by rewrite IH.
Qed.

Lemma rfind_append (c : ascii) (a b : string) :
  StdString.find b c = None →
  StdText.rfind (a +:+ String c b) c = Some (String.length a).
Proof.
  intros Hb. induction a as [|d a IH]; simpl.
  - by rewrite (find_none_rfind _ _ Hb), Ascii.eqb_refl.
  - by rewrite IH.
Qed.

Lemma append_cons (d : ascii) (a b : string) : String d a +:+ b = String d (a +:+ b).
Proof. reflexivity. Qed.

Lemma append_assoc (a b c : string) : (a +:+ b) +:+ c = a +:+ b +:+ c.
Proof. induction a as [|d a IH]; [done|]. by rewrite !append_cons, IH. Qed.

Lemma find_from_skip (s : string) (c : ascii) (pos : nat) (rest : string) :
  StdString.skip pos s = rest →
  StdText.find_from s c pos = (λ i, pos + i) <$> StdString.find rest c.
Proof. intros <-. done. Qed.

Section SplitFacts.
Variable stod : string → option float.

Lemma readObjects_arrayText (objects : list (string * string)) (trailer : string) :
  Forall (λ '(separator, body),
            StdString.find separator "{" = None ∧ StdString.find body "}" = None)
         objects →
  StdString.find trailer "{" = None →
  ∀ (fuel : nat) (done : string) (pairs : list CurrencyPair),
    String.length (arrayText objects trailer) < fuel →
    DataReader.readObjects stod fuel (done +:+ arrayText objects trailer)
      (String.length done) pairs
    = (λ parsed, pairs ++ parsed)
      <$> mapM (λ '(_, body),
                  DataReader.parseCurrencyPairFromJson stod ("{" +:+ body +:+ "}"))
               objects.
Proof.
  intros Hobjects Htrailer.
  induction Hobjects as [|[separator body] objects [Hsep Hbody] _ IH];
    intros fuel done pairs Hfuel.
  - destruct fuel as [|fuel]; [lia|]. cbn [arrayText DataReader.readObjects mapM].
    cbn [mret option_ret fmap option_fmap option_map]. rewrite app_nil_r.
    destruct (_ <=? _); [done|].
    rewrite (find_from_skip _ _ _ trailer) by apply skip_append.
    by rewrite Htrailer.
  - destruct fuel as [|fuel]; [lia|]. cbn [arrayText DataReader.readObjects].
    set (more := arrayText objects trailer) in *.
    cbn [arrayText String.length] in Hfuel. fold more in Hfuel.
    change ("{" +:+ body +:+ "}" +:+ more) with (String "{" (body +:+ String "}" more)).
    change ("{" +:+ body +:+ "}" +:+ more) with (String "{" (body +:+ String "}" more))
      in Hfuel.
    rewrite !length_append in Hfuel. cbn [String.length] in Hfuel.
    rewrite length_append in Hfuel. cbn [String.length] in Hfuel.
    destruct (Nat.leb_spec
      (String.length (done +:+ separator +:+ String "{" (body +:+ String "}" more)))
      (String.length done)) as [Hle|_].
    { rewrite !length_append in Hle. cbn [String.length] in Hle. lia. }
    rewrite (find_from_skip _ _ _ (separator +:+ String "{" (body +:+ String "}" more)))
      by apply skip_append.
    rewrite (find_append "{" separator _ Hsep). cbn [fmap option_fmap option_map].
    rewrite (find_from_skip _ _ _ (String "{" (body +:+ String "}" more))).
    2:{ by rewrite skip_add, !skip_append. }
    cbn [StdString.find]. change (Ascii.eqb "{" "}") with false. cbv iota.
    rewrite (find_append "}" body more Hbody). cbn [fmap option_fmap option_map].
    assert (StdString.substr (done +:+ separator +:+ String "{" (body +:+ String "}" more))
              (String.length done + String.length separator)
              (Some (String.length done + String.length separator + S (String.length body)
                     - (String.length done + String.length separator) + 1))
            = "{" +:+ body +:+ "}") as ->.
    { unfold StdString.substr. rewrite skip_add, !skip_append.
      replace (String.length done + String.length separator + S (String.length body)
               - (String.length done + String.length separator) + 1)
        with (S (String.length (body +:+ "}"))) by (rewrite length_append; simpl; lia).
      cbn [StdString.keep]. change (String "{" (body +:+ String "}" more))
        with (String "{" (body +:+ String "}" more)).
      change ("{" +:+ body +:+ "}") with (String "{" (body +:+ "}")). f_equal.
      change (body +:+ String "}" more) with (body +:+ "}" +:+ more).
      by rewrite <-append_assoc, keep_append. }
    destruct (DataReader.parseCurrencyPairFromJson stod ("{" +:+ body +:+ "}"))
      as [pair|] eqn:Hpair; cbn [mbind option_bind mapM].
    2:{ by rewrite Hpair. }
    rewrite Hpair. cbn [mbind option_bind].
    replace (done +:+ separator +:+ String "{" (body +:+ String "}" more))
      with ((done +:+ separator +:+ "{" +:+ body +:+ "}") +:+ more).
    2:{ rewrite !append_assoc. done. }
    replace (String.length done + String.length separator + S (String.length body) + 1)
      with (String.length (done +:+ separator +:+ "{" +:+ body +:+ "}")).
    2:{ rewrite !length_append; simpl; rewrite ?length_append; simpl; lia. }
    rewrite IH by lia.
    destruct (mapM _ objects) as [parsed|]; cbn; [|done].
    by rewrite <-app_assoc.
Qed.

(** X24.  [readFromJson] parses the objects between the first '[' and the
    last ']' in their order, each from its '{' to the next '}', when the
    text between the objects holds no '{' and their bodies no '}'; it fails
    only where the parse of an object does. *)
Theorem json_array_split (before after trailer : string)
    (objects : list (string * string)) :
  StdString.find before "[" = None →
  StdString.find after "]" = None →
  Forall (λ '(separator, body),
            StdString.find separator "{" = None ∧ StdString.find body "}" = None)
         objects →
  StdString.find trailer "{" = None →
  DataReader.readFromJson stod
    (Some (before +:+ "[" +:+ arrayText objects trailer +:+ "]" +:+ after))
  = mapM (λ '(_, body),
            DataReader.parseCurrencyPairFromJson stod ("{" +:+ body +:+ "}"))
         objects.
Proof.
  intros Hbefore Hafter Hobjects Htrailer.
  set (content := arrayText objects trailer).
  unfold DataReader.readFromJson.
  change ("[" +:+ content +:+ "]" +:+ after) with (String "[" (content +:+ String "]" after)).
  rewrite (find_append "[" before _ Hbefore).
  replace (before +:+ String "[" (content +:+ String "]" after))
    with ((before +:+ "[" +:+ content) +:+ String "]" after).
  2:{ rewrite !append_assoc. done. }
  rewrite (rfind_append "]" _ after Hafter).
  rewrite !length_append. cbn [String.length].
  match goal with |- context [(?x <? ?y)] =>
    destruct (Nat.ltb_spec x y) as [Hlt|_]; [lia|] end.
  match goal with |- context [Some (?x - ?y - 1)] =>
    replace (x - y - 1) with (String.length content) by lia end.
  assert (StdString.substr ((before +:+ "[" +:+ content) +:+ String "]" after)
            (String.length before + 1) (Some (String.length content)) = content) as ->.
  { unfold StdString.substr.
    rewrite !append_assoc.
    rewrite skip_add, skip_append.
    change (StdString.skip 1 ("[" +:+ content +:+ String "]" after))
      with (content +:+ String "]" after).
    by rewrite keep_append. }
  pose proof (readObjects_arrayText objects trailer Hobjects Htrailer
                (S (String.length content)) "" [] ltac:(subst content; lia)) as Hread.
  change ("" +:+ arrayText objects trailer) with content in Hread.
  change (String.length "") with 0 in Hread.
  rewrite Hread. by destruct (mapM _ objects).
Qed.

End SplitFacts.

(** X24, an instance: the two objects of [jsonFileExample]. *)
Lemma json_array_split_witness :
  DataReader.readFromJson stodExample (Some jsonFileExample)
  = Some [CurrencyPair_full "USD/INR" 83%float 0%float 0%float 0%float 0%float 0%float
            0%float "Asia" "";
          CurrencyPair_full "EUR/USD" 1.10%float 0%float 0%float 0%float 0%float 0%float
            0%float "" ""].
Proof.
  etrans.
  - apply (json_array_split stodExample "" "" ""
      [("", quoted "Currency Pair" +:+ ": " +:+ quoted "USD/INR" +:+ ", "
            +:+ quoted "Price" +:+ ": 83.0, " +:+ quoted "Group" +:+ ": " +:+ quoted "Asia");
       (", ", quoted "Currency Pair" +:+ ": " +:+ quoted "EUR/USD"
              +:+ ", " +:+ quoted "Price" +:+ ": 1.10")]).
    + reflexivity.
    + reflexivity.
    + repeat constructor.
    + reflexivity.
  - by vm_compute.
Defined.
